(** * A shallow embedding of three pieces of the ART method compiler

    - [Arm64]    : compiler/dex/quick/arm64/utility_arm64.cc
                   (immediate encoders, constant materialisation,
                   base+displacement loads and stores);
    - [Liveness] : compiler/optimizing/ssa_liveness_analysis.h
                   (LiveRange, UsePosition, LiveInterval);
    - [Builder]  : compiler/optimizing/builder.cc (HGraphBuilder).

    Machine integers are modelled as [Z] with the wrap-around of the C++
    type written out; a computation the C++ standard leaves undefined, a
    failed DCHECK and a LOG(FATAL) are all modelled as [None]. *)

From Stdlib Require Import ZArith Lia Bool List.
From stdpp Require Import base option list.

Local Open Scope Z_scope.

(** ** Fixed-width integers *)

Definition u16 (x : Z) : Z := x mod 2 ^ 16.
Definition u32 (x : Z) : Z := x mod 2 ^ 32.
Definition u64 (x : Z) : Z := x mod 2 ^ 64.

(** Conversion of an unsigned 32-bit pattern to [int] / [int32_t]. *)
Definition to_int32 (x : Z) : Z :=
  let y := u32 x in if y <? 2 ^ 31 then y else y - 2 ^ 32.

Definition b2z (b : bool) : Z := if b then 1 else 0.

(** ** Stateful code that may abort

    A method of a C++ object is a function of the object's state that
    returns a result and the new state, or [None] when a DCHECK fails or
    LOG(FATAL) is reached. *)

Definition M (St A : Type) : Type := St -> option (A * St).

Definition ret {St A} (a : A) : M St A := fun st => Some (a, st).

Definition bindM {St A B} (c : M St A) (k : A -> M St B) : M St B :=
  fun st => match c st with
            | Some (a, st') => k a st'
            | None => None
            end.

Definition abort {St A} : M St A := fun _ => None.

Definition DCHECK {St} (b : bool) : M St unit :=
  if b then ret tt else abort.

Definition gets {St A} (f : St -> A) : M St A := fun st => Some (f st, st).

Definition modify {St} (f : St -> St) : M St unit := fun st => Some (tt, f st).

Declare Scope m_scope.
Delimit Scope m_scope with M.
Notation "'let*' x ':=' c1 'in' c2" := (bindM c1 (fun x => c2))
  (at level 10, x name, c1 at level 100, c2 at level 200) : m_scope.
Notation "'let*' ' pat ':=' c1 'in' c2" :=
  (bindM c1 (fun x => match x with pat => c2 end))
  (at level 10, pat pattern, c1 at level 100, c2 at level 200) : m_scope.
Notation "c1 ;; c2" := (bindM c1 (fun _ => c2))
  (at level 100, c2 at level 200, right associativity) : m_scope.

Module Arm64.

(** *** The GCC bit-counting builtins

    [__builtin_clz], [__builtin_ctz] and [__builtin_popcount] on an
    operand of [bits] bits.  C leaves the result of the first two on 0
    undefined, and [EncodeLogicalImmediate] does call them on 0 (in 32-bit
    mode, on a value whose low word is 0 and whose high word is not): the
    call returns and the function goes on.  The counts below run over the
    bits of the operand and so give its width on 0, which is what the
    instructions the builtins compile to give there (clz, and rbit
    followed by clz; lzcnt and tzcnt). *)

Fixpoint leading_zeros (bits : nat) (x : Z) : Z :=
  match bits with
  | O => 0
  | S m => if Z.testbit x (Z.of_nat m) then 0 else 1 + leading_zeros m x
  end.

Fixpoint trailing_zeros_from (bits : nat) (i : Z) (x : Z) : Z :=
  match bits with
  | O => 0
  | S m => if Z.testbit x i then 0 else 1 + trailing_zeros_from m (i + 1) x
  end.

Fixpoint popcount (bits : nat) (x : Z) : Z :=
  match bits with
  | O => 0
  | S m => b2z (Z.testbit x (Z.of_nat m)) + popcount m x
  end.

Definition builtin_clz (bits : nat) (x : Z) : Z := leading_zeros bits x.

Definition builtin_ctz (bits : nat) (x : Z) : Z := trailing_zeros_from bits 0 x.

Definition builtin_popcount (bits : nat) (x : Z) : Z := popcount bits x.

(** [static int CountLeadingZeros(bool is_wide, uint64_t value)] and its
    two siblings; [unsigned long] is 64 bits wide. *)
Definition CountLeadingZeros (is_wide : bool) (value : Z) : Z :=
  if is_wide then builtin_clz 64 value else builtin_clz 32 (u32 value).

Definition CountTrailingZeros (is_wide : bool) (value : Z) : Z :=
  if is_wide then builtin_ctz 64 value else builtin_ctz 32 (u32 value).

Definition CountSetBits (is_wide : bool) (value : Z) : Z :=
  if is_wide then builtin_popcount 64 value
  else builtin_popcount 32 (u32 value).

(** *** EncodeLogicalImmediate *)

(** How the [for (;;)] loop of [EncodeLogicalImmediate] is left: by
    [break], with [n], [imm_s] and [imm_r] assigned, or by [return -1]. *)
Inductive loop_exit : Type :=
| Break (n imm_s imm_r : Z)
| ReturnFail.

(** The loop itself.  [width], [set_bits] and [imm_s_fixed] are the
    variables it updates; the four run lengths are computed once before
    it.  [fuel] bounds the number of iterations ([None] when it runs
    out); all arithmetic is on [unsigned], except [imm_s_fixed], an
    [int], which [|] converts to [unsigned]. *)
Fixpoint encode_loop (fuel : nat)
    (value lead_zero lead_one trail_zero trail_one : Z)
    (width set_bits imm_s_fixed : Z) : option loop_exit :=
  match fuel with
  | O => None
  | S fuel' =>
    if width =? 2 then
      Some (Break 0 0x3C (u32 (Z.land value 3 - 1)))
    else
      let n := if width =? 64 then 1 else 0 in
      let imm_s := Z.land (Z.lor (u32 imm_s_fixed) (u32 (set_bits - 1))) 0x3f in
      let imm_r :=
        if u32 (lead_zero + set_bits) =? width then 0
        else if 0 <? lead_zero then u32 (width - trail_zero) else lead_one in
      if u32 (lead_zero + trail_zero + set_bits) =? width then
        Some (Break n imm_s imm_r)
      else if u32 (lead_one + trail_one + u32 (width - set_bits)) =? width then
        Some (Break n imm_s imm_r)
      else
        let mask := u64 (Z.shiftl 1 (Z.shiftr width 1)) - 1 in
        if Z.land value mask =? Z.land (Z.shiftr value (Z.shiftr width 1)) mask then
          encode_loop fuel' value lead_zero lead_one trail_zero trail_one
            (Z.shiftr width 1) (Z.shiftr set_bits 1) (Z.shiftr imm_s_fixed 1)
        else Some ReturnFail
  end.

(** [return (n << 12 | imm_r << 6 | imm_s);] *)
Definition pack_logical_imm (n imm_s imm_r : Z) : Z :=
  to_int32 (Z.lor (Z.lor (u32 (Z.shiftl n 12)) (u32 (Z.shiftl imm_r 6))) imm_s).

(** [int Arm64Mir2Lir::EncodeLogicalImmediate(bool is_wide, uint64_t value)].
    [value] is a 64-bit pattern, [0 <= value < 2^64].  Six iterations
    take [width] from 64 down to 2, where the loop always breaks. *)
Definition EncodeLogicalImmediate (is_wide : bool) (value : Z) : option Z :=
  if (value =? 0) || (value =? u64 (Z.lnot 0))
     || (negb is_wide && (u32 value =? u32 (Z.lnot 0)))
  then Some (-1)
  else
    let lead_zero := CountLeadingZeros is_wide value in
    let lead_one := CountLeadingZeros is_wide (u64 (Z.lnot value)) in
    let trail_zero := CountTrailingZeros is_wide value in
    let trail_one := CountTrailingZeros is_wide (u64 (Z.lnot value)) in
    let set_bits := CountSetBits is_wide value in
    let width := if is_wide then 64 else 32 in
    let imm_s_fixed := if is_wide then -128 else -64 in
    exit ← encode_loop 6 value lead_zero lead_one trail_zero trail_one
             width set_bits imm_s_fixed;
    match exit with
    | Break n imm_s imm_r => Some (pack_logical_imm n imm_s imm_r)
    | ReturnFail => Some (-1)
    end.

(** *** DecodeLogicalImmediate *)

(** [bit_mask(n)]: the [n] low bits set. *)
Definition bit_mask (n : Z) : Z := Z.ones n.

(** Rotation to the right by [rotate] of the [width] low bits of [value]. *)
Definition RotateRight (value rotate width : Z) : Z :=
  Z.land (Z.lor (Z.shiftr value rotate) (Z.shiftl value (width - rotate)))
         (Z.ones width).

(** [copies] copies of the [width]-bit pattern [value], side by side. *)
Fixpoint RepeatBits (copies : nat) (value width : Z) : Z :=
  match copies with
  | O => 0
  | S c => Z.lor value (Z.shiftl (RepeatBits c value width) width)
  end.

(** The rows of the table: the element size selected by [N] and the
    leading bits of [imms]. *)
Definition element_size (n imm_s : Z) : option Z :=
  if n =? 1 then Some 64
  else if Z.land imm_s 0x20 =? 0 then Some 32
  else if Z.land imm_s 0x10 =? 0 then Some 16
  else if Z.land imm_s 0x08 =? 0 then Some 8
  else if Z.land imm_s 0x04 =? 0 then Some 4
  else if Z.land imm_s 0x02 =? 0 then Some 2
  else None.

(** The columns [size], [S] and [R] of the table for an encoded
    immediate; [None] for the encodings the table excludes
    ("s bits must not be all set"). *)
Definition decode_fields (encoded : Z) : option (Z * Z * Z) :=
  let n := Z.land (Z.shiftr encoded 12) 1 in
  let imm_r := Z.land (Z.shiftr encoded 6) 0x3f in
  let imm_s := Z.land encoded 0x3f in
  size ← element_size n imm_s;
  let s := Z.land imm_s (size - 1) in
  let r := Z.land imm_r (size - 1) in
  if s =? size - 1 then None else Some (size, s, r).

(** Modelled from the spec: [Arm64Mir2Lir::DecodeLogicalImmediate], the
    decoder [EncodeLogicalImmediate] is documented to invert, is not among
    the sources.  This is the bitmask-replicate table of the comment in
    [EncodeLogicalImmediate]: a pattern of [size] bits with the [S+1] least
    significant bits set, rotated right by [R] and repeated across a 32-
    or 64-bit value. *)
Definition DecodeLogicalImmediate (is_wide : bool) (encoded : Z) : option Z :=
  let reg_size := if is_wide then 64 else 32 in
  '(size, s, r) ← decode_fields encoded;
  if reg_size <? size then None
  else Some (RepeatBits (Z.to_nat (reg_size / size))
                        (RotateRight (bit_mask (s + 1)) r size) size).

(** *** Vocabulary of the statements *)

(** Number of indices below [n] at which [f] holds. *)
Fixpoint bitcount (f : Z -> bool) (n : nat) : Z :=
  match n with
  | O => 0
  | S m => b2z (f (Z.of_nat m)) + bitcount f m
  end.

(** The [k] topmost of the [w] low bits of [v] equal [b] and, when there
    is one, the bit below them does not. *)
Definition lead_run (b : bool) (w k v : Z) : Prop :=
  0 <= k <= w /\
  (forall i, w - k <= i < w -> Z.testbit v i = b) /\
  (k < w -> Z.testbit v (w - k - 1) = negb b).

Definition trail_run (b : bool) (w k v : Z) : Prop :=
  0 <= k <= w /\
  (forall i, 0 <= i < k -> Z.testbit v i = b) /\
  (k < w -> Z.testbit v k = negb b).

(** The [W] low bits of [v] repeat with period [w]. *)
Definition periodic (W v w : Z) : Prop :=
  forall i, 0 <= i < W -> Z.testbit v i = Z.testbit v (i mod w).

(** The integers from [lo], [n] of them. *)
Definition Zrange (lo : Z) (n : nat) : list Z :=
  map (fun k => lo + Z.of_nat k) (seq 0 n).

Definition fields_eqb (a : option (Z * Z * Z)) (size s r : Z) : bool :=
  match a with
  | Some (size', s', r') => (size' =? size) && (s' =? s) && (r' =? r)
  | None => false
  end.

(** The immediate the loop builds at [width], for every possible number
    of set bits and every rotation, reads back as the same fields. *)
Definition fields_ok (width : Z) : bool :=
  forallb (fun sb =>
    forallb (fun r =>
      fields_eqb
        (decode_fields
           (pack_logical_imm (if width =? 64 then 1 else 0)
              (Z.land (Z.lor (u32 (- 2 * width)) (u32 (sb - 1))) 0x3f) r))
        width (sb - 1) r)
      (Zrange 0 (Z.to_nat width)))
    (Zrange 1 (Z.to_nat width - 1)).

(** The width of a register. *)
Definition reg_width (is_wide : bool) : Z := if is_wide then 64 else 32.


(** The value of a register of the selected width. *)
Definition reg_value (is_wide : bool) (value : Z) : Z :=
  if is_wide then value else u32 value.


(** *** Floating-point immediates *)

(** [static int32_t EncodeImmSingle(uint32_t bits)] *)
Definition EncodeImmSingle (bits : Z) : Z :=
  if negb (Z.land bits 0x0007ffff =? 0) then -1
  else
    let b_pattern := Z.land (Z.shiftr bits 16) 0x3e00 in
    if negb (b_pattern =? 0) && negb (b_pattern =? 0x3e00) then -1
    else if Z.land (Z.lxor bits (u32 (Z.shiftl bits 1))) 0x40000000 =? 0 then -1
    else
      let bit7 := u32 (Z.shiftl (Z.land (Z.shiftr bits 31) 0x1) 7) in
      let bit6 := u32 (Z.shiftl (Z.land (Z.shiftr bits 29) 0x1) 6) in
      let bit5_to_0 := Z.land (Z.shiftr bits 19) 0x3f in
      to_int32 (Z.lor (Z.lor bit7 bit6) bit5_to_0).

(** [static int32_t EncodeImmDouble(uint64_t bits)] *)
Definition EncodeImmDouble (bits : Z) : Z :=
  if negb (Z.land bits 0xffffffffffff =? 0) then -1
  else
    let b_pattern := u32 (Z.land (Z.shiftr bits 48) 0x3fc0) in
    if negb (b_pattern =? 0) && negb (b_pattern =? 0x3fc0) then -1
    else if Z.land (Z.lxor bits (u64 (Z.shiftl bits 1))) 0x4000000000000000 =? 0 then -1
    else
      let bit7 := u32 (Z.shiftl (Z.land (Z.shiftr bits 63) 0x1) 7) in
      let bit6 := u32 (Z.shiftl (Z.land (Z.shiftr bits 61) 0x1) 6) in
      let bit5_to_0 := u32 (Z.land (Z.shiftr bits 48) 0x3f) in
      to_int32 (Z.lor (Z.lor bit7 bit6) bit5_to_0).

(** *** Machine instruction records *)

(** The opcodes of arm64_lir.h that utility_arm64.cc names in the
    functions embedded here. *)
Inductive A64Opcode : Type :=
| kA64Brk1d | kA64Fmov2sw | kA64Fmov2Sx | kA64Fmov2fI | kA64Ldr2fp
| kA64Mov2rr | kA64Mvn2rr | kA64Movn3rdM | kA64Movz3rdM | kA64Movk3rdM
| kA64Orr3Rrl
| kA64Ldr3fXD | kA64Ldur3fXd | kA64Ldr3rXD | kA64Ldur3rXd
| kA64Ldrh3wXF | kA64Ldrsh3rXF | kA64Ldrb3wXd | kA64Ldrsb3rXd
| kA64Str3fXD | kA64Stur3fXd | kA64Str3rXD | kA64Stur3rXd
| kA64Strh3wXF | kA64Strb3wXd
| kA64Ldr4fXxG | kA64Ldr4rXxG | kA64Ldrh4wXxd | kA64Ldrsh4rXxd
| kA64Ldrb3wXx | kA64Ldrsb3rXx
| kA64Str4fXxG | kA64Str4rXxG | kA64Strh4wXxd | kA64Strb3wXx.

(** An [ArmOpcode]: an opcode, or one marked by the [WIDE] or [FWIDE]
    macro. *)
Inductive ArmOpcode : Type :=
| Op (op : A64Opcode)
| WIDE (op : A64Opcode)
| FWIDE (op : A64Opcode).

(** [opcode != kA64Brk1d] *)
Definition is_not_Brk1d (opcode : ArmOpcode) : bool :=
  match opcode with
  | Op kA64Brk1d => false
  | _ => true
  end.

(** [enum OpSize] *)
Inductive OpSize : Type :=
| k32 | k64 | kReference | kWord | kSingle | kDouble
| kUnsignedHalf | kSignedHalf | kUnsignedByte | kSignedByte.

Definition OpSize_eqb (a b : OpSize) : bool :=
  match a, b with
  | k32, k32 | k64, k64 | kReference, kReference | kWord, kWord
  | kSingle, kSingle | kDouble, kDouble | kUnsignedHalf, kUnsignedHalf
  | kSignedHalf, kSignedHalf | kUnsignedByte, kUnsignedByte
  | kSignedByte, kSignedByte => true
  | _, _ => false
  end.

(** Modelled from the spec: the macro [IS_SIGNED_IMM9] of arm64_lir.h:
    the value fits a signed 9-bit field. *)
Definition IS_SIGNED_IMM9 (value : Z) : bool :=
  (- 2 ^ 8 <=? value) && (value <? 2 ^ 8).

(** [High16Bits], [Low16Bits], [High32Bits] and [Low32Bits] of utils.h. *)
Definition High16Bits (value : Z) : Z := u16 (Z.shiftr value 16).
Definition Low16Bits (value : Z) : Z := u16 value.
Definition High32Bits (value : Z) : Z := to_int32 (Z.shiftr value 32).
Definition Low32Bits (value : Z) : Z := to_int32 value.

(** The addressing form of a load or store opcode, which its name in
    arm64_lir.h tells: the three-operand [Ldr] and [Str] opcodes take an
    unsigned 12-bit offset scaled by the operand size, the [Ldur] and
    [Stur] ones an unscaled signed 9-bit offset, and the [Xx] ones a
    register offset. *)
Inductive AddressingForm : Type :=
| ScaledImmediateOffset | UnscaledImmediateOffset | RegisterOffset.

Definition addressing_form (opcode : ArmOpcode) : option AddressingForm :=
  match opcode with
  | Op op | WIDE op | FWIDE op =>
    match op with
    | kA64Ldr3fXD | kA64Ldr3rXD | kA64Ldrh3wXF | kA64Ldrsh3rXF
    | kA64Ldrb3wXd | kA64Ldrsb3rXd
    | kA64Str3fXD | kA64Str3rXD | kA64Strh3wXF | kA64Strb3wXd =>
      Some ScaledImmediateOffset
    | kA64Ldur3fXd | kA64Ldur3rXd | kA64Stur3fXd | kA64Stur3rXd =>
      Some UnscaledImmediateOffset
    | kA64Ldr4fXxG | kA64Ldr4rXxG | kA64Ldrh4wXxd | kA64Ldrsh4rXxd
    | kA64Ldrb3wXx | kA64Ldrsb3rXx
    | kA64Str4fXxG | kA64Str4rXxG | kA64Strh4wXxd | kA64Strb3wXx =>
      Some RegisterOffset
    | _ => None
    end
  end.

Section Codegen.

(** What the functions use of reg_storage.h, arm64_lir.h and the
    [Mir2Lir] base class, none of which is among the sources.  A
    [RegStorage] and a register number are both integers. *)
Variables rwzr rwsp rs_rA64_SP : Z.
Variable GetReg : Z -> Z.
Variables IsFloat IsDouble IsSingle Is64Bit : Z -> bool.
Variables RegStorage_IsFloat RegStorage_IsDouble RegStorage_IsSingle : Z -> bool.

(** The literal pool. *)
Variables literal_pool literal : Type.
Variable ScanLiteralPool : literal_pool -> Z -> Z -> option literal.
Variable AddWordData : literal_pool -> Z -> literal * literal_pool.
Variable ScanLiteralPoolWide : literal_pool -> Z -> Z -> option literal.
Variable AddWideData : literal_pool -> Z -> Z -> literal * literal_pool.

(** A [LIR]: the offset of the bytecode it comes from, the opcode, five
    operands, the literal it refers to, and what [SetMemRefType] and
    [AnnotateDalvikRegAccess] record in it. *)
Record LIR : Type := mkLIR {
  dalvik_offset : Z;
  opcode : ArmOpcode;
  operands : Z * Z * Z * Z * Z;
  target : option literal;
  mem_ref_literal : bool;
  dalvik_reg_access : option (Z * bool * bool)
}.

(** One temporary register of the pool. *)
Record RegisterInfo : Type := mkRegisterInfo {
  temp_reg : Z;
  in_use : bool
}.

(** The part of the state of the code generator the functions touch:
    the instructions emitted so far, in order; the literal pool; the
    offset of the bytecode being compiled; the temporaries. *)
Record Codegen : Type := mkCodegen {
  lir_list : list LIR;
  literal_list_ : literal_pool;
  current_dalvik_offset_ : Z;
  temps : list RegisterInfo
}.

Local Open Scope m_scope.

Definition RawLIR (dalvik_offset : Z) (opcode : ArmOpcode)
    (op0 op1 op2 op3 op4 : Z) (target : option literal) : LIR :=
  mkLIR dalvik_offset opcode (op0, op1, op2, op3, op4) target false None.

Definition AppendLIR (lir : LIR) : M Codegen unit :=
  modify (fun cg => mkCodegen (lir_list cg ++ [lir]) (literal_list_ cg)
                              (current_dalvik_offset_ cg) (temps cg)).

(** [NewLIR2], [NewLIR3], [NewLIR4]: build a record at the current offset
    and append it; the result is the record. *)
Definition NewLIR (opcode : ArmOpcode) (op0 op1 op2 op3 : Z) : M Codegen LIR :=
  let* offset := gets current_dalvik_offset_ in
  let lir := RawLIR offset opcode op0 op1 op2 op3 0 None in
  AppendLIR lir ;; ret lir.

Definition NewLIR2 (opcode : ArmOpcode) (dest src1 : Z) : M Codegen LIR :=
  NewLIR opcode dest src1 0 0.
Definition NewLIR3 (opcode : ArmOpcode) (dest src1 src2 : Z) : M Codegen LIR :=
  NewLIR opcode dest src1 src2 0.
Definition NewLIR4 (opcode : ArmOpcode) (dest src1 src2 info : Z) : M Codegen LIR :=
  NewLIR opcode dest src1 src2 info.

(** [SetMemRefType(lir, true, kLiteral)] *)
Definition SetMemRefType_literal (lir : LIR) : LIR :=
  mkLIR (dalvik_offset lir) (opcode lir) (operands lir) (target lir) true
        (dalvik_reg_access lir).

Definition set_literal_list (pool : literal_pool) : M Codegen unit :=
  modify (fun cg => mkCodegen (lir_list cg) pool (current_dalvik_offset_ cg)
                              (temps cg)).

(** [LIR* Arm64Mir2Lir::LoadFPConstantValue(int r_dest, int32_t value)] *)
Definition LoadFPConstantValue (r_dest value : Z) : M Codegen LIR :=
  DCHECK (RegStorage_IsSingle r_dest) ;;
  if value =? 0 then NewLIR2 (Op kA64Fmov2sw) r_dest rwzr
  else
    let encoded_imm := EncodeImmSingle (u32 value) in
    if 0 <=? encoded_imm then NewLIR2 (Op kA64Fmov2fI) r_dest encoded_imm
    else
      let* pool := gets literal_list_ in
      let* data_target :=
        match ScanLiteralPool pool value 0 with
        | Some data_target => ret data_target
        | None =>
          let '(data_target, pool') := AddWordData pool value in
          set_literal_list pool' ;; ret data_target
        end in
      let* offset := gets current_dalvik_offset_ in
      let load_pc_rel :=
        SetMemRefType_literal
          (RawLIR offset (Op kA64Ldr2fp) r_dest 0 0 0 0 (Some data_target)) in
      AppendLIR load_pc_rel ;; ret load_pc_rel.

(** [LIR* Arm64Mir2Lir::LoadFPConstantValueWide(int r_dest, int64_t value)] *)
Definition LoadFPConstantValueWide (r_dest value : Z) : M Codegen LIR :=
  DCHECK (RegStorage_IsDouble r_dest) ;;
  if value =? 0 then NewLIR2 (Op kA64Fmov2Sx) r_dest rwzr
  else
    let encoded_imm := EncodeImmDouble (u64 value) in
    if 0 <=? encoded_imm then NewLIR2 (FWIDE kA64Fmov2fI) r_dest encoded_imm
    else
      let val_lo := Low32Bits value in
      let val_hi := High32Bits value in
      let* pool := gets literal_list_ in
      let* data_target :=
        match ScanLiteralPoolWide pool val_lo val_hi with
        | Some data_target => ret data_target
        | None =>
          let '(data_target, pool') := AddWideData pool val_lo val_hi in
          set_literal_list pool' ;; ret data_target
        end in
      DCHECK (RegStorage_IsFloat r_dest) ;;
      let* offset := gets current_dalvik_offset_ in
      let load_pc_rel :=
        SetMemRefType_literal
          (RawLIR offset (FWIDE kA64Ldr2fp) r_dest 0 0 0 0 (Some data_target)) in
      AppendLIR load_pc_rel ;; ret load_pc_rel.

(** [LIR* Arm64Mir2Lir::LoadConstantNoClobber(RegStorage r_dest, int value)].
    [value] is an [int]; passing it to [EncodeLogicalImmediate] converts
    it to [uint64_t]. *)
Definition LoadConstantNoClobber (r_dest value : Z) : M Codegen LIR :=
  if IsFloat r_dest then LoadFPConstantValue (GetReg r_dest) value
  else
    DCHECK (negb (GetReg r_dest =? rwsp)) ;;
    DCHECK (negb (GetReg r_dest =? rwzr)) ;;
    let high_bits := High16Bits value in
    let low_bits := Low16Bits value in
    let low_fast := u16 (low_bits + 1) <=? 1 in
    let high_fast := u16 (high_bits + 1) <=? 1 in
    if low_fast || high_fast then
      if low_bits =? high_bits then
        let opcode := if low_bits =? 0 then kA64Mov2rr else kA64Mvn2rr in
        NewLIR2 (Op opcode) (GetReg r_dest) rwzr
      else
        let '(shift, uniform_bits, useful_bits) :=
          if high_fast then (0, high_bits, low_bits)
          else (1, low_bits, high_bits) in
        if negb (uniform_bits =? 0) then
          NewLIR3 (Op kA64Movn3rdM) (GetReg r_dest) (Z.lnot useful_bits) shift
        else
          NewLIR3 (Op kA64Movz3rdM) (GetReg r_dest) useful_bits shift
    else
      match EncodeLogicalImmediate false (u64 value) with
      | None => abort
      | Some log_imm =>
        if 0 <=? log_imm then
          NewLIR3 (Op kA64Orr3Rrl) (GetReg r_dest) rwzr log_imm
        else
          let* res := NewLIR3 (Op kA64Movz3rdM) (GetReg r_dest) low_bits 0 in
          NewLIR3 (Op kA64Movk3rdM) (GetReg r_dest) high_bits 1 ;;
          ret res
      end.

(** *** Temporaries *)

Definition set_temps (ts : list RegisterInfo) : M Codegen unit :=
  modify (fun cg => mkCodegen (lir_list cg) (literal_list_ cg)
                              (current_dalvik_offset_ cg) ts).

Fixpoint take_free (ts : list RegisterInfo) : option (Z * list RegisterInfo) :=
  match ts with
  | [] => None
  | t :: ts' =>
    if in_use t then
      match take_free ts' with
      | Some (r, ts'') => Some (r, t :: ts'')
      | None => None
      end
    else Some (temp_reg t, mkRegisterInfo (temp_reg t) true :: ts')
  end.

(** Modelled from the spec: [AllocTemp] of the [Mir2Lir] base class, which
    is not among the sources, "allocates a scratch register": the first
    temporary not in use is marked in use and returned; there being none
    is fatal. *)
Definition AllocTemp : M Codegen Z :=
  let* ts := gets temps in
  match take_free ts with
  | Some (r, ts') => set_temps ts' ;; ret r
  | None => abort
  end.

(** Modelled from the spec: [FreeTemp] "frees it (observably available for
    reuse afterward)": the temporary is marked not in use. *)
Definition FreeTemp (r : Z) : M Codegen unit :=
  let* ts := gets temps in
  set_temps (map (fun t => if temp_reg t =? r
                           then mkRegisterInfo (temp_reg t) false else t) ts).

(** Modelled from the spec: [LoadConstant] of the [Mir2Lir] base class
    "materialize[s] the displacement into a scratch register via constant
    materialization", which is [LoadConstantNoClobber]. *)
Definition LoadConstant (r_dest value : Z) : M Codegen LIR :=
  LoadConstantNoClobber r_dest value.

(** *** Loads and stores *)

(** [LIR* Arm64Mir2Lir::LoadBaseIndexed(RegStorage r_base, RegStorage r_index,
    RegStorage r_dest, int scale, OpSize size)].  The [DCHECK_NE] on
    [EncodingMap], a table of another file, asks of the table that the
    byte opcodes be tertiary; it is left out here and in
    [StoreBaseIndexed]. *)
Definition LoadBaseIndexed (r_base r_index r_dest scale : Z) (size : OpSize)
    : M Codegen LIR :=
  if IsFloat r_dest then
    let* '(expected_scale, opcode) :=
      if IsDouble r_dest then
        DCHECK (OpSize_eqb size k64 || OpSize_eqb size kDouble) ;;
        ret (3, FWIDE kA64Ldr4fXxG)
      else
        DCHECK (IsSingle r_dest) ;;
        DCHECK (OpSize_eqb size k32 || OpSize_eqb size kSingle) ;;
        ret (2, Op kA64Ldr4fXxG) in
    DCHECK ((scale =? 0) || (scale =? expected_scale)) ;;
    NewLIR4 opcode (GetReg r_dest) (GetReg r_base) (GetReg r_index)
            (if negb (scale =? 0) then 1 else 0)
  else
    let '(opcode, expected_scale) :=
      match size with
      | kDouble | kWord | k64 => (WIDE kA64Ldr4rXxG, 3)
      | kSingle | k32 | kReference => (Op kA64Ldr4rXxG, 2)
      | kUnsignedHalf => (Op kA64Ldrh4wXxd, 1)
      | kSignedHalf => (Op kA64Ldrsh4rXxd, 1)
      | kUnsignedByte => (Op kA64Ldrb3wXx, 0)
      | kSignedByte => (Op kA64Ldrsb3rXx, 0)
      end in
    if expected_scale =? 0 then
      DCHECK (scale =? 0) ;;
      NewLIR3 opcode (GetReg r_dest) (GetReg r_base) (GetReg r_index)
    else
      DCHECK ((scale =? 0) || (scale =? expected_scale)) ;;
      NewLIR4 opcode (GetReg r_dest) (GetReg r_base) (GetReg r_index)
              (if negb (scale =? 0) then 1 else 0).

(** [LIR* Arm64Mir2Lir::StoreBaseIndexed(RegStorage r_base, RegStorage r_index,
    RegStorage r_src, int scale, OpSize size)] *)
Definition StoreBaseIndexed (r_base r_index r_src scale : Z) (size : OpSize)
    : M Codegen LIR :=
  if IsFloat r_src then
    let* '(expected_scale, opcode) :=
      if IsDouble r_src then
        DCHECK (OpSize_eqb size k64 || OpSize_eqb size kDouble) ;;
        ret (3, FWIDE kA64Str4fXxG)
      else
        DCHECK (IsSingle r_src) ;;
        DCHECK (OpSize_eqb size k32 || OpSize_eqb size kSingle) ;;
        ret (2, Op kA64Str4fXxG) in
    DCHECK ((scale =? 0) || (scale =? expected_scale)) ;;
    NewLIR4 opcode (GetReg r_src) (GetReg r_base) (GetReg r_index)
            (if negb (scale =? 0) then 1 else 0)
  else
    let '(opcode, expected_scale) :=
      match size with
      | kDouble | kWord | k64 => (WIDE kA64Str4rXxG, 3)
      | kSingle | k32 | kReference => (Op kA64Str4rXxG, 2)
      | kUnsignedHalf | kSignedHalf => (Op kA64Strh4wXxd, 1)
      | kUnsignedByte | kSignedByte => (Op kA64Strb3wXx, 0)
      end in
    if expected_scale =? 0 then
      DCHECK (scale =? 0) ;;
      NewLIR3 opcode (GetReg r_src) (GetReg r_base) (GetReg r_index)
    else
      NewLIR4 opcode (GetReg r_src) (GetReg r_base) (GetReg r_index)
              (if negb (scale =? 0) then 1 else 0).

(** [AnnotateDalvikRegAccess(lir, reg_id, is_load, is64bit)].  [lir]
    points to the instruction emitted last: the annotation is recorded in
    that element of the list, and the result is the record the pointer
    now leads to. *)
Definition AnnotateDalvikRegAccess (lir : LIR) (reg_id : Z) (is_load is64bit : bool)
    : M Codegen LIR :=
  let lir' :=
    mkLIR (dalvik_offset lir) (opcode lir) (operands lir) (target lir)
          (mem_ref_literal lir) (Some (reg_id, is_load, is64bit)) in
  modify (fun cg =>
    mkCodegen (removelast (lir_list cg) ++ [lir'])
              (literal_list_ cg) (current_dalvik_offset_ cg) (temps cg)) ;;
  ret lir'.

(** [LIR* Arm64Mir2Lir::LoadBaseDispBody(RegStorage r_base, int displacement,
    RegStorage r_dest, OpSize size)] *)
Definition LoadBaseDispBody (r_base displacement r_dest : Z) (size : OpSize)
    : M Codegen LIR :=
  let* '(opcode, alt_opcode, scale) :=
    match size with
    | kDouble | kWord | k64 =>
      if IsFloat r_dest then
        DCHECK (IsDouble r_dest) ;;
        ret (FWIDE kA64Ldr3fXD, FWIDE kA64Ldur3fXd, 3)
      else ret (WIDE kA64Ldr3rXD, WIDE kA64Ldur3rXd, 3)
    | kSingle | k32 | kReference =>
      if IsFloat r_dest then
        DCHECK (IsSingle r_dest) ;;
        ret (Op kA64Ldr3fXD, Op kA64Brk1d, 2)
      else ret (Op kA64Ldr3rXD, Op kA64Brk1d, 2)
    | kUnsignedHalf => ret (Op kA64Ldrh3wXF, Op kA64Brk1d, 1)
    | kSignedHalf => ret (Op kA64Ldrsh3rXF, Op kA64Brk1d, 1)
    | kUnsignedByte => ret (Op kA64Ldrb3wXd, Op kA64Brk1d, 0)
    | kSignedByte => ret (Op kA64Ldrsb3rXd, Op kA64Brk1d, 0)
    end in
  let displacement_is_aligned :=
    Z.land displacement (Z.shiftl 1 scale - 1) =? 0 in
  let scaled_disp := Z.shiftr displacement scale in
  let* load :=
    if displacement_is_aligned && (0 <=? scaled_disp) && (scaled_disp <? 4096) then
      NewLIR3 opcode (GetReg r_dest) (GetReg r_base) scaled_disp
    else if is_not_Brk1d alt_opcode && IS_SIGNED_IMM9 displacement then
      NewLIR3 alt_opcode (GetReg r_dest) (GetReg r_base) displacement
    else
      let* r_scratch := AllocTemp in
      LoadConstant r_scratch displacement ;;
      let* load := LoadBaseIndexed r_base r_scratch r_dest 0 size in
      FreeTemp r_scratch ;;
      ret load in
  if r_base =? rs_rA64_SP then
    AnnotateDalvikRegAccess load (Z.shiftr displacement 2) true (Is64Bit r_dest)
  else ret load.

(** [LIR* Arm64Mir2Lir::StoreBaseDispBody(RegStorage r_base, int displacement,
    RegStorage r_src, OpSize size)] *)
Definition StoreBaseDispBody (r_base displacement r_src : Z) (size : OpSize)
    : M Codegen LIR :=
  let* '(opcode, alt_opcode, scale) :=
    match size with
    | kDouble | kWord | k64 =>
      if IsFloat r_src then
        DCHECK (IsDouble r_src) ;;
        ret (FWIDE kA64Str3fXD, FWIDE kA64Stur3fXd, 3)
      else ret (FWIDE kA64Str3rXD, FWIDE kA64Stur3rXd, 3)
    | kSingle | k32 | kReference =>
      if IsFloat r_src then
        DCHECK (IsSingle r_src) ;;
        ret (Op kA64Str3fXD, Op kA64Brk1d, 2)
      else ret (Op kA64Str3rXD, Op kA64Brk1d, 2)
    | kUnsignedHalf | kSignedHalf => ret (Op kA64Strh3wXF, Op kA64Brk1d, 1)
    | kUnsignedByte | kSignedByte => ret (Op kA64Strb3wXd, Op kA64Brk1d, 0)
    end in
  let displacement_is_aligned :=
    Z.land displacement (Z.shiftl 1 scale - 1) =? 0 in
  let scaled_disp := Z.shiftr displacement scale in
  let* store :=
    if displacement_is_aligned && (0 <=? scaled_disp) && (scaled_disp <? 4096) then
      NewLIR3 opcode (GetReg r_src) (GetReg r_base) scaled_disp
    else if is_not_Brk1d alt_opcode && IS_SIGNED_IMM9 displacement then
      NewLIR3 alt_opcode (GetReg r_src) (GetReg r_base) displacement
    else
      let* r_scratch := AllocTemp in
      LoadConstant r_scratch displacement ;;
      let* store := StoreBaseIndexed r_base r_scratch r_src 0 size in
      FreeTemp r_scratch ;;
      ret store in
  if r_base =? rs_rA64_SP then
    AnnotateDalvikRegAccess store (Z.shiftr displacement 2) false (Is64Bit r_src)
  else ret store.

(** *** Vocabulary of the statements *)

(** The state [cg] with the list [lirs] for its instructions. *)
Definition with_lirs (cg : Codegen) (lirs : list LIR) : Codegen :=
  mkCodegen lirs (literal_list_ cg) (current_dalvik_offset_ cg) (temps cg).

(** The record [NewLIR2], [NewLIR3] or [NewLIR4] builds in the state
    [cg]. *)
Definition new_lir (cg : Codegen) (opcode : ArmOpcode) (op0 op1 op2 op3 : Z)
    : LIR :=
  RawLIR (current_dalvik_offset_ cg) opcode op0 op1 op2 op3 0 None.

(** The record once [AnnotateDalvikRegAccess] has run on it, which it
    does when the base register is the stack pointer. *)
Definition annotated (r_base displacement : Z) (is_load is64bit : bool)
    (lir : LIR) : LIR :=
  if r_base =? rs_rA64_SP then
    mkLIR (dalvik_offset lir) (opcode lir) (operands lir) (target lir)
          (mem_ref_literal lir) (Some (Z.shiftr displacement 2, is_load, is64bit))
  else lir.

(** The scale of an operand size: the logarithm of its number of bytes. *)
Definition size_scale (size : OpSize) : Z :=
  match size with
  | kDouble | kWord | k64 => 3
  | kSingle | k32 | kReference => 2
  | kUnsignedHalf | kSignedHalf => 1
  | kUnsignedByte | kSignedByte => 0
  end.

Definition is_64bit_size (size : OpSize) : bool :=
  match size with
  | kDouble | kWord | k64 => true
  | _ => false
  end.

(** The displacement is a multiple of the operand size and, scaled, fits
    the 12-bit field. *)
Definition fits_scaled (size : OpSize) (displacement : Z) : bool :=
  (Z.land displacement (Z.shiftl 1 (size_scale size) - 1) =? 0)
  && (0 <=? Z.shiftr displacement (size_scale size))
  && (Z.shiftr displacement (size_scale size) <? 4096).

(** A 16-bit half that is all zeros or all ones. *)
Definition uniform_half (bits : Z) : bool := (bits =? 0) || (bits =? 0xffff).

(** The sizes [k64] and [kDouble], and [k32] and [kSingle], are the ones
    [LoadBaseIndexed] and [StoreBaseIndexed] take a floating-point
    register at, a double register at the former and a single one at the
    latter: what their [DCHECK]s ask of the register.  It is more than
    [disp_checked] below asks. *)
Definition well_sized (r : Z) (size : OpSize) : bool :=
  if IsFloat r then
    match size with
    | kDouble | k64 => IsDouble r
    | kSingle | k32 => IsSingle r && negb (IsDouble r)
    | _ => false
    end
  else true.

(** What the [DCHECK]s of [LoadBaseDispBody] and [StoreBaseDispBody]
    themselves ask of the register: a floating-point register is double
    at a 64-bit size and single at a 32-bit size. *)
Definition disp_checked (r : Z) (size : OpSize) : bool :=
  if IsFloat r then
    match size with
    | kDouble | kWord | k64 => IsDouble r
    | kSingle | k32 | kReference => IsSingle r
    | _ => true
    end
  else true.

(** The state [cg] with the list [ts] for its temporaries. *)
Definition with_temps (cg : Codegen) (ts : list RegisterInfo) : Codegen :=
  mkCodegen (lir_list cg) (literal_list_ cg) (current_dalvik_offset_ cg) ts.

(** The temporary [r] is not in use. *)
Definition temp_is_free (ts : list RegisterInfo) (r : Z) : Prop :=
  forall t, In t ts -> temp_reg t = r -> in_use t = false.

(** Running [run] in the state [cg] emits exactly one instruction, of
    the addressing form [form], on the register [r], the base register
    and the offset [operand]; its result is that instruction. *)
Definition emits_one (run : M Codegen LIR) (cg : Codegen) (form : AddressingForm)
    (is_load : bool) (r_base displacement r operand : Z) : Prop :=
  exists opcode,
    addressing_form opcode = Some form /\
    let lir :=
      annotated r_base displacement is_load (Is64Bit r)
        (new_lir cg opcode (GetReg r) (GetReg r_base) operand 0) in
    run cg = Some (lir, with_lirs cg (lir_list cg ++ [lir])).

(** Running [run] in the state [cg] takes the first free temporary, a
    core register, emits what [LoadConstant] emits to load it with the
    displacement, then one register-offset access through it, and frees
    it: in the state [run] ends in, the temporary is in the pool, not in
    use, and the next [AllocTemp] returns it. *)
Definition emits_scratch_sequence (run : M Codegen LIR) (cg : Codegen)
    (is_load : bool) (r_base displacement r : Z) : Prop :=
  forall r_scratch ts',
    take_free (temps cg) = Some (r_scratch, ts') ->
    IsFloat r_scratch = false ->
    GetReg r_scratch <> rwsp -> GetReg r_scratch <> rwzr ->
    exists materialize opcode ts'',
      In (mkRegisterInfo r_scratch false) (temps cg) /\
      (exists res,
         LoadConstant r_scratch displacement (with_temps cg ts')
         = Some (res, with_lirs (with_temps cg ts') (lir_list cg ++ materialize))) /\
      addressing_form opcode = Some RegisterOffset /\
      let lir :=
        annotated r_base displacement is_load (Is64Bit r)
          (new_lir cg opcode (GetReg r) (GetReg r_base) (GetReg r_scratch) 0) in
      let cg' :=
        with_temps (with_lirs cg (lir_list cg ++ materialize ++ [lir])) ts'' in
      run cg = Some (lir, cg') /\
      In (mkRegisterInfo r_scratch false) ts'' /\
      temp_is_free ts'' r_scratch /\
      exists cg'', AllocTemp cg' = Some (r_scratch, cg'').

End Codegen.

Arguments mkLIR {literal}.
Arguments mkCodegen {literal_pool literal}.
Arguments lir_list {literal_pool literal}.
Arguments literal_list_ {literal_pool literal}.
Arguments current_dalvik_offset_ {literal_pool literal}.
Arguments temps {literal_pool literal}.
Arguments opcode {literal}.
Arguments operands {literal}.
Arguments with_lirs {literal_pool literal}.
Arguments with_temps {literal_pool literal}.
Arguments new_lir {literal_pool literal}.
Arguments annotated rs_rA64_SP {literal}.

(** *** A target for the examples

    Registers 0 to 30 are the core registers, 31 is the zero register and
    32 the stack pointer; registers from 64 are single floating-point
    registers and those from 128 double ones.  The literal pool is the
    list of its values. *)
Definition example_IsFloat (r : Z) : bool := 64 <=? r.
Definition example_IsDouble (r : Z) : bool := 128 <=? r.
Definition example_IsSingle (r : Z) : bool := (64 <=? r) && (r <? 128).
Definition example_Is64Bit (r : Z) : bool := 128 <=? r.
Definition example_ScanLiteralPool (pool : list Z) (value delta : Z) : option nat :=
  list_find (fun v => v = value) pool ≫= fun p => Some (fst p).
Definition example_AddWordData (pool : list Z) (value : Z) : nat * list Z :=
  (length pool, pool ++ [value]).
Definition example_Codegen (ts : list RegisterInfo) : @Codegen (list Z) nat :=
  mkCodegen [] [] 0 ts.

(** *** The predicates and the small encoders of utility_arm64.cc *)

(** [bool Arm64Mir2Lir::InexpensiveConstantInt(int32_t value)] *)
Definition InexpensiveConstantInt (value : Z) : bool := false.

(** [bool Arm64Mir2Lir::InexpensiveConstantFloat(int32_t value)]; the
    call of [EncodeImmSingle] converts [value] to [uint32_t]. *)
Definition InexpensiveConstantFloat (value : Z) : bool :=
  0 <=? EncodeImmSingle (u32 value).

(** [bool Arm64Mir2Lir::InexpensiveConstantLong(int64_t value)] *)
Definition InexpensiveConstantLong (value : Z) : bool :=
  InexpensiveConstantInt (High32Bits value)
  && InexpensiveConstantInt (Low32Bits value).

(** [bool Arm64Mir2Lir::InexpensiveConstantDouble(int64_t value)]; the
    call of [EncodeImmDouble] converts [value] to [uint64_t]. *)
Definition InexpensiveConstantDouble (value : Z) : bool :=
  0 <=? EncodeImmDouble (u64 value).

(** [int Arm64Mir2Lir::EncodeShift(int shift_type, int amount)] *)
Definition EncodeShift (shift_type amount : Z) : Z :=
  Z.lor (Z.shiftl (Z.land shift_type 0x3) 7) (Z.land amount 0x1f).

(** [int Arm64Mir2Lir::EncodeExtend(int extend_type, int amount)] *)
Definition EncodeExtend (extend_type amount : Z) : Z :=
  Z.lor (Z.lor (Z.shiftl 1 6) (Z.shiftl (Z.land extend_type 0x7) 3))
        (Z.land amount 0x7).

(** [bool Arm64Mir2Lir::IsExtendEncoding(int encoded_value)] *)
Definition IsExtendEncoding (encoded_value : Z) : bool :=
  negb (Z.land (Z.shiftl 1 6) encoded_value =? 0).

(** *** Vocabulary of the statements on the encoders *)

(** The bit pattern an 8-bit floating-point immediate [abcdefgh] stands
    for, as the comment of [EncodeImmSingle] gives it:
    [aBbb.bbbc.defg.h000.0000.0000.0000.0000] with [B = not(b)]. *)
Definition ExpandImmSingle (imm8 : Z) : Z :=
  let a := Z.land (Z.shiftr imm8 7) 1 in
  let b := Z.land (Z.shiftr imm8 6) 1 in
  let cdefgh := Z.land imm8 0x3f in
  Z.shiftl a 31 + Z.shiftl (1 - b) 30 + Z.shiftl (b * 0x1f) 25
  + Z.shiftl cdefgh 19.

(** The same for a double, as the comment of [EncodeImmDouble] gives it:
    [aBbb.bbbb.bbcd.efgh] followed by 48 zeros. *)
Definition ExpandImmDouble (imm8 : Z) : Z :=
  let a := Z.land (Z.shiftr imm8 7) 1 in
  let b := Z.land (Z.shiftr imm8 6) 1 in
  let cdefgh := Z.land imm8 0x3f in
  Z.shiftl a 63 + Z.shiftl (1 - b) 62 + Z.shiftl (b * 0xff) 54
  + Z.shiftl cdefgh 48.

(** The value a 32-bit register holds after one of the instructions
    [LoadConstantNoClobber] emits, from the value [old] it held before, as
    the A64 instruction set defines them: a move and an inverted move of
    the zero register, [movz], [movn] and [movk] of a 16-bit immediate at
    the half-word [op2], and [orr] of the zero register with a logical
    immediate.  An immediate is read through its 16-bit field.  [None]
    for any other instruction. *)
Definition move_effect {literal} (rwzr : Z) (lir : LIR literal) (old : Z)
    : option Z :=
  let '(_, op1, op2, _, _) := operands lir in
  match opcode lir with
  | Op kA64Mov2rr => if op1 =? rwzr then Some 0 else None
  | Op kA64Mvn2rr => if op1 =? rwzr then Some (u32 (Z.lnot 0)) else None
  | Op kA64Movz3rdM => Some (u32 (Z.shiftl (u16 op1) (16 * op2)))
  | Op kA64Movn3rdM => Some (u32 (Z.lnot (Z.shiftl (u16 op1) (16 * op2))))
  | Op kA64Movk3rdM =>
    Some (Z.lor (Z.land old (u32 (Z.lnot (Z.shiftl 0xffff (16 * op2)))))
                (u32 (Z.shiftl (u16 op1) (16 * op2))))
  | Op kA64Orr3Rrl =>
    if op1 =? rwzr then DecodeLogicalImmediate false op2 else None
  | _ => None
  end.

(** The instructions of a list, one after the other. *)
Fixpoint moves_effect {literal} (rwzr : Z) (lirs : list (LIR literal)) (old : Z)
    : option Z :=
  match lirs with
  | [] => Some old
  | lir :: lirs' =>
    match move_effect rwzr lir old with
    | Some new => moves_effect rwzr lirs' new
    | None => None
    end
  end.

(** The destination of an instruction: its first operand. *)
Definition destination {literal} (lir : LIR literal) : Z :=
  let '(op0, _, _, _, _) := operands lir in op0.

End Arm64.

Module Liveness.

(** ** ssa_liveness_analysis.h

    Lifetime positions are [size_t]; no arithmetic is done on them, so
    they are integers, non-negative in a well-formed interval. *)

(** Modelled from the spec: [kNoLifetime], declared in nodes.h, which is
    not among the sources, is the "no intersection" sentinel, [size_t]
    [-1]; no lifetime position takes that value. *)
Definition kNoLifetime : Z := -1.

(** What the liveness classes read of an [HBasicBlock] and of an
    [HInstruction] of nodes.h. *)
Record HBasicBlock : Type := mkHBasicBlock {
  GetLifetimeStart : Z;
  GetLifetimeEnd : Z
}.

Record HInstruction : Type := mkHInstruction {
  GetLifetimePosition : Z;
  GetBlock : HBasicBlock;
  IsPhi : bool;
  NeedsEnvironment : bool
}.

(** A [LiveRange] without its [next_] link: a chain of ranges is the list
    of its nodes, the [next_] of a node is the rest of the list, and
    [nullptr] is the empty list. *)
Record LiveRange : Type := mkLiveRange {
  start_ : Z;
  end_ : Z
}.

(** The constructor of [LiveRange], with its two DCHECKs. *)
Definition new_LiveRange (start end' : Z) (next : list LiveRange)
    : option (list LiveRange) :=
  if (start <? end')
     && match next with
        | [] => true
        | n :: _ => end' <? start_ n
        end
  then Some (mkLiveRange start end' :: next)
  else None.

Definition IntersectsWith (this other : LiveRange) : bool :=
  ((start_ other <=? start_ this) && (start_ this <? end_ other))
  || ((start_ this <=? start_ other) && (start_ other <? end_ this)).

Definition IsBefore (this other : LiveRange) : bool :=
  end_ this <=? start_ other.

(** A [UsePosition]; the chain of uses is a list as well. *)
Record UsePosition : Type := mkUsePosition {
  user_ : HInstruction;
  position_ : Z
}.

(** The constructor of [UsePosition], with its two DCHECKs. *)
Definition new_UsePosition (user : HInstruction) (position : Z)
    (next : list UsePosition) : option (list UsePosition) :=
  if (IsPhi user || (position =? GetLifetimePosition user))
     && match next with
        | [] => true
        | n :: _ => position <=? position_ n
        end
  then Some (mkUsePosition user position :: next)
  else None.

(** A [LiveInterval].  [first_range_] is the chain of ranges and
    [first_use_] the chain of uses; [next_sibling_] is the place of the
    sibling among the intervals of the value; [register_] is [-1] for
    [kNoRegister].  [last_range_] always points to the last node of the
    chain of ranges, every method that relinks the chain sets it so; it
    is read off the chain. *)
Record LiveInterval : Type := mkLiveInterval {
  first_range_ : list LiveRange;
  first_use_ : list UsePosition;
  next_sibling_ : option nat;
  register_ : Z
}.

Definition kNoRegister : Z := -1.

Definition last_range_ (this : LiveInterval) : option LiveRange :=
  last (first_range_ this).

Definition new_LiveInterval : LiveInterval :=
  mkLiveInterval [] [] None kNoRegister.

Definition set_first_range (ranges : list LiveRange) (this : LiveInterval)
    : LiveInterval :=
  mkLiveInterval ranges (first_use_ this) (next_sibling_ this) (register_ this).

Definition set_first_use (uses : list UsePosition) (this : LiveInterval)
    : LiveInterval :=
  mkLiveInterval (first_range_ this) uses (next_sibling_ this) (register_ this).

(** [first_range_->start_ = start] *)
Definition set_first_start (start : Z) (ranges : list LiveRange)
    : list LiveRange :=
  match ranges with
  | [] => []
  | first :: next => mkLiveRange start (end_ first) :: next
  end.

(** [void AddUse(HInstruction* instruction)] *)
Definition AddUse (instruction : HInstruction) (this : LiveInterval)
    : option LiveInterval :=
  let position := GetLifetimePosition instruction in
  let start_block_position := GetLifetimeStart (GetBlock instruction) in
  let end_block_position := GetLifetimeEnd (GetBlock instruction) in
  ranges ←
    match first_range_ this with
    | [] => new_LiveRange start_block_position position []
    | first :: _ =>
      if start_ first =? start_block_position then
        if position <=? end_ first then Some (first_range_ this) else None
      else if start_ first =? end_block_position then
        Some (set_first_start start_block_position (first_range_ this))
      else new_LiveRange start_block_position position (first_range_ this)
    end;
  uses ← new_UsePosition instruction position (first_use_ this);
  Some (set_first_use uses (set_first_range ranges this)).

(** [void AddPhiUse(HInstruction* instruction, HBasicBlock* block)] *)
Definition AddPhiUse (instruction : HInstruction) (block : HBasicBlock)
    (this : LiveInterval) : option LiveInterval :=
  if IsPhi instruction then
    uses ← new_UsePosition instruction (GetLifetimeEnd block) (first_use_ this);
    Some (set_first_use uses this)
  else None.

(** [void AddRange(size_t start, size_t end)] *)
Definition AddRange (start end' : Z) (this : LiveInterval)
    : option LiveInterval :=
  ranges ←
    match first_range_ this with
    | [] => new_LiveRange start end' []
    | first :: _ =>
      if start_ first =? end' then
        Some (set_first_start start (first_range_ this))
      else new_LiveRange start end' (first_range_ this)
    end;
  Some (set_first_range ranges this).

(** The [while] loop of [AddLoopRange]: the ranges that end before [end]
    are unlinked, each under the DCHECK that it starts at or after
    [start]. *)
Fixpoint drop_loop_ranges (start end' : Z) (ranges : list LiveRange)
    : option (list LiveRange) :=
  match ranges with
  | [] => Some []
  | first :: next =>
    if end_ first <? end' then
      if start <=? start_ first then drop_loop_ranges start end' next
      else None
    else Some ranges
  end.

(** [void AddLoopRange(size_t start, size_t end)] *)
Definition AddLoopRange (start end' : Z) (this : LiveInterval)
    : option LiveInterval :=
  match first_range_ this with
  | [] => None
  | _ =>
    rest ← drop_loop_ranges start end' (first_range_ this);
    ranges ←
      match rest with
      | [] => new_LiveRange start end' []
      | _ => Some (set_first_start start rest)
      end;
    Some (set_first_range ranges this)
  end.

(** [void SetFrom(size_t from)] *)
Definition SetFrom (from : Z) (this : LiveInterval) : option LiveInterval :=
  match first_range_ this with
  | [] => None
  | _ => Some (set_first_range (set_first_start from (first_range_ this)) this)
  end.

(** [size_t GetStart() const]; dereferences [first_range_]. *)
Definition GetStart (this : LiveInterval) : option Z :=
  match first_range_ this with
  | [] => None
  | first :: _ => Some (start_ first)
  end.

(** [bool IsDeadAt(size_t position)]; dereferences [last_range_]. *)
Definition IsDeadAt (position : Z) (this : LiveInterval) : option bool :=
  last ← last_range_ this;
  Some (end_ last <=? position).

(** The loop of [Covers], from the range [current]. *)
Fixpoint covers_from (position : Z) (current : list LiveRange) : bool :=
  match current with
  | [] => false
  | c :: next =>
    if (start_ c <=? position) && (position <? end_ c) then true
    else covers_from position next
  end.

(** [bool Covers(size_t position)] *)
Definition Covers (position : Z) (this : LiveInterval) : bool :=
  covers_from position (first_range_ this).

(** The first loop of [FirstIntersectionWith]: move to the range of this
    interval that starts at or after [other_start]. *)
Fixpoint move_to_start (other_start : Z) (my_range : list LiveRange)
    : list LiveRange :=
  match my_range with
  | [] => []
  | r :: next =>
    if other_start <=? start_ r then my_range
    else move_to_start other_start next
  end.

(** The [do ... while (true)] loop of [FirstIntersectionWith]; both
    chains are dereferenced on entry. *)
Fixpoint advance_both (my_range : list LiveRange)
    : list LiveRange -> option Z :=
  fix advance_other (other_range : list LiveRange) : option Z :=
    match my_range, other_range with
    | my :: my_next, other :: other_next =>
      if IntersectsWith my other then
        Some (Z.max (start_ my) (start_ other))
      else if IsBefore my other then
        match my_next with
        | [] => Some kNoLifetime
        | _ => advance_both my_next other_range
        end
      else if IsBefore other my then
        match other_next with
        | [] => Some kNoLifetime
        | _ => advance_other other_next
        end
      else None
    | _, _ => None
    end.

(** [size_t FirstIntersectionWith(LiveInterval* other)] *)
Definition FirstIntersectionWith (this other : LiveInterval) : option Z :=
  other_start ← GetStart other;
  my_start ← GetStart this;
  if negb (Covers other_start this) && (my_start <=? other_start) then
    match move_to_start other_start (first_range_ this) with
    | [] => Some kNoLifetime
    | my_range => advance_both my_range (first_range_ other)
    end
  else None.

(** The loop of [FirstRegisterUseAfter]. *)
Fixpoint first_register_use_from (position : Z) (use : list UsePosition) : Z :=
  match use with
  | [] => kNoLifetime
  | u :: next =>
    if (position <=? position_ u) && negb (NeedsEnvironment (user_ u))
    then position_ u
    else first_register_use_from position next
  end.

(** [size_t FirstRegisterUseAfter(size_t position) const] *)
Definition FirstRegisterUseAfter (position : Z) (this : LiveInterval) : Z :=
  first_register_use_from position (first_use_ this).

(** The [do ... while (current != nullptr)] loop of [SplitAt].  The
    result is the chain left to this interval and the chain of the new
    one; [previous] tells whether a range precedes [current].  Running
    off the chain reaches LOG(FATAL). *)
Fixpoint split_ranges (position : Z) (previous : bool)
    (current : list LiveRange) : option (list LiveRange * list LiveRange) :=
  match current with
  | [] => None
  | c :: next =>
    if end_ c <=? position then
      '(mine, theirs) ← split_ranges position true next;
      Some (c :: mine, theirs)
    else if position <=? start_ c then
      if previous then Some ([], current) else None
    else
      last ← new_LiveRange (start_ c) position [];
      Some (last, mkLiveRange position (end_ c) :: next)
  end.

(** [LiveInterval* SplitAt(size_t position)]: the interval after the
    call and the new interval, or [None] for [nullptr].  [sibling] is
    where the new interval is allocated. *)
Definition SplitAt (position : Z) (sibling : nat) (this : LiveInterval)
    : option (LiveInterval * option LiveInterval) :=
  match next_sibling_ this with
  | Some _ => None
  | None =>
    start ← GetStart this;
    if start <? position then
      dead ← IsDeadAt position this;
      if (dead : bool) then Some (this, @None LiveInterval)
      else
        '(mine, theirs) ← split_ranges position false (first_range_ this);
        Some (mkLiveInterval mine (first_use_ this) (Some sibling) (register_ this),
              Some (mkLiveInterval theirs (first_use_ this) None kNoRegister))
    else None
  end.

(** [bool StartsBefore(LiveInterval* other) const] *)
Definition StartsBefore (this other : LiveInterval) : option bool :=
  a ← GetStart this; b ← GetStart other; Some (a <=? b).

(** [bool StartsAfter(LiveInterval* other) const] *)
Definition StartsAfter (this other : LiveInterval) : option bool :=
  a ← GetStart this; b ← GetStart other; Some (b <=? a).

(** *** Sequences of calls on the intervals of one value

    The intervals of a value, the first one and the siblings [SplitAt]
    allocates, in allocation order; a call names its receiver by its
    place. *)
Inductive Call : Type :=
| CallAddUse (instruction : HInstruction)
| CallAddRange (start end' : Z)
| CallAddLoopRange (start end' : Z)
| CallSetFrom (from : Z)
| CallSplitAt (position : Z).

Definition call (intervals : list LiveInterval) (receiver : nat) (c : Call)
    : option (list LiveInterval) :=
  this ← intervals !! receiver;
  match c with
  | CallAddUse instruction =>
    this' ← AddUse instruction this; Some (<[receiver := this']> intervals)
  | CallAddRange start end' =>
    this' ← AddRange start end' this; Some (<[receiver := this']> intervals)
  | CallAddLoopRange start end' =>
    this' ← AddLoopRange start end' this; Some (<[receiver := this']> intervals)
  | CallSetFrom from =>
    this' ← SetFrom from this; Some (<[receiver := this']> intervals)
  | CallSplitAt position =>
    '(this', new_interval) ← SplitAt position (length intervals) this;
    Some (<[receiver := this']> intervals
          ++ match new_interval with Some i => [i] | None => [] end)
  end.

Fixpoint calls (intervals : list LiveInterval) (cs : list (nat * Call))
    : option (list LiveInterval) :=
  match cs with
  | [] => Some intervals
  | (receiver, c) :: cs' =>
    intervals' ← call intervals receiver c; calls intervals' cs'
  end.

(** *** Vocabulary of the statements *)

(** [position] lies in the range. *)
Definition in_range (position : Z) (r : LiveRange) : Prop :=
  start_ r <= position < end_ r.

(** Every range of the chain is non-empty and ends before the next one
    starts. *)
Fixpoint ordered (ranges : list LiveRange) : Prop :=
  match ranges with
  | [] => True
  | r :: next =>
    start_ r < end_ r
    /\ match next with
       | [] => True
       | n :: _ => end_ r < start_ n
       end
    /\ ordered next
  end.

(** Any two ranges of the chain, the earlier one first: both non-empty,
    the first ends before the second starts. *)
Definition increasing_disjoint (ranges : list LiveRange) : Prop :=
  forall i j r1 r2, (i < j)%nat ->
    ranges !! i = Some r1 -> ranges !! j = Some r2 ->
    start_ r1 < end_ r1 /\ end_ r1 < start_ r2 /\ start_ r2 < end_ r2.

(** No position lies in two different ranges of the chain. *)
Definition pairwise_disjoint (ranges : list LiveRange) : Prop :=
  forall i j r1 r2 position, i <> j ->
    ranges !! i = Some r1 -> ranges !! j = Some r2 ->
    ~ (in_range position r1 /\ in_range position r2).

(** The start a call gives to a range lies below the end of that range. *)
Definition proper_call (intervals : list LiveInterval) (receiver : nat)
    (c : Call) : Prop :=
  match c with
  | CallAddUse instruction =>
    GetLifetimeStart (GetBlock instruction) < GetLifetimeEnd (GetBlock instruction)
  | CallAddRange start end' => start < end'
  | CallAddLoopRange start end' => start < end'
  | CallSetFrom from =>
    forall this first next, intervals !! receiver = Some this ->
      first_range_ this = first :: next -> from < end_ first
  | CallSplitAt _ => True
  end.

Fixpoint proper_calls (intervals : list LiveInterval) (cs : list (nat * Call))
    : Prop :=
  match cs with
  | [] => True
  | (receiver, c) :: cs' =>
    proper_call intervals receiver c
    /\ match call intervals receiver c with
       | Some intervals' => proper_calls intervals' cs'
       | None => True
       end
  end.

(** Every interval of the arena is well formed. *)
Definition all_ordered (intervals : list LiveInterval) : Prop :=
  Forall (fun iv => ordered (first_range_ iv)) intervals.

(** What the sweep over both chains returns. *)
Definition first_intersection (my_range other_range : list LiveRange) (r : Z)
    : Prop :=
  (r = kNoLifetime /\
   forall a b, In a my_range -> In b other_range -> IntersectsWith a b = false)
  \/ (r <> kNoLifetime /\
      covers_from r my_range = true /\ covers_from r other_range = true /\
      forall q, covers_from q my_range = true ->
                covers_from q other_range = true -> r <= q).

(** *** The other members of [LiveInterval] *)

(** [size_t FirstRegisterUse() const]; [GetStart] dereferences
    [first_range_]. *)
Definition FirstRegisterUse (this : LiveInterval) : option Z :=
  start ← GetStart this; Some (FirstRegisterUseAfter start this).

(** [GetRegister], [SetRegister], [ClearRegister] and [HasRegister] *)
Definition GetRegister (this : LiveInterval) : Z := register_ this.

Definition SetRegister (reg : Z) (this : LiveInterval) : LiveInterval :=
  mkLiveInterval (first_range_ this) (first_use_ this) (next_sibling_ this) reg.

Definition ClearRegister (this : LiveInterval) : LiveInterval :=
  SetRegister kNoRegister this.

Definition HasRegister (this : LiveInterval) : bool :=
  negb (register_ this =? kNoRegister).

(** *** Vocabulary of the statements on uses *)

(** The positions of the chain of uses do not decrease: what the second
    DCHECK of the constructor of [UsePosition] asks of each new node. *)
Fixpoint sorted_uses (uses : list UsePosition) : Prop :=
  match uses with
  | [] => True
  | u :: next =>
    match next with
    | [] => True
    | n :: _ => position_ u <= position_ n
    end
    /\ sorted_uses next
  end.

(** A use at or after [position] by an instruction that needs no
    environment: the uses [FirstRegisterUseAfter] looks for. *)
Definition register_use_after (position : Z) (u : UsePosition) : Prop :=
  position <= position_ u /\ NeedsEnvironment (user_ u) = false.

End Liveness.

Module Builder.

(** ** builder.cc *)

(** The opcodes [AnalyzeDexInstruction] names; [UNLISTED] stands for
    every other enumerator of [Instruction::Code]. *)
Inductive Code : Type :=
| CONST_4 | CONST_16 | MOVE | RETURN_VOID | IF_EQ | IF_NE
| GOTO | GOTO_16 | GOTO_32 | RETURN | RETURN_OBJECT
| INVOKE_STATIC | INVOKE_DIRECT | INVOKE_STATIC_RANGE | INVOKE_DIRECT_RANGE
| ADD_INT | SUB_INT | ADD_INT_2ADDR | SUB_INT_2ADDR
| ADD_INT_LIT16 | RSUB_INT | ADD_INT_LIT8 | RSUB_INT_LIT8
| NEW_INSTANCE | NOP
| UNLISTED (raw : Z).

(** What the builder reads of a decoded [Instruction] of
    dex_instruction.h.  The accessors specific to a format ([VRegB_11n],
    [VRegC_22s], [VRegA_35c], ...) are the accessors [VRegA], [VRegB] and
    [VRegC] on an instruction of that format. *)
Record Instruction : Type := mkInstruction {
  Opcode : Code;
  SizeInCodeUnits : Z;
  IsBranch : bool;
  GetTargetOffset : Z;
  VRegA : Z;
  VRegB : Z;
  VRegC : Z;
  GetArgs : list Z
}.

(** [DexFile::CodeItem]; [insns_] is the instruction stream, decoded, in
    address order. *)
Record CodeItem : Type := mkCodeItem {
  registers_size_ : Z;
  ins_size_ : Z;
  outs_size_ : Z;
  tries_size_ : Z;
  insns_size_in_code_units_ : Z;
  insns_ : list Instruction
}.

(** [DexCompilationUnit] *)
Record DexCompilationUnit : Type := mkDexCompilationUnit {
  GetShorty : list Z;
  IsStatic : bool
}.

(** The nodes of nodes.h the builder creates.  A node refers to another
    by its place in the arena. *)
Inductive HInstruction : Type :=
| HLocal (reg_number : Z)
| HParameterValue (index : Z)
| HStoreLocal (local value : nat)
| HLoadLocal (local : nat)
| HIntConstant (value : Z)
| HAdd (first second : nat)
| HSub (first second : nat)
| HEqual (first second : nat)
| HNot (input : nat)
| HIf (input : nat)
| HGoto
| HReturnVoid
| HReturn (value : nat)
| HExit
| HInvokeStatic (number_of_arguments dex_offset method_idx : Z)
                (arguments : list (option nat))
| HPushArgument (argument : nat) (index : Z)
| HNewInstance (dex_offset type_index : Z).

Record HBasicBlock : Type := mkHBasicBlock {
  instructions_ : list nat;
  successors_ : list nat;
  block_id_ : Z
}.

Record HGraph : Type := mkHGraph {
  blocks_ : list nat;
  graph_entry_block_ : option nat;
  graph_exit_block_ : option nat;
  number_of_vregs_ : Z;
  number_of_in_vregs_ : Z;
  maximum_number_of_out_vregs_ : Z
}.

(** The arena and the members of [HGraphBuilder]. *)
Record HGraphBuilder : Type := mkHGraphBuilder {
  arena_instructions : list HInstruction;
  arena_blocks : list HBasicBlock;
  graph_ : HGraph;
  entry_block_ : nat;
  exit_block_ : nat;
  current_block_ : option nat;
  branch_targets_ : list (option nat);
  locals_ : list (option nat);
  constant0_ : option nat;
  constant1_ : option nat
}.

Definition new_HGraphBuilder : HGraphBuilder :=
  mkHGraphBuilder [] [] (mkHGraph [] None None 0 0 0) 0 0 None [] [] None None.

Section Build.

(** The members [dex_compilation_unit_] (null when unit testing) and
    [dex_file_]; of the latter, the first character of the descriptor of
    the return type of a method. *)
Variable dex_compilation_unit_ : option DexCompilationUnit.
Variable return_type_descriptor : Z -> Z.

(** The characters the builder compares with. *)
Definition char_F : Z := 70.
Definition char_D : Z := 68.
Definition char_J : Z := 74.
Definition char_V : Z := 86.

Local Open Scope m_scope.

Definition B (A : Type) : Type := M HGraphBuilder A.

(** *** The arena, the blocks and the graph *)

Definition set_arena_instructions (l : list HInstruction) (b : HGraphBuilder) :=
  mkHGraphBuilder l (arena_blocks b) (graph_ b) (entry_block_ b) (exit_block_ b)
    (current_block_ b) (branch_targets_ b) (locals_ b) (constant0_ b) (constant1_ b).
Definition set_arena_blocks (l : list HBasicBlock) (b : HGraphBuilder) :=
  mkHGraphBuilder (arena_instructions b) l (graph_ b) (entry_block_ b) (exit_block_ b)
    (current_block_ b) (branch_targets_ b) (locals_ b) (constant0_ b) (constant1_ b).
Definition set_graph (g : HGraph) (b : HGraphBuilder) :=
  mkHGraphBuilder (arena_instructions b) (arena_blocks b) g (entry_block_ b)
    (exit_block_ b) (current_block_ b) (branch_targets_ b) (locals_ b)
    (constant0_ b) (constant1_ b).
Definition set_entry_block (e : nat) (b : HGraphBuilder) :=
  mkHGraphBuilder (arena_instructions b) (arena_blocks b) (graph_ b) e
    (exit_block_ b) (current_block_ b) (branch_targets_ b) (locals_ b)
    (constant0_ b) (constant1_ b).
Definition set_exit_block (e : nat) (b : HGraphBuilder) :=
  mkHGraphBuilder (arena_instructions b) (arena_blocks b) (graph_ b) (entry_block_ b)
    e (current_block_ b) (branch_targets_ b) (locals_ b) (constant0_ b) (constant1_ b).
Definition set_current_block (c : option nat) (b : HGraphBuilder) :=
  mkHGraphBuilder (arena_instructions b) (arena_blocks b) (graph_ b) (entry_block_ b)
    (exit_block_ b) c (branch_targets_ b) (locals_ b) (constant0_ b) (constant1_ b).
Definition set_branch_targets (t : list (option nat)) (b : HGraphBuilder) :=
  mkHGraphBuilder (arena_instructions b) (arena_blocks b) (graph_ b) (entry_block_ b)
    (exit_block_ b) (current_block_ b) t (locals_ b) (constant0_ b) (constant1_ b).
Definition set_locals (l : list (option nat)) (b : HGraphBuilder) :=
  mkHGraphBuilder (arena_instructions b) (arena_blocks b) (graph_ b) (entry_block_ b)
    (exit_block_ b) (current_block_ b) (branch_targets_ b) l (constant0_ b)
    (constant1_ b).
Definition set_constant0 (c : option nat) (b : HGraphBuilder) :=
  mkHGraphBuilder (arena_instructions b) (arena_blocks b) (graph_ b) (entry_block_ b)
    (exit_block_ b) (current_block_ b) (branch_targets_ b) (locals_ b) c
    (constant1_ b).
Definition set_constant1 (c : option nat) (b : HGraphBuilder) :=
  mkHGraphBuilder (arena_instructions b) (arena_blocks b) (graph_ b) (entry_block_ b)
    (exit_block_ b) (current_block_ b) (branch_targets_ b) (locals_ b)
    (constant0_ b) c.

(** [new (arena_) H...(...)] *)
Definition new_instruction (i : HInstruction) : B nat :=
  let* arena := gets arena_instructions in
  modify (set_arena_instructions (arena ++ [i])) ;;
  ret (length arena).

(** [new (arena_) HBasicBlock(graph_)] *)
Definition new_HBasicBlock : B nat :=
  let* arena := gets arena_blocks in
  modify (set_arena_blocks (arena ++ [mkHBasicBlock [] [] (-1)])) ;;
  ret (length arena).

Definition update_block (block : nat) (f : HBasicBlock -> HBasicBlock) : B unit :=
  let* arena := gets arena_blocks in
  match arena !! block with
  | Some b => modify (set_arena_blocks (<[block := f b]> arena))
  | None => abort
  end.

(** [block->AddInstruction(instruction)] *)
Definition AddInstruction (block instruction : nat) : B unit :=
  update_block block (fun b =>
    mkHBasicBlock (instructions_ b ++ [instruction]) (successors_ b) (block_id_ b)).

(** [block->AddSuccessor(successor)] *)
Definition AddSuccessor (block successor : nat) : B unit :=
  update_block block (fun b =>
    mkHBasicBlock (instructions_ b) (successors_ b ++ [successor]) (block_id_ b)).

(** [block->GetLastInstruction()] *)
Definition GetLastInstruction (block : nat) : B nat :=
  let* arena := gets arena_blocks in
  match arena !! block with
  | Some b => match last (instructions_ b) with
              | Some i => ret i
              | None => abort
              end
  | None => abort
  end.

(** [graph_->AddBlock(block)]: the block takes the next id. *)
Definition AddBlock (block : nat) : B unit :=
  let* g := gets graph_ in
  update_block block (fun b =>
    mkHBasicBlock (instructions_ b) (successors_ b) (Z.of_nat (length (blocks_ g)))) ;;
  modify (set_graph
    (mkHGraph (blocks_ g ++ [block]) (graph_entry_block_ g) (graph_exit_block_ g)
              (number_of_vregs_ g) (number_of_in_vregs_ g)
              (maximum_number_of_out_vregs_ g))).

Definition update_graph (f : HGraph -> HGraph) : B unit :=
  let* g := gets graph_ in modify (set_graph (f g)).

(** [GrowableArray::Get] and [GrowableArray::Put], checked against the
    size of the array. *)
Definition Get {A} (array : list A) (index : Z) : B A :=
  if index <? 0 then abort
  else match array !! Z.to_nat index with
       | Some a => ret a
       | None => abort
       end.

Definition Put {A} (array : list A) (index : Z) (a : A) : B (list A) :=
  if (0 <=? index) && (index <? Z.of_nat (length array))
  then ret (<[Z.to_nat index := a]> array)
  else abort.

(** *** The builder *)

(** [HBasicBlock* HGraphBuilder::FindBlockStartingAt(int32_t index) const] *)
Definition FindBlockStartingAt (index : Z) : B (option nat) :=
  DCHECK (0 <=? index) ;;
  let* targets := gets branch_targets_ in
  Get targets index.

(** [HLocal* HGraphBuilder::GetLocalAt(int register_index) const] *)
Definition GetLocalAt (register_index : Z) : B nat :=
  let* locals := gets locals_ in
  let* local := Get locals register_index in
  match local with
  | Some l => ret l
  | None => abort
  end.

Definition current_block : B nat :=
  let* c := gets current_block_ in
  match c with
  | Some b => ret b
  | None => abort
  end.

(** [void HGraphBuilder::UpdateLocal(int register_index,
    HInstruction* instruction) const] *)
Definition UpdateLocal (register_index : Z) (instruction : nat) : B unit :=
  let* local := GetLocalAt register_index in
  let* block := current_block in
  let* store := new_instruction (HStoreLocal local instruction) in
  AddInstruction block store.

(** [HInstruction* HGraphBuilder::LoadLocal(int register_index) const] *)
Definition LoadLocal (register_index : Z) : B nat :=
  let* local := GetLocalAt register_index in
  let* block := current_block in
  let* load := new_instruction (HLoadLocal local) in
  AddInstruction block load ;;
  GetLastInstruction block.

(** [HIntConstant* HGraphBuilder::GetConstant0()] *)
Definition GetConstant0 : B nat :=
  let* c := gets constant0_ in
  match c with
  | Some constant => ret constant
  | None =>
    let* constant := new_instruction (HIntConstant 0) in
    modify (set_constant0 (Some constant)) ;;
    let* entry := gets entry_block_ in
    AddInstruction entry constant ;;
    ret constant
  end.

(** [HIntConstant* HGraphBuilder::GetConstant1()] *)
Definition GetConstant1 : B nat :=
  let* c := gets constant1_ in
  match c with
  | Some constant => ret constant
  | None =>
    let* constant := new_instruction (HIntConstant 1) in
    modify (set_constant1 (Some constant)) ;;
    let* entry := gets entry_block_ in
    AddInstruction entry constant ;;
    ret constant
  end.

(** [HIntConstant* HGraphBuilder::GetConstant(int constant)] *)
Definition GetConstant (constant : Z) : B nat :=
  if constant =? 0 then GetConstant0
  else if constant =? 1 then GetConstant1
  else
    let* instruction := new_instruction (HIntConstant constant) in
    let* entry := gets entry_block_ in
    AddInstruction entry instruction ;;
    ret instruction.

(** The loop of [InitializeLocals]. *)
Fixpoint initialize_locals_from (i : Z) (remaining : nat) : B unit :=
  match remaining with
  | O => ret tt
  | S remaining' =>
    let* local := new_instruction (HLocal i) in
    let* entry := gets entry_block_ in
    AddInstruction entry local ;;
    let* locals := gets locals_ in
    let* locals' := Put locals i (Some local) in
    modify (set_locals locals') ;;
    initialize_locals_from (i + 1) remaining'
  end.

(** [void HGraphBuilder::InitializeLocals(uint16_t count)] *)
Definition InitializeLocals (count : Z) : B unit :=
  update_graph (fun g =>
    mkHGraph (blocks_ g) (graph_entry_block_ g) (graph_exit_block_ g) count
             (number_of_in_vregs_ g) (maximum_number_of_out_vregs_ g)) ;;
  modify (set_locals (replicate (Z.to_nat count) None)) ;;
  initialize_locals_from 0 (Z.to_nat count).

(** [shorty[pos]] of a NUL-terminated string. *)
Definition shorty_at (shorty : list Z) (pos : Z) : B Z :=
  match shorty !! Z.to_nat pos with
  | Some c => ret c
  | None => if pos =? Z.of_nat (length shorty) then ret 0 else abort
  end.

(** One parameter: the [HParameterValue] and the store into its local. *)
Definition add_parameter (parameter_index locals_index : Z) : B unit :=
  let* parameter := new_instruction (HParameterValue parameter_index) in
  let* entry := gets entry_block_ in
  AddInstruction entry parameter ;;
  let* local := GetLocalAt locals_index in
  let* store := new_instruction (HStoreLocal local parameter) in
  AddInstruction entry store.

(** The [for] loop of [InitializeParameters]. *)
Fixpoint initialize_parameters_from (shorty : list Z) (remaining : nat)
    (pos locals_index parameter_index : Z) : B bool :=
  match remaining with
  | O => ret true
  | S remaining' =>
    let* c := shorty_at shorty pos in
    if (c =? char_F) || (c =? char_D) || (c =? char_J) then ret false
    else
      add_parameter parameter_index locals_index ;;
      initialize_parameters_from shorty remaining' (pos + 1) (locals_index + 1)
                                 (parameter_index + 1)
  end.

(** [bool HGraphBuilder::InitializeParameters(uint16_t number_of_parameters)] *)
Definition InitializeParameters (number_of_parameters : Z) : B bool :=
  match dex_compilation_unit_ with
  | None => ret true
  | Some unit =>
    update_graph (fun g =>
      mkHGraph (blocks_ g) (graph_entry_block_ g) (graph_exit_block_ g)
               (number_of_vregs_ g) number_of_parameters
               (maximum_number_of_out_vregs_ g)) ;;
    let shorty := GetShorty unit in
    let* locals := gets locals_ in
    let locals_index := Z.of_nat (length locals) - number_of_parameters in
    let parameter_index := 0 in
    if negb (IsStatic unit) then
      add_parameter parameter_index locals_index ;;
      initialize_parameters_from shorty (Z.to_nat (u16 (number_of_parameters - 1)))
                                 1 (locals_index + 1) (parameter_index + 1)
    else
      initialize_parameters_from shorty (Z.to_nat number_of_parameters)
                                 1 locals_index parameter_index
  end.

(** [static bool CanHandleCodeItem(const DexFile::CodeItem& code_item)] *)
Definition CanHandleCodeItem (code_item : CodeItem) : bool :=
  if 0 <? tries_size_ code_item then false else true.

(** [template<typename T> void HGraphBuilder::If_22t(...)]; [T] is the
    class of the comparison. *)
Definition If_22t (T : nat -> nat -> HInstruction) (instruction : Instruction)
    (dex_offset : Z) (is_not : bool) : B unit :=
  let* first := LoadLocal (VRegA instruction) in
  let* second := LoadLocal (VRegB instruction) in
  let* block := current_block in
  let* comparison := new_instruction (T first second) in
  AddInstruction block comparison ;;
  (if is_not then
     let* last := GetLastInstruction block in
     let* not := new_instruction (HNot last) in
     AddInstruction block not
   else ret tt) ;;
  let* last := GetLastInstruction block in
  let* if_ := new_instruction (HIf last) in
  AddInstruction block if_ ;;
  let* target := FindBlockStartingAt (GetTargetOffset instruction + dex_offset) in
  match target with
  | None => abort
  | Some target =>
    AddSuccessor block target ;;
    let* target := FindBlockStartingAt (dex_offset + SizeInCodeUnits instruction) in
    match target with
    | None => abort
    | Some target =>
      AddSuccessor block target ;;
      modify (set_current_block None)
    end
  end.

(** [void HGraphBuilder::MaybeUpdateCurrentBlock(size_t index)] *)
Definition MaybeUpdateCurrentBlock (index : Z) : B unit :=
  let* block := FindBlockStartingAt index in
  match block with
  | None => ret tt
  | Some block =>
    let* current := gets current_block_ in
    match current with
    | Some current =>
      let* goto := new_instruction HGoto in
      AddInstruction current goto ;;
      AddSuccessor current block
    | None => ret tt
    end ;;
    AddBlock block ;;
    modify (set_current_block (Some block))
  end.

(** [branch_targets_.Put(index, block)] *)
Definition put_branch_target (index : Z) (block : nat) : B unit :=
  let* targets := gets branch_targets_ in
  let* targets' := Put targets index (Some block) in
  modify (set_branch_targets targets').

(** The [while] loop of [ComputeBranchTargets]; [code_ptr < code_end] is
    [dex_offset < size], and the instruction at [code_ptr] is the head of
    [insns]. *)
Fixpoint compute_branch_targets_from (size : Z) (insns : list Instruction)
    (dex_offset : Z) : B unit :=
  if dex_offset <? size then
    match insns with
    | [] => abort
    | instruction :: insns' =>
      if IsBranch instruction then
        let target := GetTargetOffset instruction + dex_offset in
        let* found := FindBlockStartingAt target in
        match found with
        | None =>
          let* block := new_HBasicBlock in put_branch_target target block
        | Some _ => ret tt
        end ;;
        let dex_offset := dex_offset + SizeInCodeUnits instruction in
        (if dex_offset <? size then
           let* found := FindBlockStartingAt dex_offset in
           match found with
           | None =>
             let* block := new_HBasicBlock in put_branch_target dex_offset block
           | Some _ => ret tt
           end
         else ret tt) ;;
        compute_branch_targets_from size insns' dex_offset
      else
        compute_branch_targets_from size insns'
          (dex_offset + SizeInCodeUnits instruction)
    end
  else ret tt.

(** [void HGraphBuilder::ComputeBranchTargets(const uint16_t* code_ptr,
    const uint16_t* code_end)] *)
Definition ComputeBranchTargets (code_item : CodeItem) : B unit :=
  let size := insns_size_in_code_units_ code_item in
  modify (set_branch_targets (replicate (Z.to_nat size) None)) ;;
  let* block := new_HBasicBlock in
  put_branch_target 0 block ;;
  let* entry := gets entry_block_ in
  AddSuccessor entry block ;;
  compute_branch_targets_from size (insns_ code_item) 0.

(** [template<typename T> void HGraphBuilder::Binop_32x(...)] *)
Definition Binop_32x (T : nat -> nat -> HInstruction) (instruction : Instruction)
    : B unit :=
  let* first := LoadLocal (VRegB instruction) in
  let* second := LoadLocal (VRegC instruction) in
  let* block := current_block in
  let* op := new_instruction (T first second) in
  AddInstruction block op ;;
  let* last := GetLastInstruction block in
  UpdateLocal (VRegA instruction) last.

(** [template<typename T> void HGraphBuilder::Binop_12x(...)] *)
Definition Binop_12x (T : nat -> nat -> HInstruction) (instruction : Instruction)
    : B unit :=
  let* first := LoadLocal (VRegA instruction) in
  let* second := LoadLocal (VRegB instruction) in
  let* block := current_block in
  let* op := new_instruction (T first second) in
  AddInstruction block op ;;
  let* last := GetLastInstruction block in
  UpdateLocal (VRegA instruction) last.

(** [template<typename T> void HGraphBuilder::Binop_22s(...)] and
    [Binop_22b], which differ by the accessor of the literal. *)
Definition Binop_22s (T : nat -> nat -> HInstruction) (instruction : Instruction)
    (reverse : bool) : B unit :=
  let* first := LoadLocal (VRegB instruction) in
  let* second := GetConstant (VRegC instruction) in
  let '(first, second) := if reverse then (second, first) else (first, second) in
  let* block := current_block in
  let* op := new_instruction (T first second) in
  AddInstruction block op ;;
  let* last := GetLastInstruction block in
  UpdateLocal (VRegA instruction) last.

Definition Binop_22b := Binop_22s.

(** The [for] loops that push the arguments of an invoke. *)
Fixpoint push_arguments (invoke : nat) (registers : list Z) (i : Z) : B unit :=
  match registers with
  | [] => ret tt
  | register :: registers' =>
    let* arg := LoadLocal register in
    let* push := new_instruction (HPushArgument arg i) in
    let* block := current_block in
    AddInstruction block push ;;
    let* arena := gets arena_instructions in
    match arena !! invoke with
    | Some (HInvokeStatic n offset method arguments) =>
      if i <? Z.of_nat (length arguments) then
        modify (set_arena_instructions
                  (<[invoke := HInvokeStatic n offset method
                                 (<[Z.to_nat i := Some push]> arguments)]> arena))
      else abort
    | _ => abort
    end ;;
    push_arguments invoke registers' (i + 1)
  end.

(** The two invoke cases of [AnalyzeDexInstruction]: [registers] are the
    registers of the arguments. *)
Definition analyze_invoke (method_idx number_of_arguments dex_offset : Z)
    (registers : list Z) : B bool :=
  if negb (return_type_descriptor method_idx =? char_V) then ret false
  else
    let* invoke :=
      new_instruction
        (HInvokeStatic number_of_arguments dex_offset method_idx
           (replicate (Z.to_nat number_of_arguments) None)) in
    push_arguments invoke registers 0 ;;
    let* block := current_block in
    AddInstruction block invoke ;;
    ret true.

(** [bool HGraphBuilder::AnalyzeDexInstruction(const Instruction& instruction,
    int32_t dex_offset)] *)
Definition AnalyzeDexInstruction (instruction : Instruction) (dex_offset : Z)
    : B bool :=
  let* current := gets current_block_ in
  match current with
  | None => ret true
  | Some block =>
    match Opcode instruction with
    | CONST_4 | CONST_16 =>
      let register_index := VRegA instruction in
      let* constant := GetConstant (VRegB instruction) in
      UpdateLocal register_index constant ;; ret true
    | MOVE =>
      let* value := LoadLocal (VRegB instruction) in
      UpdateLocal (VRegA instruction) value ;; ret true
    | RETURN_VOID =>
      let* i := new_instruction HReturnVoid in
      AddInstruction block i ;;
      let* exit := gets exit_block_ in
      AddSuccessor block exit ;;
      modify (set_current_block None) ;; ret true
    | IF_EQ => If_22t HEqual instruction dex_offset false ;; ret true
    | IF_NE => If_22t HEqual instruction dex_offset true ;; ret true
    | GOTO | GOTO_16 | GOTO_32 =>
      let* target := FindBlockStartingAt (GetTargetOffset instruction + dex_offset) in
      match target with
      | None => abort
      | Some target =>
        let* i := new_instruction HGoto in
        AddInstruction block i ;;
        AddSuccessor block target ;;
        modify (set_current_block None) ;; ret true
      end
    | RETURN | RETURN_OBJECT =>
      let* value := LoadLocal (VRegA instruction) in
      let* i := new_instruction (HReturn value) in
      AddInstruction block i ;;
      let* exit := gets exit_block_ in
      AddSuccessor block exit ;;
      modify (set_current_block None) ;; ret true
    | INVOKE_STATIC | INVOKE_DIRECT =>
      let number_of_arguments := VRegA instruction in
      analyze_invoke (VRegB instruction) number_of_arguments dex_offset
        (take (Z.to_nat number_of_arguments) (GetArgs instruction))
    | INVOKE_STATIC_RANGE | INVOKE_DIRECT_RANGE =>
      let number_of_arguments := VRegA instruction in
      let register_index := VRegC instruction in
      analyze_invoke (VRegB instruction) number_of_arguments dex_offset
        (map (fun i => register_index + Z.of_nat i)
             (seq 0 (Z.to_nat number_of_arguments)))
    | ADD_INT => Binop_32x HAdd instruction ;; ret true
    | SUB_INT => Binop_32x HSub instruction ;; ret true
    | ADD_INT_2ADDR => Binop_12x HAdd instruction ;; ret true
    | SUB_INT_2ADDR => Binop_12x HSub instruction ;; ret true
    | ADD_INT_LIT16 => Binop_22s HAdd instruction false ;; ret true
    | RSUB_INT => Binop_22s HSub instruction true ;; ret true
    | ADD_INT_LIT8 => Binop_22b HAdd instruction false ;; ret true
    | RSUB_INT_LIT8 => Binop_22b HSub instruction true ;; ret true
    | NEW_INSTANCE =>
      let* i := new_instruction (HNewInstance dex_offset (VRegB instruction)) in
      AddInstruction block i ;;
      let* last := GetLastInstruction block in
      UpdateLocal (VRegA instruction) last ;; ret true
    | NOP => ret true
    | UNLISTED _ => ret false
    end
  end.

(** The [while] loop of [BuildGraph]: [false] when an instruction makes
    it return [nullptr]. *)
Fixpoint analyze_from (size : Z) (insns : list Instruction) (dex_offset : Z)
    : B bool :=
  if dex_offset <? size then
    match insns with
    | [] => abort
    | instruction :: insns' =>
      MaybeUpdateCurrentBlock dex_offset ;;
      let* ok := AnalyzeDexInstruction instruction dex_offset in
      if ok then
        analyze_from size insns' (dex_offset + SizeInCodeUnits instruction)
      else ret false
    end
  else ret true.

(** [HGraph* HGraphBuilder::BuildGraph(const DexFile::CodeItem& code_item)]:
    [Some] of the graph, or [None] for [nullptr]. *)
Definition BuildGraph (code_item : CodeItem) : B (option HGraph) :=
  if negb (CanHandleCodeItem code_item) then ret None
  else
    modify (set_graph (mkHGraph [] None None 0 0 0)) ;;
    let* entry := new_HBasicBlock in
    modify (set_entry_block entry) ;;
    AddBlock entry ;;
    let* exit := new_HBasicBlock in
    modify (set_exit_block exit) ;;
    update_graph (fun g =>
      mkHGraph (blocks_ g) (Some entry) (Some exit) (number_of_vregs_ g)
               (number_of_in_vregs_ g) (maximum_number_of_out_vregs_ g)) ;;
    InitializeLocals (registers_size_ code_item) ;;
    update_graph (fun g =>
      mkHGraph (blocks_ g) (graph_entry_block_ g) (graph_exit_block_ g)
               (number_of_vregs_ g) (number_of_in_vregs_ g)
               (Z.max (maximum_number_of_out_vregs_ g) (outs_size_ code_item))) ;;
    ComputeBranchTargets code_item ;;
    let* ok := InitializeParameters (ins_size_ code_item) in
    if negb ok then ret None
    else
      let* ok := analyze_from (insns_size_in_code_units_ code_item)
                              (insns_ code_item) 0 in
      if negb ok then ret None
      else
        let* exit_block := gets exit_block_ in
        AddBlock exit_block ;;
        let* exit_instruction := new_instruction HExit in
        AddInstruction exit_block exit_instruction ;;
        let* entry_block := gets entry_block_ in
        let* goto := new_instruction HGoto in
        AddInstruction entry_block goto ;;
        let* g := gets graph_ in
        ret (Some g).

(** *** Vocabulary of the statements *)

(** The shorty characters of the parameter types the builder rejects. *)
Definition is_FDJ (c : Z) : bool :=
  (c =? char_F) || (c =? char_D) || (c =? char_J).

(** The declared parameters: the shorty without the return type. *)
Definition declared_parameters (unit : DexCompilationUnit) : list Z :=
  drop 1 (GetShorty unit).

(** The number of registers the parameters take: two for ['D'] and
    ['J'], one for the others. *)
Fixpoint parameter_registers (parameters : list Z) : Z :=
  match parameters with
  | [] => 0
  | c :: parameters' =>
    (if (c =? char_D) || (c =? char_J) then 2 else 1)
    + parameter_registers parameters'
  end.

(** The loop of [BuildGraph], run from [dex_offset] on [insns] in the
    state [st], comes to an instruction with no translation rule while a
    block is current. *)
Fixpoint meets_unlisted (size : Z) (insns : list Instruction) (dex_offset : Z)
    (st : HGraphBuilder) : Prop :=
  dex_offset < size /\
  match insns with
  | [] => False
  | instruction :: insns' =>
    match MaybeUpdateCurrentBlock dex_offset st with
    | Some (_, st1) =>
      (is_Some (current_block_ st1)
       /\ exists raw, Opcode instruction = UNLISTED raw)
      \/ match AnalyzeDexInstruction instruction dex_offset st1 with
         | Some (true, st2) =>
           meets_unlisted size insns' (dex_offset + SizeInCodeUnits instruction) st2
         | _ => False
         end
    | None => False
    end
  end.

(** From [dex_offset] to the end of the code no instruction starts a
    block: [FindBlockStartingAt] finds [nullptr] at each of them. *)
Fixpoint no_block_starts (size : Z) (insns : list Instruction) (dex_offset : Z)
    (targets : list (option nat)) : Prop :=
  dex_offset < size ->
  match insns with
  | [] => False
  | instruction :: insns' =>
    0 <= dex_offset
    /\ targets !! Z.to_nat dex_offset = Some None
    /\ no_block_starts size insns' (dex_offset + SizeInCodeUnits instruction) targets
  end.

(** The statements of [BuildGraph] that precede its loop; the result is
    that of [InitializeParameters]. *)
Definition BuildGraph_setup (code_item : CodeItem) : B bool :=
  modify (set_graph (mkHGraph [] None None 0 0 0)) ;;
  let* entry := new_HBasicBlock in
  modify (set_entry_block entry) ;;
  AddBlock entry ;;
  let* exit := new_HBasicBlock in
  modify (set_exit_block exit) ;;
  update_graph (fun g =>
    mkHGraph (blocks_ g) (Some entry) (Some exit) (number_of_vregs_ g)
             (number_of_in_vregs_ g) (maximum_number_of_out_vregs_ g)) ;;
  InitializeLocals (registers_size_ code_item) ;;
  update_graph (fun g =>
    mkHGraph (blocks_ g) (graph_entry_block_ g) (graph_exit_block_ g)
             (number_of_vregs_ g) (number_of_in_vregs_ g)
             (Z.max (maximum_number_of_out_vregs_ g) (outs_size_ code_item))) ;;
  ComputeBranchTargets code_item ;;
  InitializeParameters (ins_size_ code_item).

(** [BuildGraph] after its loop. *)
Definition BuildGraph_finish : B (option HGraph) :=
  (let* exit_block := gets exit_block_ in
   AddBlock exit_block ;;
   let* exit_instruction := new_instruction HExit in
   AddInstruction exit_block exit_instruction ;;
   let* entry_block := gets entry_block_ in
   let* goto := new_instruction HGoto in
   AddInstruction entry_block goto ;;
   let* g := gets graph_ in
   ret (Some g))%M.

(** *** Vocabulary of the statements on the builder *)

(** The opcodes whose translation ends the current block. *)
Definition ends_block (opcode : Code) : bool :=
  match opcode with
  | RETURN_VOID | IF_EQ | IF_NE | GOTO | GOTO_16 | GOTO_32
  | RETURN | RETURN_OBJECT => true
  | _ => false
  end.

(** A run of [c] leaves [field] of the builder as it was. *)
Definition keeps {A X : Type} (field : HGraphBuilder -> X) (c : B A) : Prop :=
  forall st a st', c st = Some (a, st') -> field st' = field st.

(** The node [i] of the arena. *)
Definition node (st : HGraphBuilder) (i : nat) : option HInstruction :=
  arena_instructions st !! i.

(** The last instruction of the block [block] of the arena. *)
Definition last_node (st : HGraphBuilder) (block : nat) : option HInstruction :=
  b ← arena_blocks st !! block;
  i ← last (instructions_ b);
  node st i.

(** The instructions that the loop of [ComputeBranchTargets] visits, each
    with the offset it is met at: the loop goes on while the offset is below
    [size]. *)
Fixpoint visited (size : Z) (insns : list Instruction) (dex_offset : Z)
    : list (Z * Instruction) :=
  match insns with
  | [] => []
  | instruction :: insns' =>
    if dex_offset <? size
    then (dex_offset, instruction)
           :: visited size insns' (dex_offset + SizeInCodeUnits instruction)
    else []
  end.

(** A block starts at the offset [index]. *)
Definition starts_block (st : HGraphBuilder) (index : Z) : Prop :=
  exists block, FindBlockStartingAt index st = Some (Some block, st).

(** The entry block is a block of the arena. *)
Definition entry_in_arena (st : HGraphBuilder) : Prop :=
  is_Some (arena_blocks st !! entry_block_ st).

End Build.

End Builder.

(** * Properties *)

Module Arm64Facts.
Import Arm64.

Lemma popcount_bitcount n x : popcount n x = bitcount (Z.testbit x) n.
Proof. induction n; simpl; congruence. Qed.

Lemma bitcount_bounds f n : 0 <= bitcount f n <= Z.of_nat n.
Proof.
  induction n; simpl bitcount; [lia|].
  destruct (f (Z.of_nat n)); simpl b2z; lia.
Qed.

Lemma bitcount_ext f g n :
  (forall i, 0 <= i < Z.of_nat n -> f i = g i) -> bitcount f n = bitcount g n.
Proof.
  induction n; intros H; simpl bitcount; [reflexivity|].
  rewrite H by lia. rewrite IHn; [reflexivity|]. intros; apply H; lia.
Qed.

Lemma bitcount_le f g n :
  (forall i, 0 <= i < Z.of_nat n -> f i = true -> g i = true) ->
  bitcount f n <= bitcount g n.
Proof.
  induction n; intros H; simpl bitcount; [lia|].
  assert (bitcount f n <= bitcount g n) by (apply IHn; intros; apply H; [lia|assumption]).
  specialize (H (Z.of_nat n)).
  destruct (f (Z.of_nat n)); simpl b2z.
  - rewrite H by (lia || reflexivity). simpl; lia.
  - destruct (g (Z.of_nat n)); simpl; lia.
Qed.

(** Two predicates, one included in the other and holding equally often,
    agree everywhere. *)
Lemma bitcount_pointwise f g n :
  (forall i, 0 <= i < Z.of_nat n -> f i = true -> g i = true) ->
  bitcount f n = bitcount g n ->
  forall i, 0 <= i < Z.of_nat n -> f i = g i.
Proof.
  induction n; intros Hfg Hc i Hi; [lia|].
  simpl bitcount in Hc.
  assert (Hle : bitcount f n <= bitcount g n)
    by (apply bitcount_le; intros; apply Hfg; [lia|assumption]).
  pose proof (Hfg (Z.of_nat n)) as Hn.
  destruct (Z.eq_dec i (Z.of_nat n)) as [->|Hne].
  - destruct (f (Z.of_nat n)); [symmetry; apply Hn; [lia|reflexivity]|].
    destruct (g (Z.of_nat n)); [simpl in Hc; lia|reflexivity].
  - apply IHn; [intros; apply Hfg; [lia|assumption]| |lia].
    destruct (f (Z.of_nat n)), (g (Z.of_nat n)); simpl in Hc; try lia.
Qed.

Lemma bitcount_negb f n :
  bitcount (fun i => negb (f i)) n = Z.of_nat n - bitcount f n.
Proof.
  induction n; simpl bitcount; [lia|].
  rewrite IHn. destruct (f (Z.of_nat n)); simpl; lia.
Qed.

Lemma bitcount_between_gen a b n :
  0 <= a ->
  bitcount (fun i => (a <=? i) && (i <? b)) n
  = Z.max 0 (Z.min b (Z.of_nat n) - a).
Proof.
  intros Ha. induction n; simpl bitcount; [lia|].
  rewrite IHn.
  destruct ((a <=? Z.of_nat n) && (Z.of_nat n <? b)) eqn:E; simpl b2z; lia.
Qed.

Lemma bitcount_between a b n :
  0 <= a <= b -> b <= Z.of_nat n ->
  bitcount (fun i => (a <=? i) && (i <? b)) n = b - a.
Proof. intros Ha Hb. rewrite bitcount_between_gen by lia. lia. Qed.

Lemma bitcount_app f n m :
  bitcount f (n + m) = bitcount f n + bitcount (fun i => f (Z.of_nat n + i)) m.
Proof.
  induction m.
  - rewrite Nat.add_0_r. simpl. lia.
  - rewrite Nat.add_succ_r. simpl bitcount. rewrite IHm.
    rewrite Nat2Z.inj_add. lia.
Qed.

Lemma bitcount_double f h :
  (forall i, 0 <= i < Z.of_nat h -> f i = f (i + Z.of_nat h)) ->
  bitcount f (h + h) = 2 * bitcount f h.
Proof.
  intros H. rewrite bitcount_app.
  rewrite (bitcount_ext (fun i => f (Z.of_nat h + i)) f h); [lia|].
  intros i Hi. rewrite (H i Hi). f_equal; lia.
Qed.

(** ** Runs of equal bits *)

Lemma leading_zeros_run n x : lead_run false (Z.of_nat n) (leading_zeros n x) x.
Proof.
  induction n as [|n IH]; [repeat split; simpl; intros; lia|].
  destruct IH as (Hk & Hz & Hn).
  cbn [leading_zeros]. destruct (Z.testbit x (Z.of_nat n)) eqn:E.
  - repeat split; try lia. intros _. cbn [negb]. rewrite <- E. f_equal; lia.
  - repeat split; try lia.
    + intros i Hi. destruct (Z.eq_dec i (Z.of_nat n)) as [->|]; [exact E|].
      apply Hz; lia.
    + intros Hlt. rewrite <- Hn by lia. f_equal; lia.
Qed.

Lemma trailing_zeros_run n i0 x :
  0 <= i0 ->
  let k := trailing_zeros_from n i0 x in
  0 <= k <= Z.of_nat n /\
  (forall i, i0 <= i < i0 + k -> Z.testbit x i = false) /\
  (k < Z.of_nat n -> Z.testbit x (i0 + k) = true).
Proof.
  revert i0. induction n as [|n IH]; intros i0 Hi0; [repeat split; simpl; intros; lia|].
  cbn [trailing_zeros_from]. destruct (Z.testbit x i0) eqn:E.
  - repeat split; try lia. intros _. rewrite Z.add_0_r. exact E.
  - destruct (IH (i0 + 1)) as (Hk & Hz & Hn); [lia|].
    repeat split; try lia.
    + intros i Hi. destruct (Z.eq_dec i i0) as [->|]; [exact E|]. apply Hz; lia.
    + intros Hlt. rewrite <- Hn by lia. f_equal; lia.
Qed.

Lemma trailing_zeros_trail_run n x :
  trail_run false (Z.of_nat n) (trailing_zeros_from n 0 x) x.
Proof.
  destruct (trailing_zeros_run n 0 x) as (Hk & Hz & Hn); [lia|].
  repeat split; try lia.
  - intros i Hi. apply Hz; lia.
  - intros Hlt. apply Hn in Hlt. exact Hlt.
Qed.

(** The runs of a value are the runs of zeros of its complement. *)
Lemma lead_run_compl w k x y :
  (forall i, 0 <= i < w -> Z.testbit y i = negb (Z.testbit x i)) ->
  lead_run false w k y -> lead_run true w k x.
Proof.
  intros Hc (Hk & Hz & Hn). repeat split; try lia.
  - intros i Hi. specialize (Hz i Hi). rewrite Hc in Hz by lia.
    destruct (Z.testbit x i); [reflexivity|discriminate].
  - intros Hlt. specialize (Hn Hlt). rewrite Hc in Hn by lia.
    destruct (Z.testbit x (w - k - 1)); [discriminate|reflexivity].
Qed.

Lemma trail_run_compl w k x y :
  (forall i, 0 <= i < w -> Z.testbit y i = negb (Z.testbit x i)) ->
  trail_run false w k y -> trail_run true w k x.
Proof.
  intros Hc (Hk & Hz & Hn). repeat split; try lia.
  - intros i Hi. specialize (Hz i Hi). rewrite Hc in Hz by lia.
    destruct (Z.testbit x i); [reflexivity|discriminate].
  - intros Hlt. specialize (Hn Hlt). rewrite Hc in Hn by lia.
    destruct (Z.testbit x k); [discriminate|reflexivity].
Qed.

Lemma lead_run_ext b w k x y :
  (forall i, 0 <= i < w -> Z.testbit y i = Z.testbit x i) ->
  lead_run b w k y -> lead_run b w k x.
Proof.
  intros Hc (Hk & Hz & Hn). repeat split; try lia.
  - intros i Hi. rewrite <- Hc by lia. auto.
  - intros Hlt. rewrite <- Hc by lia. auto.
Qed.

Lemma trail_run_ext b w k x y :
  (forall i, 0 <= i < w -> Z.testbit y i = Z.testbit x i) ->
  trail_run b w k y -> trail_run b w k x.
Proof.
  intros Hc (Hk & Hz & Hn). repeat split; try lia.
  - intros i Hi. rewrite <- Hc by lia. auto.
  - intros Hlt. rewrite <- Hc by lia. auto.
Qed.

(** ** Bits of the decoded pattern *)

Lemma RotateRight_bits x r w j :
  0 <= r < w -> 0 <= j < w ->
  Z.testbit (RotateRight x r w) j
  = Z.testbit x (j + r) || Z.testbit x (j - (w - r)).
Proof.
  intros Hr Hj. unfold RotateRight.
  rewrite Z.land_spec, Z.lor_spec, Z.shiftr_spec, Z.shiftl_spec by lia.
  rewrite Z.ones_spec_low by lia. apply andb_true_r.
Qed.

Lemma RotateRight_high x r w j :
  0 <= w -> w <= j -> Z.testbit (RotateRight x r w) j = false.
Proof.
  intros Hw Hj. unfold RotateRight.
  rewrite Z.land_spec, Z.ones_spec_high by lia. apply andb_false_r.
Qed.

Lemma RepeatBits_bits c x w i :
  0 < w -> 0 <= i ->
  (forall j, w <= j -> Z.testbit x j = false) ->
  Z.testbit (RepeatBits c x w) i
  = (i <? Z.of_nat c * w) && Z.testbit x (i mod w).
Proof.
  intros Hw Hi Hx. revert i Hi. induction c as [|c IH]; intros i Hi.
  - simpl RepeatBits. rewrite Z.bits_0. symmetry. 
    change (Z.of_nat 0 * w) with 0.
    destruct (Z.ltb_spec i 0); [lia|reflexivity].
  - cbn [RepeatBits]. rewrite Z.lor_spec, Z.shiftl_spec by lia.
    destruct (Z_lt_le_dec i w) as [Hlt|Hge].
    + rewrite (Z.testbit_neg_r _ (i - w)) by lia.
      rewrite Z.mod_small by lia. rewrite orb_false_r.
      destruct (Z.ltb_spec i (Z.of_nat (S c) * w)); [reflexivity|nia].
    + rewrite (Hx i Hge), IH by lia. cbn [orb].
      replace (i mod w) with ((i - w) mod w).
      2:{ replace i with ((i - w) + 1 * w) at 2 by lia. symmetry. apply Z.mod_add. lia. }
      f_equal. 
      destruct (Z.ltb_spec (i - w) (Z.of_nat c * w)), (Z.ltb_spec i (Z.of_nat (S c) * w)); try reflexivity; nia.
Qed.

(** Bit [i] of the pattern of the table: [size] bits of which the [s+1]
    lowest are set, rotated right by [r] and repeated. *)
Lemma pattern_bits c size s r i :
  0 <= s -> 0 <= r < size -> 0 <= i < Z.of_nat c * size ->
  Z.testbit (RepeatBits c (RotateRight (bit_mask (s + 1)) r size) size) i
  = let j := i mod size in
    (j + r <? s + 1) || ((size - r <=? j) && (j - (size - r) <? s + 1)).
Proof.
  intros Hs Hr Hi. cbv zeta.
  rewrite RepeatBits_bits by (try lia; intros; apply RotateRight_high; lia).
  destruct (Z.ltb_spec i (Z.of_nat c * size)) as [_|?]; [|lia]. cbn [andb].
  assert (Hj : 0 <= i mod size < size) by (apply Z.mod_pos_bound; lia).
  rewrite RotateRight_bits by lia. unfold bit_mask.
  rewrite Z.testbit_ones_nonneg by lia.
  destruct (Z_lt_le_dec (i mod size) (size - r)).
  - rewrite (Z.testbit_neg_r _ (i mod size - (size - r))) by lia.
    replace (size - r <=? i mod size) with false by lia. reflexivity.
  - rewrite Z.testbit_ones_nonneg by lia.
    replace (size - r <=? i mod size) with true by lia. reflexivity.
Qed.

(** ** The value under the loop of [EncodeLogicalImmediate] *)

Section Element.

Variables (W v : Z).

Hypothesis not_all_equal : forall b, ~ (forall i, 0 <= i < W -> Z.testbit v i = b).

Lemma periodic_top w a :
  0 < w <= W -> W mod w = 0 -> periodic W v w ->
  0 <= a < w -> Z.testbit v (a + (W - w)) = Z.testbit v a.
Proof.
  intros Hw Hdiv Hp Ha.
  rewrite (Hp (a + (W - w))) by lia. f_equal.
  assert (HW : W = w * (W / w)) by (apply Z_div_exact_full_2; lia).
  replace (a + (W - w)) with (a + (W / w - 1) * w) by lia.
  rewrite Z.mod_add by lia. apply Z.mod_small; lia.
Qed.

Lemma lead_run_narrow b w k :
  0 < w <= W -> W mod w = 0 -> periodic W v w ->
  lead_run b W k v -> lead_run b w k v /\ k < w.
Proof.
  intros Hw Hdiv Hp (Hk & Hz & Hn).
  assert (Hlt : k < w).
  { destruct (Z_lt_le_dec k w) as [|Hge]; [assumption|].
    exfalso. apply (not_all_equal b). intros i Hi.
    rewrite (Hp i Hi).
    assert (0 <= i mod w < w) by (apply Z.mod_pos_bound; lia).
    rewrite <- (periodic_top w (i mod w)) by (assumption || lia). apply Hz; lia. }
  split; [|exact Hlt]. repeat split; try lia.
  - intros i Hi. rewrite <- (periodic_top w i) by (assumption || lia). apply Hz; lia.
  - intros _. rewrite <- (periodic_top w (w - k - 1)) by (assumption || lia).
    replace (w - k - 1 + (W - w)) with (W - k - 1) by lia. apply Hn; lia.
Qed.

Lemma trail_run_narrow b w k :
  0 < w <= W -> periodic W v w ->
  trail_run b W k v -> trail_run b w k v /\ k < w.
Proof.
  intros Hw Hp (Hk & Hz & Hn).
  assert (Hlt : k < w).
  { destruct (Z_lt_le_dec k w) as [|Hge]; [assumption|].
    exfalso. apply (not_all_equal b). intros i Hi.
    rewrite (Hp i Hi).
    assert (0 <= i mod w < w) by (apply Z.mod_pos_bound; lia).
    apply Hz; lia. }
  split; [|exact Hlt]. repeat split; try lia.
  - exact Hz.
  - intros _. apply Hn; lia.
Qed.

(** The element is not constant either. *)
Lemma element_not_all_equal b w :
  0 < w <= W -> periodic W v w ->
  ~ (forall j, 0 <= j < w -> Z.testbit v j = b).
Proof.
  intros Hw Hp Hall. apply (not_all_equal b). intros i Hi.
  rewrite (Hp i Hi). apply Hall. apply Z.mod_pos_bound; lia.
Qed.

(** Step 3 of the encoder: zeros on both sides of the set bits. *)
Lemma run_of_ones w lz tz :
  0 < w ->
  lead_run false w lz v -> trail_run false w tz v ->
  lz + tz + bitcount (Z.testbit v) (Z.to_nat w) = w ->
  forall j, 0 <= j < w -> Z.testbit v j = (tz <=? j) && (j <? w - lz).
Proof.
  intros Hw (Hlk & Hlz & _) (Htk & Htz & _) Hsum.
  pose proof (bitcount_bounds (Z.testbit v) (Z.to_nat w)) as Hb.
  intros j Hj.
  apply (bitcount_pointwise _ (fun i => (tz <=? i) && (i <? w - lz)) (Z.to_nat w)); [| |lia].
  - intros i Hi Hbit.
    destruct (Z_lt_le_dec i tz); [rewrite Htz in Hbit by lia; discriminate|].
    destruct (Z_lt_le_dec i (w - lz)); [lia|].
    rewrite Hlz in Hbit by lia; discriminate.
  - rewrite bitcount_between by lia. lia.
Qed.

(** Step 4 of the encoder: ones on both sides of the clear bits. *)
Lemma run_of_zeros w lo to :
  0 < w ->
  lead_run true w lo v -> trail_run true w to v ->
  lo + to + (w - bitcount (Z.testbit v) (Z.to_nat w)) = w ->
  forall j, 0 <= j < w -> Z.testbit v j = negb ((to <=? j) && (j <? w - lo)).
Proof.
  intros Hw (Hlk & Hlo & _) (Htk & Hto & _) Hsum.
  pose proof (bitcount_bounds (Z.testbit v) (Z.to_nat w)) as Hb.
  intros j Hj.
  rewrite <- (bitcount_pointwise (fun i => negb (Z.testbit v i))
               (fun i => (to <=? i) && (i <? w - lo)) (Z.to_nat w)); [| | |lia].
  - symmetry; apply negb_involutive.
  - intros i Hi Hbit.
    destruct (Z_lt_le_dec i to); [rewrite Hto in Hbit by lia; discriminate|].
    destruct (Z_lt_le_dec i (w - lo)); [lia|].
    rewrite Hlo in Hbit by lia; discriminate.
  - rewrite bitcount_negb, bitcount_between by lia. lia.
Qed.

(** The ends of the four runs, read on a description [f] of the bits. *)
Lemma run_facts w lz lo tz to (f : Z -> bool) :
  (lead_run false w lz v /\ lz < w) -> (lead_run true w lo v /\ lo < w) ->
  (trail_run false w tz v /\ tz < w) -> (trail_run true w to v /\ to < w) ->
  (forall j, 0 <= j < w -> Z.testbit v j = f j) ->
  (f (w - lz - 1) = true /\ f (w - lo - 1) = false /\ f tz = true /\ f to = false) /\
  (0 < lz -> f (w - 1) = false /\ f (w - lz) = false) /\
  (0 < lo -> f (w - 1) = true /\ f (w - lo) = true) /\
  (0 < tz -> f 0 = false /\ f (tz - 1) = false) /\
  (0 < to -> f 0 = true /\ f (to - 1) = true).
Proof.
  intros [(Hlzk & Hlzz & Hlzn) Hlzw] [(Hlok & Hloz & Hlon) Hlow]
         [(Htzk & Htzz & Htzn) Htzw] [(Htok & Htoz & Hton) Htow] Hc.
  cbn [negb] in *.
  repeat split; intros; rewrite <- Hc by lia; auto; try (apply Hlzz; lia);
    try (apply Hloz; lia); try (apply Htzz; lia); try (apply Htoz; lia).
Qed.

(** What [break] leaves in [imm_r] and [set_bits] describes the element. *)
Lemma break_pattern w lz lo tz to sb r :
  0 < w <= W -> periodic W v w ->
  (lead_run false w lz v /\ lz < w) -> (lead_run true w lo v /\ lo < w) ->
  (trail_run false w tz v /\ tz < w) -> (trail_run true w to v /\ to < w) ->
  sb = bitcount (Z.testbit v) (Z.to_nat w) ->
  r = (if lz + sb =? w then 0 else if 0 <? lz then w - tz else lo) ->
  lz + tz + sb = w \/ lo + to + (w - sb) = w ->
  0 <= r < w /\ 1 <= sb < w /\
  forall j, 0 <= j < w ->
    Z.testbit v j = (j + r <? sb) || ((w - r <=? j) && (j - (w - r) <? sb)).
Proof.
  intros Hw Hp Hlz Hlo Htz Hto Hsb Hr Hcase.
  pose proof (bitcount_bounds (Z.testbit v) (Z.to_nat w)) as Hb.
  assert (Hchar : (forall j, 0 <= j < w -> Z.testbit v j = (tz <=? j) && (j <? w - lz))
               \/ (forall j, 0 <= j < w -> Z.testbit v j = negb ((to <=? j) && (j <? w - lo)))).
  { destruct Hcase; [left; apply run_of_ones|right; apply run_of_zeros];
      try apply Hlz; try apply Hlo; try apply Htz; try apply Hto; lia. }
  assert (Hr' : (lz + sb = w /\ r = 0) \/ (lz + sb <> w /\ 0 < lz /\ r = w - tz)
                \/ (lz + sb <> w /\ lz <= 0 /\ r = lo)).
  { destruct (Z.eqb_spec (lz + sb) w); [lia|].
    destruct (Z.ltb_spec 0 lz); lia. }
  clear Hr.
  assert (Hk : 0 <= lz < w /\ 0 <= lo < w /\ 0 <= tz < w /\ 0 <= to < w).
  { destruct Hlz as [(? & _) ?], Hlo as [(? & _) ?], Htz as [(? & _) ?], Hto as [(? & _) ?]. lia. }
  destruct Hchar as [Hc|Hc].
  - pose proof (run_facts _ _ _ _ _ _ Hlz Hlo Htz Hto Hc) as (F1 & F2 & F3 & F4 & F5).
    cbv beta in F1, F2, F3, F4, F5.
    assert (Hsum : lz + tz + sb = w).
    { destruct Hcase as [|Hz]; [assumption|].
      assert (bitcount (Z.testbit v) (Z.to_nat w) = (w - lz) - tz).
      { rewrite (bitcount_ext _ (fun i => (tz <=? i) && (i <? w - lz))) by (intros; apply Hc; lia).
        apply bitcount_between; lia. }
      lia. }
    repeat split; try lia.
    intros j Hj. rewrite (Hc j Hj). lia.
  - pose proof (run_facts _ _ _ _ _ _ Hlz Hlo Htz Hto Hc) as (F1 & F2 & F3 & F4 & F5).
    cbv beta in F1, F2, F3, F4, F5.
    assert (Hsum : lo + to + (w - sb) = w).
    { assert (bitcount (Z.testbit v) (Z.to_nat w) = w - ((w - lo) - to)).
      { rewrite (bitcount_ext _ (fun i => negb ((to <=? i) && (i <? w - lo)))) by (intros; apply Hc; lia).
        rewrite bitcount_negb, bitcount_between by lia. lia. }
      lia. }
    repeat split; try lia.
    intros j Hj. rewrite (Hc j Hj). lia.
Qed.

End Element.

(** ** The fields of the packed immediate *)

Lemma forallb_Zrange (P : Z -> bool) lo n :
  forallb P (Zrange lo n) = true ->
  forall x, lo <= x < lo + Z.of_nat n -> P x = true.
Proof.
  intros H x Hx. rewrite forallb_forall in H. apply H.
  unfold Zrange. apply in_map_iff. exists (Z.to_nat (x - lo)). split; [lia|].
  apply in_seq. lia.
Qed.

Lemma fields_eqb_eq a size s r :
  fields_eqb a size s r = true -> a = Some (size, s, r).
Proof.
  destruct a as [[[? ?] ?]|]; simpl; [|discriminate].
  intros H. apply andb_prop in H as [H H3]. apply andb_prop in H as [H1 H2].
  apply Z.eqb_eq in H1, H2, H3. congruence.
Qed.

Lemma fields_ok_all : forallb fields_ok [64; 32; 16; 8; 4] = true.
Proof. vm_compute. reflexivity. Qed.

Lemma decode_fields_pack width sb r :
  In width [64; 32; 16; 8; 4] -> 1 <= sb < width -> 0 <= r < width ->
  decode_fields
    (pack_logical_imm (if width =? 64 then 1 else 0)
       (Z.land (Z.lor (u32 (- 2 * width)) (u32 (sb - 1))) 0x3f) r)
  = Some (width, sb - 1, r).
Proof.
  intros Hw Hsb Hr. apply fields_eqb_eq.
  pose proof fields_ok_all as H. rewrite forallb_forall in H.
  specialize (H width Hw). unfold fields_ok in H.
  assert (H4 : 4 <= width) by (simpl in Hw; lia).
  pose proof (forallb_Zrange _ _ _ H sb) as H1. cbv beta in H1.
  assert (Hsb' : 1 <= sb < 1 + Z.of_nat (Z.to_nat width - 1)) by lia.
  specialize (H1 Hsb').
  pose proof (forallb_Zrange _ _ _ H1 r) as H2. cbv beta in H2.
  apply H2. lia.
Qed.

Lemma decode_fields_pack_2 r :
  0 <= r < 2 -> decode_fields (pack_logical_imm 0 0x3C r) = Some (2, 0, r).
Proof.
  intros Hr. assert (r = 0 \/ r = 1) as [-> | ->] by lia; reflexivity.
Qed.

(** ** Equality of the decoded pattern and the value *)

Lemma decode_value_eq W v c w sb r :
  0 < w -> W = Z.of_nat c * w -> 0 <= r < w -> 1 <= sb ->
  periodic W v w ->
  (forall j, 0 <= j < w ->
     Z.testbit v j = (j + r <? sb) || ((w - r <=? j) && (j - (w - r) <? sb))) ->
  RepeatBits c (RotateRight (bit_mask (sb - 1 + 1)) r w) w = v mod 2 ^ W.
Proof.
  intros Hw HW Hr Hsb Hp Hbits.
  assert (0 <= W) by nia.
  apply Z.bits_inj'. intros i Hi.
  destruct (Z_lt_le_dec i W) as [Hlt|Hge].
  - rewrite Z.mod_pow2_bits_low by lia.
    rewrite pattern_bits by lia. cbv zeta.
    rewrite (Hp i) by lia. rewrite Hbits by (apply Z.mod_pos_bound; lia).
    replace (sb - 1 + 1) with sb by lia. reflexivity.
  - rewrite Z.mod_pow2_bits_high by lia.
    rewrite RepeatBits_bits by (try lia; intros; apply RotateRight_high; lia).
    destruct (Z.ltb_spec i (Z.of_nat c * w)); [lia|reflexivity].
Qed.

Lemma u32_small x : 0 <= x < 2 ^ 32 -> u32 x = x.
Proof. intros H. unfold u32. apply Z.mod_small; exact H. Qed.

(** ** One halving of the width *)

Lemma halves_equal_bits v h j :
  0 <= h -> 0 <= j < h ->
  Z.land v (Z.ones h) = Z.land (Z.shiftr v h) (Z.ones h) ->
  Z.testbit v j = Z.testbit v (j + h).
Proof.
  intros Hh Hj Heq.
  apply (f_equal (fun z => Z.testbit z j)) in Heq.
  rewrite !Z.land_spec, Z.shiftr_spec, Z.ones_spec_low, !andb_true_r in Heq by lia.
  exact Heq.
Qed.

Lemma periodic_half W v w h :
  0 < h -> w = 2 * h -> periodic W v w ->
  Z.land v (Z.ones h) = Z.land (Z.shiftr v h) (Z.ones h) ->
  periodic W v h.
Proof.
  intros Hh -> Hp Heq i Hi. rewrite (Hp i Hi).
  replace (2 * h) with (h * 2) by lia. rewrite Z.rem_mul_r by lia.
  assert (H2 : 0 <= (i / h) mod 2 < 2) by (apply Z.mod_pos_bound; lia).
  assert (Hm : 0 <= i mod h < h) by (apply Z.mod_pos_bound; lia).
  assert ((i / h) mod 2 = 0 \/ (i / h) mod 2 = 1) as [-> | ->] by lia.
  - f_equal; lia.
  - rewrite Z.mul_1_r. symmetry. apply halves_equal_bits; [lia|lia|exact Heq].
Qed.

Lemma bitcount_half v w h :
  0 < h -> w = 2 * h ->
  Z.land v (Z.ones h) = Z.land (Z.shiftr v h) (Z.ones h) ->
  Z.shiftr (bitcount (Z.testbit v) (Z.to_nat w)) 1
  = bitcount (Z.testbit v) (Z.to_nat h).
Proof.
  intros Hh -> Heq.
  replace (Z.to_nat (2 * h)) with (Z.to_nat h + Z.to_nat h)%nat by lia.
  rewrite bitcount_double.
  - rewrite Z.shiftr_div_pow2 by lia. change (2 ^ 1) with 2.
    rewrite Z.mul_comm. apply Z.div_mul. lia.
  - intros i Hi. rewrite Z2Nat.id by lia.
    apply halves_equal_bits; [lia|lia|exact Heq].
Qed.

(** What [width >>= 1], [imm_s_fixed >>= 1] and the mask of step 5 are
    at each width above 2. *)
Lemma halve_width w :
  In w [64; 32; 16; 8; 4] ->
  exists h, Z.shiftr w 1 = h /\ w = 2 * h /\ In h [64; 32; 16; 8; 4; 2] /\
            Z.shiftr (- 2 * w) 1 = - 2 * h /\
            u64 (Z.shiftl 1 (Z.shiftr w 1)) - 1 = Z.ones h.
Proof.
  intros Hw. simpl in Hw.
  destruct Hw as [<-|[<-|[<-|[<-|[<-|[]]]]]];
    eexists; (split; [reflexivity|]); simpl; repeat split; auto 10.
Qed.

(** ** Width 2 *)

Lemma land_3_bits v :
  Z.land v 3 = b2z (Z.testbit v 0) + 2 * b2z (Z.testbit v 1).
Proof.
  change 3 with (Z.ones 2). rewrite Z.land_ones by lia.
  replace (Z.testbit v 1) with (Z.testbit (v / 2) 0) by (apply (Z.div2_bits v 0); lia).
  rewrite !Z.bit0_odd.
  pose proof (Zmod_odd v) as H0. pose proof (Zmod_odd (v / 2)) as H1.
  change (2 ^ 2) with 4. revert H0 H1.
  destruct (Z.odd v), (Z.odd (v / 2)); simpl b2z; intros H0 H1;
    Z.div_mod_to_equations; lia.
Qed.

Lemma width2_pattern W v :
  2 <= W -> periodic W v 2 ->
  (forall b, ~ (forall i, 0 <= i < W -> Z.testbit v i = b)) ->
  let r := u32 (Z.land v 3 - 1) in
  0 <= r < 2 /\
  forall j, 0 <= j < 2 ->
    Z.testbit v j = (j + r <? 1) || ((2 - r <=? j) && (j - (2 - r) <? 1)).
Proof.
  intros HW Hp Hne.
  pose proof (element_not_all_equal W v Hne (Z.testbit v 0) 2 ltac:(lia) Hp) as Hd.
  assert (Hb : Z.testbit v 1 = negb (Z.testbit v 0)).
  { destruct (Z.testbit v 0) eqn:E0, (Z.testbit v 1) eqn:E1; try reflexivity;
      exfalso; apply Hd; intros j Hj;
      (assert (j = 0 \/ j = 1) as [-> | ->] by lia); assumption. }
  rewrite land_3_bits, Hb. cbv zeta.
  destruct (Z.testbit v 0) eqn:E0; cbn [negb b2z] in *;
    [change (u32 (1 + 2 * 0 - 1)) with 0 | change (u32 (0 + 2 * 1 - 1)) with 1];
    (split; [lia|]);
    intros j Hj; (assert (j = 0 \/ j = 1) as [-> | ->] by lia);
    rewrite ?E0, ?Hb; reflexivity.
Qed.

(** ** The loop and the whole encoder *)

Section Loop.

Variables (is_wide : bool) (v lz lo tz to : Z).

Let W : Z := if is_wide then 64 else 32.

Hypothesis Hlz : lead_run false W lz v.
Hypothesis Hlo : lead_run true W lo v.
Hypothesis Htz : trail_run false W tz v.
Hypothesis Hto : trail_run true W to v.
Hypothesis not_all_equal : forall b, ~ (forall i, 0 <= i < W -> Z.testbit v i = b).

Lemma W_cases : W = 64 \/ W = 32.
Proof. unfold W; destruct is_wide; auto. Qed.

Lemma width_divides w :
  In w [64; 32; 16; 8; 4; 2] -> w <= W ->
  0 < w /\ W mod w = 0 /\ W = Z.of_nat (Z.to_nat (W / w)) * w.
Proof.
  intros Hw HwW. simpl in Hw.
  destruct W_cases as [-> | ->];
    destruct Hw as [<-|[<-|[<-|[<-|[<-|[<-|[]]]]]]]; try lia;
    repeat split; reflexivity.
Qed.

Lemma break_decodes w sb r :
  In w [64; 32; 16; 8; 4; 2] -> w <= W -> periodic W v w ->
  0 <= r < w -> 1 <= sb < w ->
  (forall j, 0 <= j < w ->
     Z.testbit v j = (j + r <? sb) || ((w - r <=? j) && (j - (w - r) <? sb))) ->
  forall encoded, decode_fields encoded = Some (w, sb - 1, r) ->
  DecodeLogicalImmediate is_wide encoded = Some (v mod 2 ^ W).
Proof.
  intros Hw HwW Hp Hr Hsb Hbits encoded Hf.
  destruct (width_divides w Hw HwW) as (Hpos & Hdiv & HWw).
  unfold DecodeLogicalImmediate. rewrite Hf. cbn [mbind option_bind].
  fold W. destruct (Z.ltb_spec W w) as [|_]; [lia|].
  f_equal. apply decode_value_eq; auto; lia.
Qed.

Lemma encode_loop_sound fuel : forall w sb fixed n imm_s imm_r,
  In w [64; 32; 16; 8; 4; 2] -> w <= W -> fixed = - 2 * w ->
  periodic W v w -> sb = bitcount (Z.testbit v) (Z.to_nat w) ->
  encode_loop fuel v lz lo tz to w sb fixed = Some (Break n imm_s imm_r) ->
  DecodeLogicalImmediate is_wide (pack_logical_imm n imm_s imm_r)
  = Some (v mod 2 ^ W).
Proof.
  induction fuel as [|fuel IH]; intros w sb fixed n imm_s imm_r Hw HwW Hfixed Hp Hsb Hloop;
    [discriminate|].
  destruct (width_divides w Hw HwW) as (Hpos & Hdiv & HWw).
  assert (HWpos : 0 < W) by lia.
  cbn [encode_loop] in Hloop.
  destruct (Z.eqb_spec w 2) as [->|Hw2].
  - injection Hloop as <- <- <-.
    destruct (width2_pattern W v HwW Hp not_all_equal) as (Hr & Hbits).
    apply (break_decodes 2 1 (u32 (Z.land v 3 - 1))); auto; try lia.
    apply decode_fields_pack_2; exact Hr.
  - assert (Hw4 : In w [64; 32; 16; 8; 4]).
    { simpl in Hw |- *. intuition lia. }
    pose proof (lead_run_narrow W v not_all_equal false w lz ltac:(lia) Hdiv Hp Hlz) as Hlz'.
    pose proof (lead_run_narrow W v not_all_equal true w lo ltac:(lia) Hdiv Hp Hlo) as Hlo'.
    pose proof (trail_run_narrow W v not_all_equal false w tz ltac:(lia) Hp Htz) as Htz'.
    pose proof (trail_run_narrow W v not_all_equal true w to ltac:(lia) Hp Hto) as Hto'.
    assert (Hk : 0 <= lz < w /\ 0 <= lo < w /\ 0 <= tz < w /\ 0 <= to < w).
    { destruct Hlz' as [(? & _) ?], Hlo' as [(? & _) ?], Htz' as [(? & _) ?], Hto' as [(? & _) ?]. lia. }
    pose proof (bitcount_bounds (Z.testbit v) (Z.to_nat w)) as Hb.
    assert (Hw64 : w <= 64) by (destruct W_cases; lia).
    assert (H32 : 2 ^ 32 = 4294967296) by reflexivity.
    rewrite (u32_small (lz + sb)), (u32_small (w - sb)),
      (u32_small (lz + tz + sb)), (u32_small (lo + to + (w - sb))) in Hloop by lia.
    rewrite (u32_small (w - tz)) in Hloop by lia.
    set (r := if lz + sb =? w then 0 else if 0 <? lz then w - tz else lo) in Hloop.
    assert (Hbreak : lz + tz + sb = w \/ lo + to + (w - sb) = w ->
                     Some (Break (if w =? 64 then 1 else 0)
                             (Z.land (Z.lor (u32 fixed) (u32 (sb - 1))) 63) r)
                     = Some (Break n imm_s imm_r) ->
                     DecodeLogicalImmediate is_wide (pack_logical_imm n imm_s imm_r)
                     = Some (v mod 2 ^ W)).
    { intros Hcase Heq. injection Heq as <- <- <-.
      destruct (break_pattern W v w lz lo tz to sb r
                  ltac:(lia) Hp Hlz' Hlo' Htz' Hto' Hsb eq_refl Hcase) as (Hr & Hsbr & Hbits).
      apply (break_decodes w sb r); auto.
      subst fixed. apply decode_fields_pack; auto. }
    destruct (Z.eqb_spec (lz + tz + sb) w) as [E3|N3]; [apply Hbreak; auto|].
    destruct (Z.eqb_spec (lo + to + (w - sb)) w) as [E4|N4]; [apply Hbreak; auto|].
    clear Hbreak.
    destruct (halve_width w Hw4) as (h & Hh & Hwh & Hhin & Hfix & Hmask).
    rewrite Hmask, Hh in Hloop.
    destruct (Z.eqb_spec (Z.land v (Z.ones h)) (Z.land (Z.shiftr v h) (Z.ones h))) as [Eh|Nh];
      [|discriminate].
    apply (IH h (Z.shiftr sb 1) (Z.shiftr fixed 1)); auto; try lia.
    + subst fixed. exact Hfix.
    + apply (periodic_half W v w h); auto; lia.
    + subst sb. apply (bitcount_half v w h); auto; lia.
Qed.

End Loop.

(** ** The values computed before the loop *)

Lemma u32_bits x i : 0 <= i < 32 -> Z.testbit (u32 x) i = Z.testbit x i.
Proof. intros Hi. unfold u32. apply Z.mod_pow2_bits_low; lia. Qed.

Lemma lnot64_bits x i :
  0 <= i < 64 -> Z.testbit (u64 (Z.lnot x)) i = negb (Z.testbit x i).
Proof.
  intros Hi. unfold u64. rewrite Z.mod_pow2_bits_low by lia.
  apply Z.lnot_spec; lia.
Qed.

Lemma CountLeadingZeros_run is_wide x :
  lead_run false (reg_width is_wide) (CountLeadingZeros is_wide x) x.
Proof.
  unfold CountLeadingZeros, builtin_clz. destruct is_wide; simpl reg_width.
  - apply (leading_zeros_run 64 x).
  - apply (lead_run_ext false 32 _ x (u32 x)); [intros; apply u32_bits; lia|].
    apply (leading_zeros_run 32 (u32 x)).
Qed.

Lemma CountTrailingZeros_run is_wide x :
  trail_run false (reg_width is_wide) (CountTrailingZeros is_wide x) x.
Proof.
  unfold CountTrailingZeros, builtin_ctz. destruct is_wide; simpl reg_width.
  - apply (trailing_zeros_trail_run 64 x).
  - apply (trail_run_ext false 32 _ x (u32 x)); [intros; apply u32_bits; lia|].
    apply (trailing_zeros_trail_run 32 (u32 x)).
Qed.

Lemma lnot64_compl is_wide x i :
  0 <= i < reg_width is_wide ->
  Z.testbit (u64 (Z.lnot x)) i = negb (Z.testbit x i).
Proof. intros Hi. apply lnot64_bits. destruct is_wide; simpl in Hi; lia. Qed.

Lemma CountSetBits_bitcount is_wide x :
  CountSetBits is_wide x = bitcount (Z.testbit x) (Z.to_nat (reg_width is_wide)).
Proof.
  unfold CountSetBits, builtin_popcount. rewrite !popcount_bitcount.
  destruct is_wide; [reflexivity|].
  apply bitcount_ext. intros i Hi. apply u32_bits. simpl in Hi; lia.
Qed.

Lemma low_bits_constant W x (b : bool) :
  0 <= W -> (forall i, 0 <= i < W -> Z.testbit x i = b) ->
  x mod 2 ^ W = if b then Z.ones W else 0.
Proof.
  intros HW Hall. apply Z.bits_inj'. intros i Hi.
  destruct (Z_lt_le_dec i W).
  - rewrite Z.mod_pow2_bits_low, Hall by lia.
    destruct b; [rewrite Z.ones_spec_low by lia|rewrite Z.bits_0]; reflexivity.
  - rewrite Z.mod_pow2_bits_high by lia.
    destruct b; [rewrite Z.ones_spec_high by lia|rewrite Z.bits_0]; reflexivity.
Qed.

(** The loop ends within six iterations from width 64 or 32. *)
Lemma encode_loop_total v lz lo tz to fuel : forall w sb fixed,
  In w [64; 32; 16; 8; 4; 2] -> Z.log2 w <= Z.of_nat fuel ->
  is_Some (encode_loop fuel v lz lo tz to w sb fixed).
Proof.
  induction fuel as [|fuel IH]; intros w sb fixed Hw Hlog.
  - exfalso. simpl in Hw.
    destruct Hw as [<-|[<-|[<-|[<-|[<-|[<-|[]]]]]]]; vm_compute in Hlog; congruence.
  - cbn [encode_loop]. destruct (Z.eqb_spec w 2) as [->|Hw2]; [eauto|].
    destruct (_ =? w); [eauto|]. destruct (_ =? w); [eauto|].
    destruct (_ =? _); [|eauto].
    assert (Hw4 : In w [64; 32; 16; 8; 4]) by (simpl in Hw |- *; intuition lia).
    destruct (halve_width w Hw4) as (h & Hh & Hwh & Hhin & _).
    rewrite Hh. apply IH; [exact Hhin|].
    assert (0 < h) by (simpl in Hhin; intuition lia).
    rewrite Hwh, Z.log2_double in Hlog by lia. lia.
Qed.

Lemma reg_value_mod is_wide value :
  0 <= value < 2 ^ 64 -> reg_value is_wide value = value mod 2 ^ reg_width is_wide.
Proof.
  intros H. destruct is_wide; simpl; [|reflexivity].
  symmetry; apply Z.mod_small; exact H.
Qed.

(** The encoder returns on every input: the loop needs no more than its
    six iterations. *)
Lemma EncodeLogicalImmediate_defined is_wide value :
  is_Some (EncodeLogicalImmediate is_wide value).
Proof.
  unfold EncodeLogicalImmediate.
  destruct (_ || _); [eauto|]. cbv zeta.
  destruct (encode_loop_total value (CountLeadingZeros is_wide value)
              (CountLeadingZeros is_wide (u64 (Z.lnot value)))
              (CountTrailingZeros is_wide value)
              (CountTrailingZeros is_wide (u64 (Z.lnot value))) 6
              (if is_wide then 64 else 32) (CountSetBits is_wide value)
              (if is_wide then -128 else -64)) as [ex Hex].
  - destruct is_wide; simpl; auto.
  - destruct is_wide; vm_compute; congruence.
  - rewrite Hex. destruct ex; cbn; eauto.
Qed.

Lemma EncodeLogicalImmediate_sound is_wide value encoded :
  0 <= value < 2 ^ 64 -> reg_value is_wide value <> 0 ->
  EncodeLogicalImmediate is_wide value = Some encoded -> 0 <= encoded ->
  DecodeLogicalImmediate is_wide encoded = Some (reg_value is_wide value).
Proof.
  intros Hv Hnz Henc Hpos. unfold EncodeLogicalImmediate in Henc.
  destruct (_ || _) eqn:G; [injection Henc as <-; lia|].
  apply orb_false_elim in G as [G G3]. apply orb_false_elim in G as [G1 G2].
  apply Z.eqb_neq in G1, G2. cbv zeta in Henc.
  destruct (encode_loop _ _ _ _ _ _ _ _ _) as [[n imm_s imm_r|]|] eqn:Eloop;
    cbn [mbind option_bind] in Henc; [|injection Henc as <-; lia|discriminate].
  injection Henc as <-.
  rewrite reg_value_mod by exact Hv.
  assert (HW : 0 < reg_width is_wide) by (destruct is_wide; simpl; lia).
  apply (encode_loop_sound is_wide value (CountLeadingZeros is_wide value)
           (CountLeadingZeros is_wide (u64 (Z.lnot value)))
           (CountTrailingZeros is_wide value)
           (CountTrailingZeros is_wide (u64 (Z.lnot value)))) with (fuel := 6%nat)
    (w := reg_width is_wide) (sb := CountSetBits is_wide value)
    (fixed := if is_wide then -128 else -64).
  - apply CountLeadingZeros_run.
  - apply (lead_run_compl _ _ _ (u64 (Z.lnot value)));
      [apply lnot64_compl|apply CountLeadingZeros_run].
  - apply CountTrailingZeros_run.
  - apply (trail_run_compl _ _ _ (u64 (Z.lnot value)));
      [apply lnot64_compl|apply CountTrailingZeros_run].
  - intros b Hall. apply (low_bits_constant _ _ b) in Hall; [|destruct is_wide; lia].
    destruct is_wide, b; simpl in Hall, G3, Hnz.
    + rewrite Z.mod_small in Hall by lia. apply G2. rewrite Hall. reflexivity.
    + rewrite Z.mod_small in Hall by lia. contradiction.
    + apply Z.eqb_neq in G3. apply G3. exact Hall.
    + apply Hnz. exact Hall.
  - destruct is_wide; simpl; auto.
  - destruct is_wide; simpl; lia.
  - destruct is_wide; reflexivity.
  - intros i Hi. rewrite Z.mod_small by (destruct is_wide; simpl in *; lia). reflexivity.
  - apply CountSetBits_bitcount.
  - destruct is_wide; exact Eloop.
Qed.

(** ** The encoder: round trip and examples *)

(** Away from the values that are 0 at the selected width:
    [EncodeLogicalImmediate] returns -1 on 0, on all-ones and, in 32-bit
    mode, on a value whose low 32 bits are all set; it returns on every
    value; and where the value of the register is not 0 and the result is
    not negative, decoding the result by the table gives back the value of
    the register. *)
Theorem EncodeLogicalImmediate_roundtrip :
  (forall is_wide, EncodeLogicalImmediate is_wide 0 = Some (-1)) /\
  (forall is_wide, EncodeLogicalImmediate is_wide (2 ^ 64 - 1) = Some (-1)) /\
  (forall value, u32 value = 2 ^ 32 - 1 ->
     EncodeLogicalImmediate false value = Some (-1)) /\
  (forall is_wide value encoded,
     0 <= value < 2 ^ 64 -> reg_value is_wide value <> 0 ->
     EncodeLogicalImmediate is_wide value = Some encoded -> 0 <= encoded ->
     DecodeLogicalImmediate is_wide encoded = Some (reg_value is_wide value)) /\
  (forall is_wide value, is_Some (EncodeLogicalImmediate is_wide value)).
Proof.
  split; [|split; [|split; [|split]]].
  - intros is_wide. reflexivity.
  - intros is_wide. reflexivity.
  - intros value H. unfold EncodeLogicalImmediate.
    replace (u32 value =? u32 (Z.lnot 0)) with true; [|symmetry; apply Z.eqb_eq; exact H].
    cbn [negb andb]. rewrite orb_true_r. reflexivity.
  - apply EncodeLogicalImmediate_sound.
  - apply EncodeLogicalImmediate_defined.
Qed.

Lemma EncodeLogicalImmediate_roundtrip_witness :
  EncodeLogicalImmediate true 0xFF00 = Some 7687 /\
  DecodeLogicalImmediate true 7687 = Some 0xFF00.
Proof.
  split; [reflexivity|].
  apply (proj1 (proj2 (proj2 (proj2 EncodeLogicalImmediate_roundtrip))) true 0xFF00 7687);
    [lia|discriminate|reflexivity|lia].
Defined.

(** *** The values of 32-bit mode whose low word is 0 *)

Lemma lnot_zero_low_word value :
  u32 value = 0 -> u32 (u64 (Z.lnot value)) = 2 ^ 32 - 1.
Proof.
  unfold u32, u64. intros H.
  rewrite Z.mod_mod_divide by (exists (2 ^ 32); reflexivity).
  replace (Z.lnot value) with (- value - 1) by (unfold Z.lnot; lia).
  apply Z.mod_divide in H; [|lia]. destruct H as [k ->].
  replace (- (k * 2 ^ 32) - 1) with (2 ^ 32 - 1 + (- k - 1) * 2 ^ 32) by lia.
  rewrite Z.mod_add by lia. reflexivity.
Qed.

(** In 32-bit mode a value that is not 0 and whose low word is 0 passes
    the first test and is encoded as 63. *)
Lemma EncodeLogicalImmediate_low_word_0 value :
  0 <= value < 2 ^ 64 -> value <> 0 -> u32 value = 0 ->
  EncodeLogicalImmediate false value = Some 63.
Proof.
  intros Hv Hnz Hlow. unfold EncodeLogicalImmediate.
  destruct (Z.eqb_spec value 0) as [|_]; [contradiction|].
  destruct (Z.eqb_spec value (u64 (Z.lnot 0))) as [E|_].
  { exfalso. subst value. vm_compute in Hlow. discriminate Hlow. }
  rewrite Hlow. cbn [orb negb andb].
  change (0 =? u32 (Z.lnot 0)) with false. cbn [orb andb]. cbv zeta.
  unfold CountLeadingZeros, CountTrailingZeros, CountSetBits.
  rewrite (lnot_zero_low_word value Hlow), Hlow.
  reflexivity.
Qed.

(** In an immediate the loop packs with [imm_s = 0x3f], the six low bits
    are set, and the table has no row for it. *)
Lemma pack_logical_imm_low_bits n imm_r :
  Z.land (pack_logical_imm n 0x3f imm_r) 0x3f = 0x3f.
Proof.
  unfold pack_logical_imm, to_int32.
  set (x := Z.lor (Z.lor (u32 (Z.shiftl n 12)) (u32 (Z.shiftl imm_r 6))) 63).
  assert (Hx : Z.land (u32 x) 63 = 63).
  { apply Z.bits_inj'. intros i Hi. rewrite Z.land_spec.
    destruct (Z.testbit 63 i) eqn:E; [|apply andb_false_r].
    rewrite andb_true_r.
    assert (i < 6).
    { destruct (Z_lt_le_dec i 6); [assumption|].
      change 63 with (Z.ones 6) in E. rewrite Z.ones_spec_high in E by lia.
      discriminate. }
    rewrite u32_bits by lia. unfold x. rewrite !Z.lor_spec, E. apply orb_true_r. }
  cbv zeta. destruct (u32 x <? 2 ^ 31); [exact Hx|].
  change 63 with (Z.ones 6) in *. rewrite Z.land_ones in * by lia.
  rewrite <- Hx.
  replace (u32 x - 2 ^ 32) with (u32 x + (- 2 ^ 26) * 2 ^ 6) by lia.
  apply Z.mod_add. lia.
Qed.

Lemma decode_fields_all_set encoded :
  Z.land encoded 0x3f = 0x3f -> decode_fields encoded = None.
Proof.
  intros H. unfold decode_fields, element_size. cbv zeta. rewrite H.
  destruct (_ =? 1); reflexivity.
Qed.

(** C1: in 32-bit mode, on a value that is not 0 and whose low 32 bits
    are all 0, [EncodeLogicalImmediate] passes its first test, which
    compares all 64 bits with 0, and returns 63, that is N = 0 and
    imms = 0x3f: a result that is not negative and that the table does not
    decode, where a result that is not negative is to decode to the value.
    This does not hang on what the builtins give on 0: whatever the
    numbers of leading and of trailing zeros, the loop breaks in its first
    pass with N = 0 and imms = 0x3f, and no immediate packed with
    imms = 0x3f is in the table. *)
Theorem EncodeLogicalImmediate_zero_low_word :
  EncodeLogicalImmediate false 0x100000000 = Some 63 /\
  DecodeLogicalImmediate false 63 = None /\
  reg_value false 0x100000000 = 0 /\
  (forall value, 0 <= value < 2 ^ 64 -> value <> 0 -> u32 value = 0 ->
     EncodeLogicalImmediate false value = Some 63) /\
  (forall value lead_zero trail_zero,
     exists imm_r,
       encode_loop 6 value lead_zero 0 trail_zero 0 32 0 (-64)
       = Some (Break 0 0x3f imm_r)) /\
  (forall is_wide n imm_r,
     DecodeLogicalImmediate is_wide (pack_logical_imm n 0x3f imm_r) = None).
Proof.
  split; [reflexivity|]. split; [reflexivity|]. split; [reflexivity|].
  split; [exact EncodeLogicalImmediate_low_word_0|]. split.
  - intros value lead_zero trail_zero. cbn [encode_loop].
    change (32 =? 2) with false. cbv iota zeta.
    change (u32 (0 + 0 + u32 (32 - 0)) =? 32) with true.
    change (Z.land (Z.lor (u32 (-64)) (u32 (0 - 1))) 63) with 63.
    change (32 =? 64) with false. cbv iota.
    destruct (_ =? 32); eauto.
  - intros is_wide n imm_r. unfold DecodeLogicalImmediate.
    rewrite (decode_fields_all_set _ (pack_logical_imm_low_bits n imm_r)).
    reflexivity.
Qed.

(** C9: in 64-bit mode [0x00000000FFFFFFFF] is encoded, as one run of 32
    set bits in an element of 64 bits; [0x5555555555555555] is encoded,
    with an element of 2 bits, which the loop comes to by halving the
    width five times; [0x0123456789ABCDEF] is rejected. *)
Theorem EncodeLogicalImmediate_examples :
  (EncodeLogicalImmediate true 0x00000000FFFFFFFF = Some 4127 /\
   decode_fields 4127 = Some (64, 31, 0) /\
   DecodeLogicalImmediate true 4127 = Some 0x00000000FFFFFFFF) /\
  (EncodeLogicalImmediate true 0x5555555555555555 = Some 60 /\
   decode_fields 60 = Some (2, 0, 0) /\
   DecodeLogicalImmediate true 60 = Some 0x5555555555555555 /\
   encode_loop 5 0x5555555555555555 1 0 0 1 64 32 (-128) = None /\
   encode_loop 6 0x5555555555555555 1 0 0 1 64 32 (-128) = Some (Break 0 60 0)) /\
  EncodeLogicalImmediate true 0x0123456789ABCDEF = Some (-1).
Proof. repeat split; vm_compute; reflexivity. Qed.

End Arm64Facts.

Module LivenessFacts.
Import Liveness.

(** ** Ordered chains *)

Lemma ordered_tail r next : ordered (r :: next) -> ordered next.
Proof. intros (_ & _ & H). exact H. Qed.

Lemma ordered_head r next : ordered (r :: next) -> start_ r < end_ r.
Proof. intros (H & _). exact H. Qed.

(** Every later range of an ordered chain starts after the head ends. *)
Lemma ordered_after r next n :
  ordered (r :: next) -> In n next -> end_ r < start_ n /\ start_ n < end_ n.
Proof.
  revert r. induction next as [|m next IH]; intros r Hord Hin; [destruct Hin|].
  destruct Hord as (Hr & Hrm & Hnext).
  destruct Hin as [<-|Hin].
  - split; [exact Hrm|]. apply (ordered_head _ _ Hnext).
  - destruct (IH m Hnext Hin) as [H1 H2]. 
    pose proof (ordered_head _ _ Hnext). lia.
Qed.

Lemma covers_from_spec position ranges :
  covers_from position ranges = true <->
  exists r, In r ranges /\ in_range position r.
Proof.
  unfold in_range. induction ranges as [|c next IH]; simpl.
  - split; [discriminate|intros (r & [] & _)].
  - destruct ((start_ c <=? position) && (position <? end_ c)) eqn:E.
    + split; [|reflexivity]. intros _. exists c. split; [left; reflexivity|lia].
    + rewrite IH. split.
      * intros (r & Hin & Hr). exists r. split; [right; exact Hin|exact Hr].
      * intros (r & [<-|Hin] & Hr); [lia|]. exists r. split; assumption.
Qed.

Lemma covers_from_after position r next :
  ordered (r :: next) -> covers_from position next = true -> end_ r < position.
Proof.
  intros Hord Hc. apply covers_from_spec in Hc as (n & Hin & Hn).
  destruct (ordered_after r next n Hord Hin). unfold in_range in Hn. lia.
Qed.

Lemma ordered_increasing ranges : ordered ranges -> increasing_disjoint ranges.
Proof.
  induction ranges as [|r next IH]; intros Hord i j r1 r2 Hij H1 H2.
  - rewrite lookup_nil in H1. discriminate.
  - destruct j as [|j]; [lia|]. simpl in H2.
    assert (Hin2 : In r2 next).
    { apply list_elem_of_In. apply list_elem_of_lookup. eauto. }
    destruct i as [|i].
    + simpl in H1. injection H1 as <-.
      destruct (ordered_after r next r2 Hord Hin2).
      pose proof (ordered_head _ _ Hord). lia.
    + simpl in H1. apply (IH (ordered_tail _ _ Hord) i j); [lia|assumption..].
Qed.

Lemma increasing_pairwise_disjoint ranges :
  increasing_disjoint ranges -> pairwise_disjoint ranges.
Proof.
  intros Hinc i j r1 r2 position Hij H1 H2 [Hp1 Hp2]. unfold in_range in *.
  destruct (Nat.lt_total i j) as [Hlt|[Heq|Hgt]]; [|contradiction|].
  - destruct (Hinc i j r1 r2 Hlt H1 H2). lia.
  - destruct (Hinc j i r2 r1 Hgt H2 H1). lia.
Qed.

(** ** The mutators keep the chain ordered *)

Lemma new_LiveRange_ordered start end' next ranges :
  new_LiveRange start end' next = Some ranges ->
  ordered next -> ordered ranges.
Proof.
  unfold new_LiveRange. intros H Hord.
  destruct (_ && _) eqn:E; [|discriminate]. injection H as <-.
  apply andb_prop in E as [E1 E2]. simpl. repeat split; [lia| |exact Hord].
  destruct next; [exact I|lia].
Qed.

Lemma set_first_start_ordered start ranges :
  ordered ranges ->
  (forall first next, ranges = first :: next -> start < end_ first) ->
  ordered (set_first_start start ranges).
Proof.
  destruct ranges as [|first next]; intros Hord Hs; [exact I|].
  destruct Hord as (_ & H1 & H2). simpl. repeat split; auto.
  apply (Hs first next eq_refl).
Qed.

Lemma AddUse_ordered instruction this this' :
  GetLifetimeStart (GetBlock instruction) < GetLifetimeEnd (GetBlock instruction) ->
  ordered (first_range_ this) -> AddUse instruction this = Some this' ->
  ordered (first_range_ this').
Proof.
  intros Hblock Hord H. unfold AddUse in H.
  destruct (first_range_ this) as [|first next] eqn:Hr.
  - destruct (new_LiveRange _ _ _) as [ranges|] eqn:Hn; [|discriminate].
    cbn [mbind option_bind] in H.
    destruct (new_UsePosition _ _ _); [|discriminate]. injection H as <-.
    simpl. apply (new_LiveRange_ordered _ _ _ _ Hn). exact I.
  - destruct (Z.eqb_spec (start_ first) (GetLifetimeStart (GetBlock instruction))) as [E1|N1].
    + destruct (_ <=? _); [|discriminate]. cbn [mbind option_bind] in H.
      destruct (new_UsePosition _ _ _); [|discriminate]. injection H as <-.
      exact Hord.
    + destruct (Z.eqb_spec (start_ first) (GetLifetimeEnd (GetBlock instruction))) as [E2|N2].
      * cbn [mbind option_bind] in H.
        destruct (new_UsePosition _ _ _); [|discriminate]. injection H as <-.
        apply (set_first_start_ordered (GetLifetimeStart (GetBlock instruction)) (first :: next));
          [exact Hord|].
        intros f n [= <- <-]. pose proof (ordered_head _ _ Hord). lia.
      * destruct (new_LiveRange _ _ _) as [ranges|] eqn:Hn; [|discriminate].
        cbn [mbind option_bind] in H.
        destruct (new_UsePosition _ _ _); [|discriminate]. injection H as <-.
        simpl. apply (new_LiveRange_ordered _ _ _ _ Hn). exact Hord.
Qed.

Lemma AddRange_ordered start end' this this' :
  start < end' ->
  ordered (first_range_ this) -> AddRange start end' this = Some this' ->
  ordered (first_range_ this').
Proof.
  intros Hse Hord H. unfold AddRange in H.
  destruct (first_range_ this) as [|first next] eqn:Hr.
  - destruct (new_LiveRange _ _ _) as [ranges|] eqn:Hn; [|discriminate].
    injection H as <-. simpl. apply (new_LiveRange_ordered _ _ _ _ Hn). exact I.
  - destruct (Z.eqb_spec (start_ first) end') as [E|N].
    + injection H as <-.
      apply (set_first_start_ordered start (first :: next)); [exact Hord|].
      intros f n [= <- <-]. pose proof (ordered_head _ _ Hord). lia.
    + destruct (new_LiveRange _ _ _) as [ranges|] eqn:Hn; [|discriminate].
      injection H as <-. simpl. apply (new_LiveRange_ordered _ _ _ _ Hn). exact Hord.
Qed.

Lemma drop_loop_ranges_spec start end' ranges rest :
  drop_loop_ranges start end' ranges = Some rest ->
  ordered ranges ->
  ordered rest /\ (forall first next, rest = first :: next -> end' <= end_ first).
Proof.
  revert rest. induction ranges as [|first next IH]; intros rest H Hord.
  - injection H as <-. split; [exact I|discriminate].
  - simpl in H. destruct (Z.ltb_spec (end_ first) end').
    + destruct (_ <=? _); [|discriminate].
      apply IH; [exact H|]. apply (ordered_tail _ _ Hord).
    + injection H as <-. split; [exact Hord|]. intros f n [= <- <-]. lia.
Qed.

Lemma AddLoopRange_ordered start end' this this' :
  start < end' ->
  ordered (first_range_ this) -> AddLoopRange start end' this = Some this' ->
  ordered (first_range_ this').
Proof.
  intros Hse Hord H. unfold AddLoopRange in H.
  destruct (first_range_ this) as [|f0 n0] eqn:Hr; [discriminate|].
  destruct (drop_loop_ranges _ _ _) as [rest|] eqn:Hd; [|discriminate].
  cbn [mbind option_bind] in H.
  destruct (drop_loop_ranges_spec _ _ _ _ Hd Hord) as [Hrest Hend].
  destruct rest as [|first next].
  - destruct (new_LiveRange _ _ _) as [ranges|] eqn:Hn; [|discriminate].
    injection H as <-. simpl. apply (new_LiveRange_ordered _ _ _ _ Hn). exact I.
  - injection H as <-.
    apply (set_first_start_ordered start (first :: next)); [exact Hrest|].
    intros f n [= <- <-]. specialize (Hend first next eq_refl). lia.
Qed.

Lemma SetFrom_ordered from this this' :
  (forall first next, first_range_ this = first :: next -> from < end_ first) ->
  ordered (first_range_ this) -> SetFrom from this = Some this' ->
  ordered (first_range_ this').
Proof.
  intros Hfrom Hord H. unfold SetFrom in H.
  destruct (first_range_ this) as [|first next] eqn:Hr; [discriminate|].
  injection H as <-.
  apply (set_first_start_ordered from (first :: next)); [exact Hord|exact Hfrom].
Qed.

(** Both halves of a split chain are ordered, and this interval still
    starts where it did. *)
Lemma split_ranges_ordered position : forall current previous mine theirs,
  split_ranges position previous current = Some (mine, theirs) ->
  ordered current ->
  ordered mine /\ ordered theirs /\
  (forall m mine', mine = m :: mine' ->
     exists c next, current = c :: next /\ start_ m = start_ c).
Proof.
  induction current as [|c next IH]; intros previous mine theirs H Hord; [discriminate|].
  simpl in H. destruct (Z.leb_spec (end_ c) position).
  - destruct (split_ranges position true next) as [[mine0 theirs0]|] eqn:Hs; [|discriminate].
    cbn [mbind option_bind] in H. injection H as <- <-.
    destruct (IH true mine0 theirs0 Hs (ordered_tail _ _ Hord)) as (Hm & Ht & Hh).
    split; [|split; [exact Ht|]].
    + split; [apply (ordered_head _ _ Hord)|split; [|exact Hm]].
      destruct mine0 as [|m mine']; [exact I|].
      destruct (Hh m mine' eq_refl) as (c' & next' & -> & ->).
      destruct Hord as (_ & Hc & _). exact Hc.
    + intros m mine' [= <- <-]. eauto.
  - destruct (Z.leb_spec position (start_ c)).
    + destruct previous; [|discriminate]. injection H as <- <-.
      split; [exact I|split; [exact Hord|discriminate]].
    + unfold new_LiveRange in H.
      destruct (Z.ltb_spec (start_ c) position); [|lia].
      cbn [andb mbind option_bind] in H. injection H as <- <-.
      destruct Hord as (Hc & Hn & Hnext).
      split; [|split].
      * simpl. lia.
      * split; [simpl; lia|split; [|exact Hnext]].
        destruct next; [exact I|]. simpl. exact Hn.
      * intros m mine' [= <- <-]. eauto.
Qed.

Lemma SplitAt_ordered position sibling this this' new_interval :
  ordered (first_range_ this) ->
  SplitAt position sibling this = Some (this', new_interval) ->
  ordered (first_range_ this') /\
  match new_interval with
  | Some i => ordered (first_range_ i)
  | None => True
  end.
Proof.
  intros Hord H. unfold SplitAt in H.
  destruct (next_sibling_ this); [discriminate|].
  destruct (GetStart this) as [start|]; [|discriminate].
  cbn [mbind option_bind] in H.
  destruct (start <? position); [|discriminate].
  destruct (IsDeadAt position this) as [[|]|]; cbn [mbind option_bind] in H;
    [injection H as <- <-; auto| |discriminate].
  destruct (split_ranges _ _ _) as [[mine theirs]|] eqn:Hs; [|discriminate].
  cbn [mbind option_bind] in H. injection H as <- <-.
  destruct (split_ranges_ordered _ _ _ _ _ Hs Hord) as (Hm & Ht & _).
  split; assumption.
Qed.

Lemma call_ordered intervals receiver c intervals' :
  all_ordered intervals -> proper_call intervals receiver c ->
  call intervals receiver c = Some intervals' -> all_ordered intervals'.
Proof.
  unfold all_ordered, call. intros Hall Hp H.
  destruct (intervals !! receiver) as [this|] eqn:Hthis; [|discriminate].
  cbn [mbind option_bind] in H.
  assert (Hord : ordered (first_range_ this)).
  { rewrite Forall_lookup in Hall. apply (Hall receiver this Hthis). }
  destruct c as [instruction|start end'|start end'|from|position]; simpl in Hp.
  - destruct (AddUse instruction this) as [this'|] eqn:E; [|discriminate].
    injection H as <-. apply Forall_insert; [exact Hall|].
    apply (AddUse_ordered _ _ _ Hp Hord E).
  - destruct (AddRange start end' this) as [this'|] eqn:E; [|discriminate].
    injection H as <-. apply Forall_insert; [exact Hall|].
    apply (AddRange_ordered _ _ _ _ Hp Hord E).
  - destruct (AddLoopRange start end' this) as [this'|] eqn:E; [|discriminate].
    injection H as <-. apply Forall_insert; [exact Hall|].
    apply (AddLoopRange_ordered _ _ _ _ Hp Hord E).
  - destruct (SetFrom from this) as [this'|] eqn:E; [|discriminate].
    injection H as <-. apply Forall_insert; [exact Hall|].
    apply (SetFrom_ordered _ _ _ (fun f n => Hp this f n Hthis) Hord E).
  - destruct (SplitAt position (length intervals) this) as [[this' new_interval]|] eqn:E;
      [|discriminate].
    cbn [mbind option_bind] in H. injection H as <-.
    destruct (SplitAt_ordered _ _ _ _ _ Hord E) as [H1 H2].
    apply Forall_app. split; [apply Forall_insert; assumption|].
    destruct new_interval; [repeat constructor; exact H2|constructor].
Qed.

Lemma calls_ordered cs : forall intervals intervals',
  all_ordered intervals -> proper_calls intervals cs ->
  calls intervals cs = Some intervals' -> all_ordered intervals'.
Proof.
  induction cs as [|[receiver c] cs IH]; intros intervals intervals' Hall Hp H.
  - injection H as <-. exact Hall.
  - simpl in H, Hp. destruct Hp as [Hp Hps].
    destruct (call intervals receiver c) as [intervals1|] eqn:E; [|discriminate].
    cbn [mbind option_bind] in H.
    apply (IH intervals1 intervals'); [|exact Hps|exact H].
    apply (call_ordered _ _ _ _ Hall Hp E).
Qed.

(** ** SplitAt *)

Lemma split_ranges_covers position q : forall current previous mine theirs,
  ordered current ->
  split_ranges position previous current = Some (mine, theirs) ->
  covers_from q mine = covers_from q current && (q <? position) /\
  covers_from q theirs = covers_from q current && (position <=? q).
Proof.
  induction current as [|c next IH]; intros previous mine theirs Hord H; [discriminate|].
  assert (Hafter : covers_from q next = false \/ end_ c < q).
  { destruct (covers_from q next) eqn:En; [right|left; reflexivity].
    apply (covers_from_after q c next Hord En). }
  pose proof (ordered_head _ _ Hord) as Hc.
  simpl in H. destruct (Z.leb_spec (end_ c) position).
  - destruct (split_ranges position true next) as [[mine0 theirs0]|] eqn:Hs; [|discriminate].
    cbn [mbind option_bind] in H. injection H as <- <-.
    destruct (IH true mine0 theirs0 (ordered_tail _ _ Hord) Hs) as [Hm Ht].
    simpl. rewrite Hm, Ht.
    destruct Hafter as [En|Hq]; rewrite ?En;
      destruct ((start_ c <=? q) && (q <? end_ c)) eqn:E;
      destruct (covers_from q next); cbn [andb orb]; lia.
  - destruct (Z.leb_spec position (start_ c)).
    + destruct previous; [|discriminate]. injection H as <- <-.
      simpl. destruct Hafter as [En|Hq]; rewrite ?En;
        destruct ((start_ c <=? q) && (q <? end_ c)) eqn:E;
        destruct (covers_from q next); cbn [andb orb]; lia.
    + unfold new_LiveRange in H.
      destruct (Z.ltb_spec (start_ c) position); [|lia].
      cbn [andb mbind option_bind] in H. injection H as <- <-.
      simpl. destruct Hafter as [En|Hq]; rewrite ?En;
        destruct ((start_ c <=? q) && (q <? end_ c)) eqn:E;
        destruct (covers_from q next); cbn [andb orb];
        repeat match goal with
               | |- context [if ?b then _ else _] => destruct b eqn:?
               end; lia.
Qed.

Lemma split_ranges_defined position : forall current previous l,
  ordered current -> last current = Some l -> position < end_ l ->
  (previous = true \/ forall c next, current = c :: next -> start_ c < position) ->
  is_Some (split_ranges position previous current).
Proof.
  induction current as [|c next IH]; intros previous l Hord Hlast Hl Hprev; [discriminate|].
  simpl. destruct (Z.leb_spec (end_ c) position).
  - destruct next as [|n next'].
    + simpl in Hlast. injection Hlast as <-. lia.
    + destruct (IH true l (ordered_tail _ _ Hord)) as [[mine theirs] Hs]; auto.
      rewrite Hs. cbn [mbind option_bind]. eauto.
  - destruct (Z.leb_spec position (start_ c)).
    + destruct Hprev as [->|Hstart]; [eauto|].
      specialize (Hstart c next eq_refl). lia.
    + unfold new_LiveRange. destruct (Z.ltb_spec (start_ c) position); [|lia].
      cbn [andb mbind option_bind]. eauto.
Qed.

(** ** FirstIntersectionWith *)

Lemma IntersectsWith_spec a b :
  start_ a < end_ a -> start_ b < end_ b ->
  (IntersectsWith a b = true <-> exists q, in_range q a /\ in_range q b).
Proof.
  intros Ha Hb. unfold IntersectsWith, in_range. split.
  - intros H. exists (Z.max (start_ a) (start_ b)). lia.
  - intros (q & Hqa & Hqb). lia.
Qed.

(** The ranges of an ordered chain start no earlier than its head. *)
Lemma ordered_in r next n :
  ordered (r :: next) -> In n (r :: next) ->
  start_ r <= start_ n /\ start_ n < end_ n.
Proof.
  intros Hord [<-|Hin].
  - pose proof (ordered_head _ _ Hord). lia.
  - destruct (ordered_after _ _ _ Hord Hin). pose proof (ordered_head _ _ Hord). lia.
Qed.

Lemma no_common_position a b q :
  IntersectsWith a b = false -> in_range q a -> in_range q b -> False.
Proof. unfold IntersectsWith, in_range. lia. Qed.

Lemma advance_both_spec : forall my_range other_range,
  my_range <> [] -> other_range <> [] ->
  ordered my_range -> ordered other_range ->
  (forall a, In a my_range -> 0 <= start_ a) ->
  exists r, advance_both my_range other_range = Some r /\
            first_intersection my_range other_range r.
Proof.
  induction my_range as [|my my_next IHmy]; intros other_range Hmy; [contradiction|].
  induction other_range as [|other other_next IHother]; intros Hother Hom Hoo Hpos;
    [contradiction|].
  clear Hmy Hother.
  pose proof (ordered_head _ _ Hom) as Hmy. pose proof (ordered_head _ _ Hoo) as Hot.
  cbn [advance_both].
  destruct (IntersectsWith my other) eqn:Ei.
  - eexists. split; [reflexivity|]. right.
    assert (H0 : 0 <= start_ my) by (apply Hpos; left; reflexivity).
    unfold IntersectsWith in Ei.
    split; [unfold kNoLifetime; lia|]. split; [|split].
    + apply covers_from_spec. exists my. split; [left; reflexivity|unfold in_range; lia].
    + apply covers_from_spec. exists other. split; [left; reflexivity|unfold in_range; lia].
    + intros q Hq1 Hq2.
      apply covers_from_spec in Hq1 as (a & Ha & Hqa), Hq2 as (b & Hb & Hqb).
      destruct (ordered_in _ _ _ Hom Ha), (ordered_in _ _ _ Hoo Hb).
      unfold in_range in *. lia.
  - destruct (IsBefore my other) eqn:Eb; unfold IsBefore in Eb.
    + (* this range lies before every range of the other interval *)
      assert (Hnone : forall b, In b (other :: other_next) -> IntersectsWith my b = false).
      { intros b Hb. destruct (ordered_in _ _ _ Hoo Hb). unfold IntersectsWith. lia. }
      destruct my_next as [|my' my_next'].
      * eexists. split; [reflexivity|]. left. split; [reflexivity|].
        intros a b [<-|[]] Hb. apply Hnone; exact Hb.
      * destruct (IHmy (other :: other_next)) as (r & Hr & Hspec);
          [discriminate|discriminate|apply (ordered_tail _ _ Hom)|exact Hoo| |].
        { intros a Ha. apply Hpos. right; exact Ha. }
        exists r. split; [exact Hr|].
        destruct Hspec as [[-> Hno]|(Hne & Hc1 & Hc2 & Hmin)].
        -- left. split; [reflexivity|]. intros a b [<-|Ha] Hb; [apply Hnone; exact Hb|].
           apply Hno; assumption.
        -- right. split; [exact Hne|]. split; [|split; [exact Hc2|]].
           ++ change (covers_from r (my :: my' :: my_next'))
                with (if (start_ my <=? r) && (r <? end_ my) then true
                      else covers_from r (my' :: my_next')).
              rewrite Hc1. destruct (_ && _); reflexivity.
           ++ intros q Hq1 Hq2. apply Hmin; [|exact Hq2].
              change (covers_from q (my :: my' :: my_next'))
                with (if (start_ my <=? q) && (q <? end_ my) then true
                      else covers_from q (my' :: my_next')) in Hq1.
              destruct ((start_ my <=? q) && (q <? end_ my)) eqn:E; [|exact Hq1].
              exfalso. apply covers_from_spec in Hq2 as (b & Hb & Hqb).
              apply (no_common_position my b q (Hnone b Hb)); [unfold in_range; lia|exact Hqb].
    + destruct (IsBefore other my) eqn:Eb'; unfold IsBefore in Eb';
        [|unfold IntersectsWith in Ei; lia].
      assert (Hnone : forall a, In a (my :: my_next) -> IntersectsWith a other = false).
      { intros a Ha. destruct (ordered_in _ _ _ Hom Ha). unfold IntersectsWith. lia. }
      destruct other_next as [|other' other_next'].
      * eexists. split; [reflexivity|]. left. split; [reflexivity|].
        intros a b Ha [<-|[]]. apply Hnone; exact Ha.
      * destruct IHother as (r & Hr & Hspec);
          [discriminate|exact Hom|apply (ordered_tail _ _ Hoo)|exact Hpos|].
        exists r. split; [exact Hr|].
        destruct Hspec as [[-> Hno]|(Hne & Hc1 & Hc2 & Hmin)].
        -- left. split; [reflexivity|]. intros a b Ha [<-|Hb]; [apply Hnone; exact Ha|].
           apply Hno; assumption.
        -- right. split; [exact Hne|]. split; [exact Hc1|split].
           ++ change (covers_from r (other :: other' :: other_next'))
                with (if (start_ other <=? r) && (r <? end_ other) then true
                      else covers_from r (other' :: other_next')).
              rewrite Hc2. destruct (_ && _); reflexivity.
           ++ intros q Hq1 Hq2. apply Hmin; [exact Hq1|].
              change (covers_from q (other :: other' :: other_next'))
                with (if (start_ other <=? q) && (q <? end_ other) then true
                      else covers_from q (other' :: other_next')) in Hq2.
              destruct ((start_ other <=? q) && (q <? end_ other)) eqn:E; [|exact Hq2].
              exfalso. apply covers_from_spec in Hq1 as (a & Ha & Hqa).
              apply (no_common_position a other q (Hnone a Ha)); [exact Hqa|unfold in_range; lia].
Qed.

Lemma move_to_start_spec other_start : forall ranges,
  ordered ranges -> covers_from other_start ranges = false ->
  ordered (move_to_start other_start ranges) /\
  (forall a, In a (move_to_start other_start ranges) -> In a ranges) /\
  (forall a, In a ranges ->
     In a (move_to_start other_start ranges) \/ end_ a <= other_start).
Proof.
  induction ranges as [|r next IH]; intros Hord Hc.
  - simpl. repeat split; auto.
  - simpl in Hc. cbn [move_to_start].
    destruct (Z.leb_spec other_start (start_ r)).
    + split; [exact Hord|]. split; auto.
    + destruct ((start_ r <=? other_start) && (other_start <? end_ r)) eqn:E;
        [discriminate|].
      destruct (IH (ordered_tail _ _ Hord) Hc) as (Ho & Hsub & Hrest).
      split; [exact Ho|]. split.
      * intros a Ha. right. apply Hsub; exact Ha.
      * intros a [<-|Ha]; [right; lia|apply Hrest; exact Ha].
Qed.

(** C5: under its two DCHECKs, on chains of non-empty ranges in
    increasing order, [FirstIntersectionWith] returns a result; a result
    other than the sentinel is a position both intervals cover and the
    earliest such position; the sentinel is returned only when no range
    of one interval overlaps a range of the other. *)
Theorem FirstIntersectionWith_earliest_common this other my_start other_start :
  ordered (first_range_ this) -> ordered (first_range_ other) ->
  (forall a, In a (first_range_ this) -> 0 <= start_ a) ->
  GetStart this = Some my_start -> GetStart other = Some other_start ->
  Covers other_start this = false -> my_start <= other_start ->
  exists r, FirstIntersectionWith this other = Some r /\
    (r <> kNoLifetime ->
       Covers r this = true /\ Covers r other = true /\
       forall q, Covers q this = true -> Covers q other = true -> r <= q) /\
    (r = kNoLifetime ->
       forall a b, In a (first_range_ this) -> In b (first_range_ other) ->
                   IntersectsWith a b = false).
Proof.
  intros Hot Hoo Hpos Hms Hos Hcov Hle.
  unfold FirstIntersectionWith, Covers in *. rewrite Hms, Hos.
  cbn [mbind option_bind]. rewrite Hcov.
  destruct (Z.leb_spec my_start other_start) as [_|]; [|lia]. cbn [negb andb].
  destruct (move_to_start_spec other_start _ Hot Hcov) as (Hor & Hsub & Hrest).
  assert (Hother : forall b, In b (first_range_ other) ->
                             other_start <= start_ b /\ start_ b < end_ b).
  { unfold GetStart in Hos. destruct (first_range_ other) as [|o onext] eqn:Eo; [discriminate|].
    injection Hos as <-. intros b Hb. apply (ordered_in _ _ _ Hoo Hb). }
  assert (Hskip : forall a b, In a (first_range_ this) -> end_ a <= other_start ->
                              In b (first_range_ other) -> IntersectsWith a b = false).
  { intros a b Ha Hend Hb. destruct (Hother b Hb).
    assert (start_ a < end_ a).
    { destruct (first_range_ this) as [|t tnext]; [destruct Ha|].
      apply (ordered_in _ _ _ Hot Ha). }
    unfold IntersectsWith. lia. }
  destruct (move_to_start other_start (first_range_ this)) as [|m rest] eqn:Em.
  - exists kNoLifetime. split; [reflexivity|]. split; [contradiction|].
    intros _ a b Ha Hb. destruct (Hrest a Ha) as [[]|Hend]. apply Hskip; assumption.
  - destruct (advance_both_spec (m :: rest) (first_range_ other)) as (r & Hr & Hspec);
      [discriminate| |exact Hor|exact Hoo| |].
    { unfold GetStart in Hos. destruct (first_range_ other); discriminate. }
    { intros a Ha. apply Hpos, Hsub, Ha. }
    exists r. split; [exact Hr|].
    destruct Hspec as [[-> Hno]|(Hne & Hc1 & Hc2 & Hmin)].
    + split; [contradiction|]. intros _ a b Ha Hb.
      destruct (Hrest a Ha) as [Hin|Hend]; [apply Hno|apply Hskip]; assumption.
    + split; [|contradiction]. intros _. split; [|split; [exact Hc2|]].
      * apply covers_from_spec in Hc1 as (a & Ha & Hqa). apply covers_from_spec.
        exists a. split; [apply Hsub; exact Ha|exact Hqa].
      * intros q Hq1 Hq2. apply Hmin; [|exact Hq2].
        apply covers_from_spec in Hq1 as (a & Ha & Hqa).
        apply covers_from_spec in Hq2 as (b & Hb & Hqb).
        apply covers_from_spec. exists a. split; [|exact Hqa].
        destruct (Hrest a Ha) as [Hin|Hend]; [exact Hin|].
        destruct (Hother b Hb). unfold in_range in *. lia.
Qed.

Lemma FirstIntersectionWith_earliest_common_witness :
  exists r,
    FirstIntersectionWith
      (mkLiveInterval [mkLiveRange 0 2; mkLiveRange 5 9; mkLiveRange 12 14] [] None (-1))
      (mkLiveInterval [mkLiveRange 3 5; mkLiveRange 9 13] [] None (-1)) = Some r /\
    r = 12.
Proof.
  destruct (FirstIntersectionWith_earliest_common
              (mkLiveInterval [mkLiveRange 0 2; mkLiveRange 5 9; mkLiveRange 12 14] [] None (-1))
              (mkLiveInterval [mkLiveRange 3 5; mkLiveRange 9 13] [] None (-1)) 0 3)
    as (r & Hr & _).
  - simpl; lia.
  - simpl; lia.
  - simpl. intros a [<-|[<-|[<-|[]]]]; simpl; lia.
  - reflexivity.
  - reflexivity.
  - reflexivity.
  - lia.
  - exists r. split; [exact Hr|]. vm_compute in Hr. congruence.
Defined.

(** C3: for an unsplit interval with an ordered chain and a position
    beyond its start, [SplitAt] returns [nullptr] and changes nothing when
    the last range ends at or before the position; otherwise it returns a
    new interval, and the positions this interval covers afterwards are
    those it covered below the position, the positions the new one covers
    those it covered at or above it. *)
Theorem SplitAt_partitions this position sibling start last :
  ordered (first_range_ this) -> next_sibling_ this = None ->
  GetStart this = Some start -> start < position ->
  last_range_ this = Some last ->
  (end_ last <= position -> SplitAt position sibling this = Some (this, None)) /\
  (position < end_ last ->
   exists this' new_interval,
     SplitAt position sibling this = Some (this', Some new_interval) /\
     next_sibling_ this' = Some sibling /\
     forall q,
       Covers q this' = Covers q this && (q <? position) /\
       Covers q new_interval = Covers q this && (position <=? q)).
Proof.
  intros Hord Hsib Hstart Hpos Hlast.
  unfold SplitAt, IsDeadAt. rewrite Hsib, Hstart, Hlast. cbn [mbind option_bind].
  destruct (Z.ltb_spec start position) as [_|]; [|lia].
  split; intros Hend.
  - destruct (Z.leb_spec (end_ last) position) as [_|]; [reflexivity|lia].
  - destruct (Z.leb_spec (end_ last) position) as [|_]; [lia|].
    destruct (split_ranges_defined position (first_range_ this) false last Hord Hlast Hend)
      as [[mine theirs] Hs].
    { right. intros c next Hc. unfold GetStart in Hstart. rewrite Hc in Hstart.
      injection Hstart as ->. exact Hpos. }
    rewrite Hs. cbn [mbind option_bind]. eexists _, _. split; [reflexivity|].
    split; [reflexivity|]. intros q. unfold Covers. cbn [first_range_].
    apply (split_ranges_covers position q _ false mine theirs Hord Hs).
Qed.

Lemma SplitAt_partitions_witness :
  exists this' new_interval,
    SplitAt 7 1
      (mkLiveInterval [mkLiveRange 0 2; mkLiveRange 5 9; mkLiveRange 12 14] [] None (-1))
    = Some (this', Some new_interval) /\
    first_range_ this' = [mkLiveRange 0 2; mkLiveRange 5 7] /\
    first_range_ new_interval = [mkLiveRange 7 9; mkLiveRange 12 14].
Proof.
  destruct (SplitAt_partitions
              (mkLiveInterval [mkLiveRange 0 2; mkLiveRange 5 9; mkLiveRange 12 14] [] None (-1))
              7 1%nat 0 (mkLiveRange 12 14)) as [_ H].
  - simpl; lia.
  - reflexivity.
  - reflexivity.
  - lia.
  - reflexivity.
  - destruct H as (this' & new_interval & Hs & _); [simpl; lia|].
    exists this', new_interval. split; [exact Hs|].
    vm_compute in Hs. injection Hs as <- <-. split; reflexivity.
Defined.

(** C2 as stated fails: four calls that pass every DCHECK leave one
    interval with the ranges [5,7), [100,3) and [6,8); position 6 lies in
    two of them. *)
Lemma DCHECKs_do_not_keep_ranges_disjoint :
  ~ (forall cs intervals,
       calls [new_LiveInterval] cs = Some intervals ->
       Forall (fun iv => pairwise_disjoint (first_range_ iv)) intervals).
Proof.
  intros H.
  specialize (H [(0%nat, CallAddRange 6 8); (0%nat, CallAddRange 2 3);
                 (0%nat, CallSetFrom 100); (0%nat, CallAddRange 5 7)]
                _ eq_refl).
  apply Forall_inv in H.
  apply (H 0%nat 2%nat (mkLiveRange 5 7) (mkLiveRange 6 8) 6);
    [discriminate|reflexivity|reflexivity|].
  unfold in_range; simpl; lia.
Qed.

(** C2, amended: when moreover every call gives a range a start below
    its end, every interval of the value, siblings included, keeps a chain
    in which each range is non-empty and ends strictly before every later
    range starts; so no position lies in two ranges. *)
Theorem calls_keep_ranges_ordered cs intervals intervals' :
  Forall (fun iv => ordered (first_range_ iv)) intervals ->
  proper_calls intervals cs ->
  calls intervals cs = Some intervals' ->
  Forall (fun iv => increasing_disjoint (first_range_ iv)
                    /\ pairwise_disjoint (first_range_ iv)) intervals'.
Proof.
  intros Hall Hp H. pose proof (calls_ordered cs _ _ Hall Hp H) as Hord.
  eapply Forall_impl; [exact Hord|]. intros iv Hiv. cbv beta in Hiv.
  pose proof (ordered_increasing _ Hiv) as Hinc.
  split; [exact Hinc|apply increasing_pairwise_disjoint; exact Hinc].
Qed.

Lemma calls_keep_ranges_ordered_witness :
  exists intervals',
    calls [new_LiveInterval]
      [(0%nat, CallAddRange 10 20); (0%nat, CallAddRange 2 6);
       (0%nat, CallSetFrom 3); (0%nat, CallSplitAt 4); (1%nat, CallSplitAt 15)]
    = Some intervals' /\
    Forall (fun iv => increasing_disjoint (first_range_ iv)
                      /\ pairwise_disjoint (first_range_ iv)) intervals'.
Proof.
  eexists. split; [vm_compute; reflexivity|].
  apply (calls_keep_ranges_ordered
           [(0%nat, CallAddRange 10 20); (0%nat, CallAddRange 2 6);
            (0%nat, CallSetFrom 3); (0%nat, CallSplitAt 4); (1%nat, CallSplitAt 15)]
           [new_LiveInterval]).
  - repeat constructor.
  - simpl. repeat split; try lia.
    intros this first next [= <-] [= <- <-]. simpl. lia.
  - vm_compute. reflexivity.
Defined.

End LivenessFacts.

Module BuilderFacts.
Import Builder.

Lemma bindM_Some {St A B} (c : M St A) (k : A -> M St B) st b st' :
  bindM c k st = Some (b, st') <->
  exists a st1, c st = Some (a, st1) /\ k a st1 = Some (b, st').
Proof.
  unfold bindM. split.
  - destruct (c st) as [[a st1]|]; [|discriminate]. eauto.
  - intros (a & st1 & -> & H). exact H.
Qed.

Lemma bindM_assoc {St A B C} (c : M St A) (k : A -> M St B) (h : B -> M St C) st :
  bindM (bindM c k) h st = bindM c (fun a => bindM (k a) h) st.
Proof. unfold bindM. destruct (c st) as [[a st1]|]; reflexivity. Qed.

Lemma bindM_ext {St A B} (c : M St A) (k k' : A -> M St B) st :
  (forall a st1, k a st1 = k' a st1) -> bindM c k st = bindM c k' st.
Proof. intros H. unfold bindM. destruct (c st) as [[a st1]|]; [apply H|reflexivity]. Qed.

Lemma bindM_eq {St A B} (c : M St A) (k : A -> M St B) st a st1 :
  c st = Some (a, st1) -> bindM c k st = k a st1.
Proof. unfold bindM. intros ->. reflexivity. Qed.

Section Build.

Variable dex_compilation_unit_ : option DexCompilationUnit.
Variable return_type_descriptor : Z -> Z.

Local Abbreviation AnalyzeDexInstruction := (AnalyzeDexInstruction return_type_descriptor).
Local Abbreviation analyze_from := (analyze_from return_type_descriptor).
Local Abbreviation meets_unlisted := (meets_unlisted return_type_descriptor).
Local Abbreviation InitializeParameters := (InitializeParameters dex_compilation_unit_).
Local Abbreviation BuildGraph := (BuildGraph dex_compilation_unit_ return_type_descriptor).
Local Abbreviation BuildGraph_setup := (BuildGraph_setup dex_compilation_unit_).

(** ** AnalyzeDexInstruction *)

Lemma AnalyzeDexInstruction_dead instruction dex_offset st :
  current_block_ st = None ->
  AnalyzeDexInstruction instruction dex_offset st = Some (true, st).
Proof.
  intros H. unfold Builder.AnalyzeDexInstruction, bindM, gets. rewrite H. reflexivity.
Qed.

Lemma AnalyzeDexInstruction_unlisted instruction dex_offset st raw :
  is_Some (current_block_ st) -> Opcode instruction = UNLISTED raw ->
  AnalyzeDexInstruction instruction dex_offset st = Some (false, st).
Proof.
  intros [block H] Hop. unfold Builder.AnalyzeDexInstruction, bindM, gets.
  rewrite H, Hop. reflexivity.
Qed.

(** ** The loop of BuildGraph *)

Lemma analyze_from_meets_unlisted size : forall insns dex_offset st,
  meets_unlisted size insns dex_offset st ->
  exists st', analyze_from size insns dex_offset st = Some (false, st').
Proof.
  induction insns as [|instruction insns IH]; intros dex_offset st [Hlt H];
    [destruct H|].
  cbn [Builder.analyze_from]. destruct (Z.ltb_spec dex_offset size) as [_|]; [|lia].
  destruct (MaybeUpdateCurrentBlock dex_offset st) as [[[] st1]|] eqn:Hm; [|destruct H].
  rewrite (bindM_eq _ _ _ _ _ Hm).
  destruct H as [[Hcur [raw Hraw]]|H].
  - rewrite (bindM_eq _ _ _ _ _ (AnalyzeDexInstruction_unlisted _ _ _ _ Hcur Hraw)).
    eauto.
  - destruct (AnalyzeDexInstruction instruction dex_offset st1) as [[[|] st2]|] eqn:Ha;
      try destruct H.
    rewrite (bindM_eq _ _ _ _ _ Ha). apply IH. exact H.
Qed.

(** ** BuildGraph *)

Lemma BuildGraph_finish_graph st r st' :
  BuildGraph_finish st = Some (r, st') -> is_Some r.
Proof.
  unfold BuildGraph_finish. intros H.
  repeat (apply bindM_Some in H as (? & ? & _ & H)).
  injection H as <- <-. eauto.
Qed.

Lemma BuildGraph_unfold code_item st :
  BuildGraph code_item st =
  if negb (CanHandleCodeItem code_item) then Some (None, st)
  else
    match BuildGraph_setup code_item st with
    | None => None
    | Some (ok, st1) =>
      if negb ok then Some (None, st1)
      else
        match analyze_from (insns_size_in_code_units_ code_item)
                           (insns_ code_item) 0 st1 with
        | None => None
        | Some (ok, st2) =>
          if negb ok then Some (None, st2) else BuildGraph_finish st2
        end
    end.
Proof.
  transitivity
    ((if negb (CanHandleCodeItem code_item) then ret None
      else bindM (BuildGraph_setup code_item) (fun ok =>
             if negb ok then ret None
             else bindM (analyze_from (insns_size_in_code_units_ code_item)
                                      (insns_ code_item) 0) (fun ok =>
                    if negb ok then ret None else BuildGraph_finish))) st).
  - unfold Builder.BuildGraph, Builder.BuildGraph_setup.
    destruct (negb (CanHandleCodeItem code_item)); [reflexivity|].
    repeat first [reflexivity | rewrite bindM_assoc | apply bindM_ext; intros ? ?].
  - destruct (negb (CanHandleCodeItem code_item)); [reflexivity|].
    unfold bindM at 1. destruct (Builder.BuildGraph_setup _ _ _) as [[[|] st1]|];
      try reflexivity.
    cbn [negb]. unfold bindM at 1.
    destruct (Builder.analyze_from _ _ _ _ _) as [[[|] st2]|]; reflexivity.
Qed.

(** ** InitializeParameters *)

Lemma initialize_parameters_from_rejects shorty : forall remaining pos li pi st r st',
  0 <= pos ->
  (exists k c, (k < remaining)%nat /\ shorty !! (Z.to_nat pos + k)%nat = Some c
               /\ is_FDJ c = true) ->
  initialize_parameters_from shorty remaining pos li pi st = Some (r, st') ->
  r = false.
Proof.
  induction remaining as [|remaining IH]; intros pos li pi st r st' Hpos (k & c & Hk & Hc & Hfdj) H;
    [lia|].
  cbn [initialize_parameters_from] in H.
  apply bindM_Some in H as (c0 & st1 & Hat & H).
  destruct ((c0 =? char_F) || (c0 =? char_D) || (c0 =? char_J)) eqn:E.
  - injection H as <- <-. reflexivity.
  - apply bindM_Some in H as ([] & st2 & _ & H).
    apply (IH (pos + 1) (li + 1) (pi + 1) st2 r st'); [lia| |exact H].
    destruct k as [|k].
    + exfalso. unfold shorty_at in Hat. rewrite Nat.add_0_r in Hc. rewrite Hc in Hat.
      injection Hat as <- <-. unfold is_FDJ in Hfdj. congruence.
    + exists k, c. split; [lia|]. split; [|exact Hfdj].
      rewrite <- Hc. f_equal. lia.
Qed.

Lemma parameter_registers_length parameters :
  Z.of_nat (length parameters) <= parameter_registers parameters.
Proof.
  induction parameters as [|c parameters IH]; simpl parameter_registers; simpl length; [lia|].
  destruct ((c =? char_D) || (c =? char_J)); lia.
Qed.

Lemma InitializeParameters_rejects unit number_of_parameters st r st' :
  dex_compilation_unit_ = Some unit ->
  (exists c, In c (declared_parameters unit) /\ is_FDJ c = true) ->
  number_of_parameters
  = (if IsStatic unit then 0 else 1) + parameter_registers (declared_parameters unit) ->
  number_of_parameters < 2 ^ 16 ->
  InitializeParameters number_of_parameters st = Some (r, st') ->
  r = false.
Proof.
  intros Hunit (c & Hin & Hfdj) Hn Hlt H.
  unfold Builder.InitializeParameters in H. rewrite Hunit in H.
  apply list_elem_of_In, list_elem_of_lookup in Hin as [j Hj].
  pose proof (parameter_registers_length (declared_parameters unit)) as Hlen.
  assert (Hjlt : (j < length (declared_parameters unit))%nat)
    by (apply lookup_lt_is_Some; eauto).
  unfold declared_parameters in Hj. rewrite lookup_drop in Hj.
  apply bindM_Some in H as ([] & st1 & _ & H).
  apply bindM_Some in H as (locals & st2 & _ & H).
  destruct (IsStatic unit); cbn [negb] in H.
  - eapply initialize_parameters_from_rejects in H; [exact H|lia|].
    exists j, c. split; [lia|]. split; [exact Hj|exact Hfdj].
  - apply bindM_Some in H as ([] & st3 & _ & H).
    eapply initialize_parameters_from_rejects in H; [exact H|lia|].
    exists j, c. split; [|split; [exact Hj|exact Hfdj]].
    unfold u16. rewrite Z.mod_small by lia. lia.
Qed.

Lemma BuildGraph_setup_result code_item st ok st1 :
  BuildGraph_setup code_item st = Some (ok, st1) ->
  exists st0, InitializeParameters (ins_size_ code_item) st0 = Some (ok, st1).
Proof.
  unfold Builder.BuildGraph_setup. intros H.
  repeat (apply bindM_Some in H as (? & ? & _ & H)). eauto.
Qed.

(** ** Dead code *)

Lemma analyze_from_dead size : forall insns dex_offset st,
  current_block_ st = None ->
  no_block_starts size insns dex_offset (branch_targets_ st) ->
  analyze_from size insns dex_offset st = Some (true, st).
Proof.
  induction insns as [|instruction insns IH]; intros dex_offset st Hcur Hno;
    cbn [Builder.analyze_from]; cbn [no_block_starts] in Hno;
    (destruct (Z.ltb_spec dex_offset size) as [Hlt|]; [|reflexivity]);
    specialize (Hno Hlt); [destruct Hno|].
  destruct Hno as (Hpos & Htarget & Hno).
  assert (Hm : MaybeUpdateCurrentBlock dex_offset st = Some (tt, st)).
  { unfold MaybeUpdateCurrentBlock, FindBlockStartingAt, Get, bindM, DCHECK, gets.
    destruct (Z.leb_spec 0 dex_offset) as [_|]; [|lia]. cbn [ret].
    destruct (Z.ltb_spec dex_offset 0) as [|_]; [lia|]. rewrite Htarget. reflexivity. }
  rewrite (bindM_eq _ _ _ _ _ Hm).
  rewrite (bindM_eq _ _ _ _ _ (AnalyzeDexInstruction_dead instruction dex_offset st Hcur)).
  apply IH; assumption.
Qed.

End Build.

(** C4: [BuildGraph] returns [nullptr], leaving the builder untouched,
    when the code item has exception handlers; it returns [nullptr] when
    a declared parameter has shorty ['F'], ['D'] or ['J'] and the
    statements before the loop abort on no check; and it returns
    [nullptr] when its loop comes to an opcode with no translation rule
    while a block is current.  In none of these cases is a graph
    returned. *)
Theorem BuildGraph_unsupported dex_compilation_unit_ return_type_descriptor
    code_item st :
  (0 < tries_size_ code_item ->
   BuildGraph dex_compilation_unit_ return_type_descriptor code_item st
   = Some (None, st)) /\
  (forall unit,
     dex_compilation_unit_ = Some unit ->
     (exists c, In c (declared_parameters unit) /\ is_FDJ c = true) ->
     ins_size_ code_item
     = (if IsStatic unit then 0 else 1)
       + parameter_registers (declared_parameters unit) ->
     ins_size_ code_item < 2 ^ 16 ->
     is_Some (BuildGraph_setup dex_compilation_unit_ code_item st) ->
     exists st',
       BuildGraph dex_compilation_unit_ return_type_descriptor code_item st
       = Some (None, st')) /\
  (forall st1,
     BuildGraph_setup dex_compilation_unit_ code_item st = Some (true, st1) ->
     meets_unlisted return_type_descriptor
       (insns_size_in_code_units_ code_item) (insns_ code_item) 0 st1 ->
     exists st',
       BuildGraph dex_compilation_unit_ return_type_descriptor code_item st
       = Some (None, st')).
Proof.
  split; [|split].
  - intros Htries. rewrite BuildGraph_unfold. unfold CanHandleCodeItem.
    destruct (Z.ltb_spec 0 (tries_size_ code_item)); [reflexivity|lia].
  - intros unit Hunit Hfdj Hins Hlt [[ok st1] Hsetup].
    rewrite BuildGraph_unfold, Hsetup.
    destruct (negb (CanHandleCodeItem code_item)); [eauto|].
    destruct (BuildGraph_setup_result _ _ _ _ _ Hsetup) as [st0 Hp].
    rewrite (InitializeParameters_rejects _ _ _ _ _ _ Hunit Hfdj Hins Hlt Hp).
    cbn [negb]. eauto.
  - intros st1 Hsetup Hmeets.
    rewrite BuildGraph_unfold, Hsetup.
    destruct (negb (CanHandleCodeItem code_item)); [eauto|]. cbn [negb].
    destruct (analyze_from_meets_unlisted _ _ _ _ _ Hmeets) as [st2 ->].
    cbn [negb]. eauto.
Qed.

Lemma BuildGraph_unsupported_witness :
  BuildGraph (Some (mkDexCompilationUnit [86; 73; 70] true)) (fun _ => 86)
    (mkCodeItem 3 2 0 1 1 [mkInstruction RETURN_VOID 1 false 0 0 0 0 []])
    new_HGraphBuilder
  = Some (None, new_HGraphBuilder)
  /\ (exists st',
        BuildGraph (Some (mkDexCompilationUnit [86; 73; 70] true)) (fun _ => 86)
          (mkCodeItem 3 2 0 0 1 [mkInstruction RETURN_VOID 1 false 0 0 0 0 []])
          new_HGraphBuilder
        = Some (None, st'))
  /\ (exists st',
        BuildGraph None (fun _ => 86)
          (mkCodeItem 1 0 0 0 2 [mkInstruction (UNLISTED 255) 1 false 0 0 0 0 [];
                                 mkInstruction RETURN_VOID 1 false 0 0 0 0 []])
          new_HGraphBuilder
        = Some (None, st')).
Proof.
  split; [|split].
  - apply (BuildGraph_unsupported (Some (mkDexCompilationUnit [86; 73; 70] true))
             (fun _ => 86)
             (mkCodeItem 3 2 0 1 1 [mkInstruction RETURN_VOID 1 false 0 0 0 0 []])
             new_HGraphBuilder).
    simpl; lia.
  - apply (BuildGraph_unsupported (Some (mkDexCompilationUnit [86; 73; 70] true))
             (fun _ => 86)
             (mkCodeItem 3 2 0 0 1 [mkInstruction RETURN_VOID 1 false 0 0 0 0 []])
             new_HGraphBuilder) with (unit := mkDexCompilationUnit [86; 73; 70] true).
    + reflexivity.
    + exists 70. split; [simpl; auto|reflexivity].
    + reflexivity.
    + simpl; lia.
    + vm_compute. eauto.
  - eapply (BuildGraph_unsupported None (fun _ => 86)
              (mkCodeItem 1 0 0 0 2 [mkInstruction (UNLISTED 255) 1 false 0 0 0 0 [];
                                     mkInstruction RETURN_VOID 1 false 0 0 0 0 []])
              new_HGraphBuilder).
    + vm_compute. reflexivity.
    + cbn [meets_unlisted insns_size_in_code_units_ insns_]. split; [lia|].
      vm_compute. left. split; eauto.
Defined.

(** C10: with no current block [AnalyzeDexInstruction] returns [true]
    and leaves the builder as it is, so nothing is added to the graph;
    the loop of [BuildGraph] runs over instructions none of which starts a
    block without returning [nullptr], whatever their opcodes; and a
    method made of a [return-void] followed by an instruction, not a
    branch, with no translation rule yields a graph. *)
Theorem dead_code_is_skipped return_type_descriptor :
  (forall instruction dex_offset st,
     current_block_ st = None ->
     AnalyzeDexInstruction return_type_descriptor instruction dex_offset st
     = Some (true, st)) /\
  (forall size insns dex_offset st,
     current_block_ st = None ->
     no_block_starts size insns dex_offset (branch_targets_ st) ->
     analyze_from return_type_descriptor size insns dex_offset st
     = Some (true, st)) /\
  (forall raw target a b c args,
     exists g st',
       BuildGraph (Some (mkDexCompilationUnit [char_V] true)) return_type_descriptor
         (mkCodeItem 1 0 0 0 2
            [mkInstruction RETURN_VOID 1 false 0 0 0 0 [];
             mkInstruction (UNLISTED raw) 1 false target a b c args])
         new_HGraphBuilder
       = Some (Some g, st')).
Proof.
  split; [|split].
  - apply AnalyzeDexInstruction_dead.
  - apply analyze_from_dead.
  - intros raw target a b c args. eexists _, _. vm_compute. reflexivity.
Qed.

Lemma dead_code_is_skipped_witness :
  AnalyzeDexInstruction (fun _ => 86)
    (mkInstruction (UNLISTED 255) 1 false 0 0 0 0 []) 1 new_HGraphBuilder
  = Some (true, new_HGraphBuilder).
Proof.
  apply (dead_code_is_skipped (fun _ => 86)). reflexivity.
Defined.

End BuilderFacts.

Module CodegenFacts.
Import Arm64 Arm64Facts.

Lemma u16_range x : 0 <= u16 x < 2 ^ 16.
Proof. unfold u16. apply Z.mod_pos_bound. lia. Qed.

(** [(uint16_t)(bits + 1) <= 1] holds of 0 and of 0xffff only. *)
Lemma fast_bits x :
  0 <= x < 2 ^ 16 -> (u16 (x + 1) <=? 1) = (x =? 0) || (x =? 0xffff).
Proof.
  intros Hx. unfold u16. change (2 ^ 16) with 65536 in *.
  destruct (Z.eq_dec x 65535) as [->|Hne]; [reflexivity|].
  rewrite Z.mod_small by lia. lia.
Qed.

Lemma Low16Bits_nonzero value :
  Low16Bits value <> 0 -> reg_value false (u64 value) <> 0.
Proof.
  unfold Low16Bits, reg_value, u16, u32, u64.
  change (2 ^ 64) with 18446744073709551616. change (2 ^ 32) with 4294967296.
  change (2 ^ 16) with 65536.
  intros H Hc. apply H. Z.div_mod_to_equations. lia.
Qed.

Lemma take_free_spec ts r ts' :
  take_free ts = Some (r, ts') -> In (mkRegisterInfo r false) ts.
Proof.
  revert r ts'. induction ts as [|t ts IH]; intros r ts' H; [discriminate|].
  simpl in H. destruct t as [reg used]. simpl in H. destruct used.
  - destruct (take_free ts) as [[r0 ts0]|] eqn:E; [|discriminate].
    injection H as <- _. right. eapply IH. reflexivity.
  - injection H as <- _. left. reflexivity.
Qed.

Lemma FreeTemp_frees ts r :
  temp_is_free
    (map (fun t => if temp_reg t =? r then mkRegisterInfo (temp_reg t) false else t) ts)
    r.
Proof.
  intros t Ht Hr. apply in_map_iff in Ht as (t0 & <- & _).
  destruct (Z.eqb_spec (temp_reg t0) r) as [E|E]; [reflexivity|].
  contradiction.
Qed.

(** A temporary that was taken and is freed is in the pool, and is the
    one taken next. *)
Lemma take_free_again ts r ts' :
  take_free ts = Some (r, ts') ->
  let freed :=
    map (fun t => if temp_reg t =? r then mkRegisterInfo (temp_reg t) false else t) ts' in
  In (mkRegisterInfo r false) freed /\ exists ts'', take_free freed = Some (r, ts'').
Proof.
  revert r ts'. induction ts as [|t ts IH]; intros r ts' H; [discriminate|].
  simpl in H. destruct t as [reg used]. simpl in H. destruct used.
  - destruct (take_free ts) as [[r0 ts0]|] eqn:E; [|discriminate].
    injection H as <- <-. destruct (IH _ _ eq_refl) as [Hin [ts'' Htake]].
    cbn [map temp_reg]. split; [right; exact Hin|].
    destruct (Z.eqb_spec reg r0) as [->|Hne].
    + simpl. eauto.
    + simpl. rewrite Htake. eauto.
  - injection H as <- <-. cbn [map temp_reg]. rewrite Z.eqb_refl.
    split; [left; reflexivity|]. simpl. eauto.
Qed.

Section Codegen.

#[local] Set Default Proof Using "Type".

Variables rwzr rwsp rs_rA64_SP : Z.
Variable GetReg : Z -> Z.
Variables IsFloat IsDouble IsSingle Is64Bit : Z -> bool.
Variables RegStorage_IsFloat RegStorage_IsDouble RegStorage_IsSingle : Z -> bool.
Variables literal_pool literal : Type.
Variable ScanLiteralPool : literal_pool -> Z -> Z -> option literal.
Variable AddWordData : literal_pool -> Z -> literal * literal_pool.
Variable ScanLiteralPoolWide : literal_pool -> Z -> Z -> option literal.
Variable AddWideData : literal_pool -> Z -> Z -> literal * literal_pool.

Local Abbreviation Codegen := (Codegen literal_pool literal).
Local Abbreviation LIR := (LIR literal).
Local Abbreviation LoadFPConstantValue :=
  (LoadFPConstantValue rwzr RegStorage_IsSingle literal_pool literal
     ScanLiteralPool AddWordData).
Local Abbreviation LoadFPConstantValueWide :=
  (LoadFPConstantValueWide rwzr RegStorage_IsFloat RegStorage_IsDouble
     literal_pool literal ScanLiteralPoolWide AddWideData).
Local Abbreviation LoadConstantNoClobber :=
  (LoadConstantNoClobber rwzr rwsp GetReg IsFloat RegStorage_IsSingle
     literal_pool literal ScanLiteralPool AddWordData).
Local Abbreviation LoadConstant :=
  (LoadConstant rwzr rwsp GetReg IsFloat RegStorage_IsSingle
     literal_pool literal ScanLiteralPool AddWordData).
Local Abbreviation LoadBaseIndexed :=
  (LoadBaseIndexed GetReg IsFloat IsDouble IsSingle literal_pool literal).
Local Abbreviation StoreBaseIndexed :=
  (StoreBaseIndexed GetReg IsFloat IsDouble IsSingle literal_pool literal).
Local Abbreviation LoadBaseDispBody :=
  (LoadBaseDispBody rwzr rwsp rs_rA64_SP GetReg IsFloat IsDouble IsSingle Is64Bit
     RegStorage_IsSingle literal_pool literal ScanLiteralPool AddWordData).
Local Abbreviation StoreBaseDispBody :=
  (StoreBaseDispBody rwzr rwsp rs_rA64_SP GetReg IsFloat IsDouble IsSingle Is64Bit
     RegStorage_IsSingle literal_pool literal ScanLiteralPool AddWordData).
Local Abbreviation NewLIR := (NewLIR literal_pool literal).
Local Abbreviation annotated := (annotated rs_rA64_SP).

Implicit Types (cg : Codegen) (lir : LIR).

Lemma NewLIR_eq cg opcode op0 op1 op2 op3 :
  NewLIR opcode op0 op1 op2 op3 cg
  = Some (new_lir cg opcode op0 op1 op2 op3,
          with_lirs cg (lir_list cg ++ [new_lir cg opcode op0 op1 op2 op3])).
Proof. reflexivity. Qed.

(** ** Floating-point zero *)

Lemma LoadFPConstantValue_zero r_dest cg :
  RegStorage_IsSingle r_dest = true ->
  LoadFPConstantValue r_dest 0 cg
  = Some (new_lir cg (Op kA64Fmov2sw) r_dest rwzr 0 0,
          with_lirs cg (lir_list cg ++ [new_lir cg (Op kA64Fmov2sw) r_dest rwzr 0 0])).
Proof.
  intros H. unfold Arm64.LoadFPConstantValue, bindM, DCHECK. rewrite H. reflexivity.
Qed.

Lemma LoadFPConstantValueWide_zero r_dest cg :
  RegStorage_IsDouble r_dest = true ->
  LoadFPConstantValueWide r_dest 0 cg
  = Some (new_lir cg (Op kA64Fmov2Sx) r_dest rwzr 0 0,
          with_lirs cg (lir_list cg ++ [new_lir cg (Op kA64Fmov2Sx) r_dest rwzr 0 0])).
Proof.
  intros H. unfold Arm64.LoadFPConstantValueWide, bindM, DCHECK. rewrite H. reflexivity.
Qed.

(** ** Integer constants *)

(** The instructions [LoadConstantNoClobber] emits for a core register. *)
Lemma LoadConstantNoClobber_cases r_dest value cg :
  - 2 ^ 31 <= value < 2 ^ 31 ->
  IsFloat r_dest = false -> GetReg r_dest <> rwsp -> GetReg r_dest <> rwzr ->
  let high_bits := High16Bits value in
  let low_bits := Low16Bits value in
  exists res emitted,
    LoadConstantNoClobber r_dest value cg
    = Some (res, with_lirs cg (lir_list cg ++ emitted)) /\
    if uniform_half low_bits || uniform_half high_bits then
      emitted = [res] /\
      (low_bits = high_bits ->
       res = new_lir cg (Op (if low_bits =? 0 then kA64Mov2rr else kA64Mvn2rr))
                     (GetReg r_dest) rwzr 0 0)
    else
      exists log_imm,
        EncodeLogicalImmediate false (u64 value) = Some log_imm /\
        if 0 <=? log_imm then
          res = new_lir cg (Op kA64Orr3Rrl) (GetReg r_dest) rwzr log_imm 0 /\
          emitted = [res]
        else
          res = new_lir cg (Op kA64Movz3rdM) (GetReg r_dest) low_bits 0 0 /\
          emitted = [res; new_lir cg (Op kA64Movk3rdM) (GetReg r_dest) high_bits 1 0].
Proof.
  intros Hv Hfloat Hsp Hzr high_bits low_bits.
  unfold Arm64.LoadConstantNoClobber, Arm64.NewLIR2, Arm64.NewLIR3. rewrite Hfloat.
  unfold bindM at 1. unfold DCHECK at 1.
  destruct (Z.eqb_spec (GetReg r_dest) rwsp) as [|_]; [contradiction|]. cbn [negb ret].
  unfold bindM at 1. unfold DCHECK at 1.
  destruct (Z.eqb_spec (GetReg r_dest) rwzr) as [|_]; [contradiction|]. cbn [negb ret].
  fold high_bits low_bits.
  assert (Hlow : 0 <= low_bits < 2 ^ 16) by apply u16_range.
  assert (Hhigh : 0 <= high_bits < 2 ^ 16) by apply u16_range.
  rewrite (fast_bits low_bits Hlow), (fast_bits high_bits Hhigh).
  fold (uniform_half low_bits) (uniform_half high_bits).
  destruct (uniform_half low_bits || uniform_half high_bits) eqn:Efast.
  - destruct (Z.eqb_spec low_bits high_bits) as [Heq|Hne].
    + eexists _, _. rewrite NewLIR_eq. split; [reflexivity|]. split; [reflexivity|].
      intros _. reflexivity.
    + destruct (uniform_half high_bits) eqn:Eh.
      * destruct (negb (high_bits =? 0)); eexists _, _;
          (split; [apply NewLIR_eq|]); (split; [reflexivity|contradiction]).
      * destruct (negb (low_bits =? 0)); eexists _, _;
          (split; [apply NewLIR_eq|]); (split; [reflexivity|contradiction]).
  - apply orb_false_elim in Efast as [El Eh].
    assert (Hnz : low_bits <> 0).
    { unfold uniform_half in El. apply orb_false_elim in El as [El _].
      apply Z.eqb_neq in El. exact El. }
    destruct (EncodeLogicalImmediate_defined false (u64 value)) as [log_imm Henc].
    rewrite Henc. destruct (0 <=? log_imm) eqn:Epos.
    + eexists _, _. split; [apply NewLIR_eq|]. exists log_imm.
      split; [reflexivity|]. rewrite Epos. split; reflexivity.
    + eexists _, _. split.
      * unfold bindM. rewrite !NewLIR_eq. unfold ret, with_lirs. cbn.
        rewrite <- app_assoc. reflexivity.
      * exists log_imm. split; [reflexivity|]. rewrite Epos. split; reflexivity.
Qed.

(** C7: for a destination that is not a floating-point register,
    [LoadConstantNoClobber] emits exactly one instruction when the low or
    the high half of the value is all zeros or all ones, a move or an
    invert from the zero register when moreover the halves are equal;
    otherwise the logical-immediate encoder is run in 32-bit mode and,
    when it succeeds, one ORR of the zero register with the immediate is
    emitted, else a move of the low half followed by an insert of the
    high half. *)
Theorem LoadConstantNoClobber_integer r_dest value cg :
  - 2 ^ 31 <= value < 2 ^ 31 ->
  IsFloat r_dest = false -> GetReg r_dest <> rwsp -> GetReg r_dest <> rwzr ->
  let high_bits := High16Bits value in
  let low_bits := Low16Bits value in
  exists res emitted,
    LoadConstantNoClobber r_dest value cg
    = Some (res, with_lirs cg (lir_list cg ++ emitted)) /\
    if uniform_half low_bits || uniform_half high_bits then
      emitted = [res] /\
      (low_bits = high_bits ->
       res = new_lir cg (Op (if low_bits =? 0 then kA64Mov2rr else kA64Mvn2rr))
                     (GetReg r_dest) rwzr 0 0)
    else
      exists log_imm,
        EncodeLogicalImmediate false (u64 value) = Some log_imm /\
        if 0 <=? log_imm then
          res = new_lir cg (Op kA64Orr3Rrl) (GetReg r_dest) rwzr log_imm 0 /\
          emitted = [res]
        else
          res = new_lir cg (Op kA64Movz3rdM) (GetReg r_dest) low_bits 0 0 /\
          emitted = [res; new_lir cg (Op kA64Movk3rdM) (GetReg r_dest) high_bits 1 0].
Proof. exact (LoadConstantNoClobber_cases r_dest value cg). Qed.

(** C8: for the constant 0, [LoadFPConstantValue] and
    [LoadFPConstantValueWide] emit exactly one instruction, a move from
    the zero register with no immediate operand, and leave the literal
    pool as it was, whatever the pool and the functions that scan it and
    add to it are. *)
Theorem LoadFPConstantValue_zero_moves_zero_register r_dest cg :
  (RegStorage_IsSingle r_dest = true ->
   let res := new_lir cg (Op kA64Fmov2sw) r_dest rwzr 0 0 in
   exists cg',
     LoadFPConstantValue r_dest 0 cg = Some (res, cg') /\
     lir_list cg' = lir_list cg ++ [res] /\
     literal_list_ cg' = literal_list_ cg) /\
  (RegStorage_IsDouble r_dest = true ->
   let res := new_lir cg (Op kA64Fmov2Sx) r_dest rwzr 0 0 in
   exists cg',
     LoadFPConstantValueWide r_dest 0 cg = Some (res, cg') /\
     lir_list cg' = lir_list cg ++ [res] /\
     literal_list_ cg' = literal_list_ cg).
Proof.
  split; intros H res; eexists.
  - split; [apply LoadFPConstantValue_zero; exact H|]. split; reflexivity.
  - split; [apply LoadFPConstantValueWide_zero; exact H|]. split; reflexivity.
Qed.

(** ** Loads and stores at a displacement *)

Lemma LoadConstantNoClobber_emits r_dest value cg :
  - 2 ^ 31 <= value < 2 ^ 31 ->
  IsFloat r_dest = false -> GetReg r_dest <> rwsp -> GetReg r_dest <> rwzr ->
  exists res emitted,
    LoadConstantNoClobber r_dest value cg
    = Some (res, with_lirs cg (lir_list cg ++ emitted)).
Proof.
  intros Hv Hf Hsp Hzr.
  destruct (LoadConstantNoClobber_cases r_dest value cg Hv Hf Hsp Hzr)
    as (res & emitted & Hrun & _).
  exists res, emitted. exact Hrun.
Qed.

(** What [LoadBaseDispBody] and [StoreBaseDispBody] do once the opcodes
    and the scale are chosen: [indexed] is the call of [LoadBaseIndexed]
    or of [StoreBaseIndexed]. *)
Local Abbreviation select opcode alt_opcode scale indexed is_load r_base displacement r :=
  (bindM
     (if (Z.land displacement (Z.shiftl 1 scale - 1) =? 0)
         && (0 <=? Z.shiftr displacement scale)
         && (Z.shiftr displacement scale <? 4096)
      then NewLIR3 literal_pool literal opcode (GetReg r) (GetReg r_base)
             (Z.shiftr displacement scale)
      else if is_not_Brk1d alt_opcode && IS_SIGNED_IMM9 displacement
      then NewLIR3 literal_pool literal alt_opcode (GetReg r) (GetReg r_base)
             displacement
      else
        bindM (AllocTemp literal_pool literal) (fun r_scratch =>
        bindM (LoadConstant r_scratch displacement) (fun _ =>
        bindM (indexed r_scratch) (fun access =>
        bindM (FreeTemp literal_pool literal r_scratch) (fun _ => ret access)))))
     (fun access =>
        if r_base =? rs_rA64_SP
        then AnnotateDalvikRegAccess literal_pool literal access
               (Z.shiftr displacement 2) is_load (Is64Bit r)
        else ret access)).

Lemma annotate_last cg (before : list LIR) lir r_base displacement is_load is64bit ts :
  (if r_base =? rs_rA64_SP
   then AnnotateDalvikRegAccess literal_pool literal lir
          (Z.shiftr displacement 2) is_load is64bit
   else ret lir)
    (with_temps (with_lirs cg (before ++ [lir])) ts)
  = Some (annotated r_base displacement is_load is64bit lir,
          with_temps
            (with_lirs cg (before ++ [annotated r_base displacement is_load is64bit lir]))
            ts).
Proof.
  unfold Arm64.annotated. destruct (r_base =? rs_rA64_SP); [|reflexivity].
  unfold AnnotateDalvikRegAccess, bindM, modify, ret, with_lirs, with_temps.
  cbn. rewrite removelast_last. reflexivity.
Qed.

Lemma with_temps_same cg : with_temps cg (temps cg) = cg.
Proof. destruct cg. reflexivity. Qed.

Lemma select_one opcode alt_opcode scale indexed is_load r_base displacement r cg
    used operand :
  (if (Z.land displacement (Z.shiftl 1 scale - 1) =? 0)
      && (0 <=? Z.shiftr displacement scale)
      && (Z.shiftr displacement scale <? 4096)
   then (used, operand) = (opcode, Z.shiftr displacement scale)
   else is_not_Brk1d alt_opcode && IS_SIGNED_IMM9 displacement = true
        /\ (used, operand) = (alt_opcode, displacement)) ->
  let lir :=
    annotated r_base displacement is_load (Is64Bit r)
      (new_lir cg used (GetReg r) (GetReg r_base) operand 0) in
  select opcode alt_opcode scale indexed is_load r_base displacement r cg
  = Some (lir, with_lirs cg (lir_list cg ++ [lir])).
Proof.
  intros H lir.
  pose proof (annotate_last cg (lir_list cg)
                (new_lir cg used (GetReg r) (GetReg r_base) operand 0)
                r_base displacement is_load (Is64Bit r) (temps cg)) as Ha.
  destruct (_ && _ && _).
  - injection H as -> ->. unfold bindM at 1, NewLIR3. rewrite NewLIR_eq.
    exact Ha.
  - destruct H as [-> H]. injection H as -> ->.
    unfold bindM at 1, NewLIR3. rewrite NewLIR_eq. exact Ha.
Qed.

Lemma select_scratch opcode alt_opcode scale indexed is_load r_base displacement r cg
    used :
  - 2 ^ 31 <= displacement < 2 ^ 31 ->
  (Z.land displacement (Z.shiftl 1 scale - 1) =? 0)
  && (0 <=? Z.shiftr displacement scale)
  && (Z.shiftr displacement scale <? 4096) = false ->
  is_not_Brk1d alt_opcode && IS_SIGNED_IMM9 displacement = false ->
  addressing_form used = Some RegisterOffset ->
  (forall r_scratch cg1,
     indexed r_scratch cg1
     = Some (new_lir cg1 used (GetReg r) (GetReg r_base) (GetReg r_scratch) 0,
             with_lirs cg1
               (lir_list cg1
                ++ [new_lir cg1 used (GetReg r) (GetReg r_base) (GetReg r_scratch) 0]))) ->
  emits_scratch_sequence rwzr rwsp rs_rA64_SP GetReg IsFloat Is64Bit
    RegStorage_IsSingle literal_pool literal ScanLiteralPool AddWordData
    (select opcode alt_opcode scale indexed is_load r_base displacement r)
    cg is_load r_base displacement r.
Proof.
  intros Hd Hs Ha Hform Hindexed r_scratch ts' Htake Hf Hsp Hzr.
  destruct (LoadConstantNoClobber_emits r_scratch displacement (with_temps cg ts')
              Hd Hf Hsp Hzr) as (res & materialize & Hload).
  exists materialize, used. eexists.
  split; [exact (take_free_spec _ _ _ Htake)|].
  split; [exists res; exact Hload|].
  split; [exact Hform|].
  cbv zeta. rewrite Hs, Ha.
  destruct (take_free_again _ _ _ Htake) as [Hin [ts3 Hagain]].
  split; [|split; [exact Hin|split; [apply FreeTemp_frees|]]].
  2: { unfold AllocTemp, with_temps, with_lirs, bindM, gets at 1.
       cbn [temps]. rewrite Hagain. eexists. reflexivity. }
  unfold bindM at 1. unfold bindM at 1. unfold AllocTemp at 1.
  unfold bindM at 1. unfold gets at 1. rewrite Htake.
  unfold bindM at 1. unfold set_temps, modify, ret at 1.
  fold (with_temps cg ts').
  unfold bindM at 1. unfold Arm64.LoadConstant. rewrite Hload.
  unfold bindM at 1. rewrite Hindexed.
  unfold bindM at 1. unfold FreeTemp at 1, bindM at 1, gets at 1.
  unfold set_temps, modify, ret at 1.
  cbn [temps lir_list with_lirs with_temps literal_list_ current_dalvik_offset_].
  rewrite app_assoc.
  apply (annotate_last cg (lir_list cg ++ materialize)
           (new_lir cg used (GetReg r) (GetReg r_base) (GetReg r_scratch) 0)).
Qed.

Lemma LoadBaseIndexed_unscaled r_base r_dest size :
  if well_sized IsFloat IsDouble IsSingle r_dest size then
    exists opcode,
      addressing_form opcode = Some RegisterOffset /\
      forall r_index cg,
        LoadBaseIndexed r_base r_index r_dest 0 size cg
        = Some (new_lir cg opcode (GetReg r_dest) (GetReg r_base) (GetReg r_index) 0,
                with_lirs cg
                  (lir_list cg
                   ++ [new_lir cg opcode (GetReg r_dest) (GetReg r_base)
                         (GetReg r_index) 0]))
  else forall r_index cg, LoadBaseIndexed r_base r_index r_dest 0 size cg = None.
Proof.
  unfold well_sized, Arm64.LoadBaseIndexed.
  destruct (IsFloat r_dest).
  - destruct size, (IsDouble r_dest), (IsSingle r_dest); cbn [andb negb].
    all: first [ intros r_index cg; reflexivity
               | eexists; (split; [|intros; cbn; reflexivity]); reflexivity ].
  - destruct size; eexists; (split; [|intros; cbn; reflexivity]); reflexivity.
Qed.

Lemma StoreBaseIndexed_unscaled r_base r_src size :
  if well_sized IsFloat IsDouble IsSingle r_src size then
    exists opcode,
      addressing_form opcode = Some RegisterOffset /\
      forall r_index cg,
        StoreBaseIndexed r_base r_index r_src 0 size cg
        = Some (new_lir cg opcode (GetReg r_src) (GetReg r_base) (GetReg r_index) 0,
                with_lirs cg
                  (lir_list cg
                   ++ [new_lir cg opcode (GetReg r_src) (GetReg r_base)
                         (GetReg r_index) 0]))
  else forall r_index cg, StoreBaseIndexed r_base r_index r_src 0 size cg = None.
Proof.
  unfold well_sized, Arm64.StoreBaseIndexed.
  destruct (IsFloat r_src).
  - destruct size, (IsDouble r_src), (IsSingle r_src); cbn [andb negb].
    all: first [ intros r_index cg; reflexivity
               | eexists; (split; [|intros; cbn; reflexivity]); reflexivity ].
  - destruct size; eexists; (split; [|intros; cbn; reflexivity]); reflexivity.
Qed.

Lemma well_sized_checked r size :
  well_sized IsFloat IsDouble IsSingle r size = true ->
  disp_checked IsFloat IsDouble IsSingle r size = true.
Proof.
  unfold well_sized, disp_checked. destruct (IsFloat r); [|reflexivity].
  destruct size; try discriminate; try (intros H; exact H).
  all: intros H; apply andb_prop in H as [H _]; exact H.
Qed.

Lemma LoadBaseDispBody_select r_base displacement r_dest size :
  if disp_checked IsFloat IsDouble IsSingle r_dest size then
    exists opcode alt_opcode,
      addressing_form opcode = Some ScaledImmediateOffset /\
      (if is_64bit_size size
       then is_not_Brk1d alt_opcode = true
            /\ addressing_form alt_opcode = Some UnscaledImmediateOffset
       else alt_opcode = Op kA64Brk1d) /\
      forall cg,
        LoadBaseDispBody r_base displacement r_dest size cg
        = select opcode alt_opcode (size_scale size)
            (fun r_scratch => LoadBaseIndexed r_base r_scratch r_dest 0 size)
            true r_base displacement r_dest cg
  else forall cg, LoadBaseDispBody r_base displacement r_dest size cg = None.
Proof.
  unfold disp_checked, Arm64.LoadBaseDispBody.
  destruct size; cbn [size_scale is_64bit_size];
    destruct (IsFloat r_dest) eqn:Ef;
    try destruct (IsDouble r_dest); try destruct (IsSingle r_dest).
  all: first
    [ intros cg; reflexivity
    | eexists _, _; (split; [|split]); cycle 2;
      [ intros cg; unfold bindM at 1; cbn [DCHECK ret bindM]; reflexivity
      | reflexivity
      | first [split; reflexivity | reflexivity] ] ].
Qed.

Lemma StoreBaseDispBody_select r_base displacement r_src size :
  if disp_checked IsFloat IsDouble IsSingle r_src size then
    exists opcode alt_opcode,
      addressing_form opcode = Some ScaledImmediateOffset /\
      (if is_64bit_size size
       then is_not_Brk1d alt_opcode = true
            /\ addressing_form alt_opcode = Some UnscaledImmediateOffset
       else alt_opcode = Op kA64Brk1d) /\
      forall cg,
        StoreBaseDispBody r_base displacement r_src size cg
        = select opcode alt_opcode (size_scale size)
            (fun r_scratch => StoreBaseIndexed r_base r_scratch r_src 0 size)
            false r_base displacement r_src cg
  else forall cg, StoreBaseDispBody r_base displacement r_src size cg = None.
Proof.
  unfold disp_checked, Arm64.StoreBaseDispBody.
  destruct size; cbn [size_scale is_64bit_size];
    destruct (IsFloat r_src) eqn:Ef;
    try destruct (IsDouble r_src); try destruct (IsSingle r_src).
  all: first
    [ intros cg; reflexivity
    | eexists _, _; (split; [|split]); cycle 2;
      [ intros cg; unfold bindM at 1; cbn [DCHECK ret bindM]; reflexivity
      | reflexivity
      | first [split; reflexivity | reflexivity] ] ].
Qed.

(** The long sequence stops where the indexed access does. *)
Lemma select_aborts opcode alt_opcode scale indexed is_load r_base displacement r cg :
  (Z.land displacement (Z.shiftl 1 scale - 1) =? 0)
  && (0 <=? Z.shiftr displacement scale)
  && (Z.shiftr displacement scale <? 4096) = false ->
  is_not_Brk1d alt_opcode && IS_SIGNED_IMM9 displacement = false ->
  (forall r_scratch cg1, indexed r_scratch cg1 = None) ->
  select opcode alt_opcode scale indexed is_load r_base displacement r cg = None.
Proof.
  intros Hs Ha Hnone. rewrite Hs, Ha. unfold bindM.
  destruct (AllocTemp literal_pool literal cg) as [[r_scratch cg1]|]; [|reflexivity].
  destruct (LoadConstant r_scratch displacement cg1) as [[res cg2]|]; [|reflexivity].
  rewrite Hnone. reflexivity.
Qed.

Local Abbreviation emits_one := (emits_one rs_rA64_SP GetReg Is64Bit literal_pool literal).
Local Abbreviation emits_scratch_sequence :=
  (emits_scratch_sequence rwzr rwsp rs_rA64_SP GetReg IsFloat Is64Bit
     RegStorage_IsSingle literal_pool literal ScanLiteralPool AddWordData).

(** The three ways of [select], by the displacement and the size;
    [sized] tells whether the indexed access takes the register at the
    size. *)
Lemma select_addressing opcode alt_opcode size indexed is_load r_base displacement r
    (sized : bool) run cg :
  - 2 ^ 31 <= displacement < 2 ^ 31 ->
  addressing_form opcode = Some ScaledImmediateOffset ->
  (if is_64bit_size size
   then is_not_Brk1d alt_opcode = true
        /\ addressing_form alt_opcode = Some UnscaledImmediateOffset
   else alt_opcode = Op kA64Brk1d) ->
  (if sized then
     exists iop,
       addressing_form iop = Some RegisterOffset /\
       forall r_scratch cg1,
         indexed r_scratch cg1
         = Some (new_lir cg1 iop (GetReg r) (GetReg r_base) (GetReg r_scratch) 0,
                 with_lirs cg1
                   (lir_list cg1
                    ++ [new_lir cg1 iop (GetReg r) (GetReg r_base) (GetReg r_scratch) 0]))
   else forall r_scratch cg1, indexed r_scratch cg1 = None) ->
  (forall cg,
     run cg
     = select opcode alt_opcode (size_scale size) indexed is_load r_base displacement
         r cg) ->
  if fits_scaled size displacement then
    emits_one run cg ScaledImmediateOffset is_load r_base displacement r
      (Z.shiftr displacement (size_scale size))
  else if is_64bit_size size && IS_SIGNED_IMM9 displacement then
    emits_one run cg UnscaledImmediateOffset is_load r_base displacement r
      displacement
  else if sized then emits_scratch_sequence run cg is_load r_base displacement r
  else run cg = None.
Proof.
  intros Hd Hop Halt Hindexed Hrun. unfold fits_scaled.
  pose proof (select_one opcode alt_opcode (size_scale size) indexed is_load r_base
                displacement r cg) as Hone.
  pose proof (fun iop => select_scratch opcode alt_opcode (size_scale size) indexed
                           is_load r_base displacement r cg iop Hd) as Hscratch.
  pose proof (select_aborts opcode alt_opcode (size_scale size) indexed is_load r_base
                displacement r cg) as Haborts.
  specialize (Hrun cg). cbv zeta in Hone.
  unfold Arm64.emits_one, Arm64.emits_scratch_sequence in *. rewrite Hrun. clear Hrun.
  destruct (_ && _ && _).
  - exists opcode. split; [exact Hop|]. exact (Hone _ _ eq_refl).
  - specialize (Haborts eq_refl).
    assert (Hscratch' := fun iop => Hscratch iop eq_refl). clear Hscratch.
    destruct (is_64bit_size size).
    + destruct Halt as [Hnot Halt]. cbn [andb]. rewrite Hnot in Hone, Hscratch', Haborts |- *.
      cbn [andb] in Hone, Hscratch', Haborts |- *.
      destruct (IS_SIGNED_IMM9 displacement).
      * exists alt_opcode. split; [exact Halt|]. exact (Hone _ _ (conj eq_refl eq_refl)).
      * destruct sized.
        -- destruct Hindexed as (iop & Hiop & Hindexed).
           exact (Hscratch' iop eq_refl Hiop Hindexed).
        -- exact (Haborts eq_refl Hindexed).
    + subst alt_opcode. cbn [andb is_not_Brk1d] in Hscratch', Haborts |- *.
      destruct sized.
      * destruct Hindexed as (iop & Hiop & Hindexed).
        exact (Hscratch' iop eq_refl Hiop Hindexed).
      * exact (Haborts eq_refl Hindexed).
Qed.


End Codegen.

(** ** The example target *)



Lemma LoadConstantNoClobber_integer_witness :
  let cg := example_Codegen [] in
  exists res emitted,
    LoadConstantNoClobber 31 32 (fun r => r) example_IsFloat example_IsSingle
      (list Z) nat example_ScanLiteralPool example_AddWordData 3 0x12345678 cg
    = Some (res, with_lirs cg (lir_list cg ++ emitted)) /\
    exists log_imm,
      EncodeLogicalImmediate false (u64 0x12345678) = Some log_imm /\
      if 0 <=? log_imm then
        res = new_lir cg (Op kA64Orr3Rrl) 3 31 log_imm 0 /\ emitted = [res]
      else
        res = new_lir cg (Op kA64Movz3rdM) 3 0x5678 0 0 /\
        emitted = [res; new_lir cg (Op kA64Movk3rdM) 3 0x1234 1 0].
Proof.
  intros cg.
  apply (LoadConstantNoClobber_integer 31 32 (fun r => r) example_IsFloat
           example_IsSingle (list Z) nat example_ScanLiteralPool example_AddWordData
           3 0x12345678 cg); [lia|reflexivity|discriminate|discriminate].
Defined.

Lemma LoadFPConstantValue_zero_moves_zero_register_witness :
  let cg := example_Codegen [] in
  (exists cg',
     LoadFPConstantValue 31 example_IsSingle (list Z) nat
       example_ScanLiteralPool example_AddWordData 64 0 cg
     = Some (new_lir cg (Op kA64Fmov2sw) 64 31 0 0, cg') /\
     lir_list cg' = lir_list cg ++ [new_lir cg (Op kA64Fmov2sw) 64 31 0 0] /\
     literal_list_ cg' = literal_list_ cg) /\
  (exists cg',
     LoadFPConstantValueWide 31 example_IsFloat example_IsDouble (list Z) nat
       (fun _ _ _ => None) (fun pool lo hi => (length pool, pool ++ [lo; hi])) 128 0 cg
     = Some (new_lir cg (Op kA64Fmov2Sx) 128 31 0 0, cg') /\
     lir_list cg' = lir_list cg ++ [new_lir cg (Op kA64Fmov2Sx) 128 31 0 0] /\
     literal_list_ cg' = literal_list_ cg).
Proof.
  intros cg. split.
  - apply (proj1 (LoadFPConstantValue_zero_moves_zero_register 31 example_IsFloat
                    example_IsDouble example_IsSingle (list Z) nat
                    example_ScanLiteralPool example_AddWordData
                    (fun _ _ _ => None)
                    (fun pool lo hi => (length pool, pool ++ [lo; hi])) 64 cg)).
    reflexivity.
  - apply (proj2 (LoadFPConstantValue_zero_moves_zero_register 31 example_IsFloat
                    example_IsDouble example_IsSingle (list Z) nat
                    example_ScanLiteralPool example_AddWordData
                    (fun _ _ _ => None)
                    (fun pool lo hi => (length pool, pool ++ [lo; hi])) 128 cg)).
    reflexivity.
Defined.

End CodegenFacts.

Module Arm64Checked.
Import Arm64.

(** ** Facts checked by evaluation on every value of a finite range *)

Lemma single_checked :
  forallb (fun hi =>
    forallb (fun lo =>
      (EncodeImmSingle ((hi * 256 + lo) * 2 ^ 19) =? -1)
      || ((0 <=? EncodeImmSingle ((hi * 256 + lo) * 2 ^ 19))
          && (EncodeImmSingle ((hi * 256 + lo) * 2 ^ 19) <? 256)
          && (ExpandImmSingle (EncodeImmSingle ((hi * 256 + lo) * 2 ^ 19))
              =? (hi * 256 + lo) * 2 ^ 19)))
      (Zrange 0 (Z.to_nat 256)))
    (Zrange 0 (Z.to_nat 32)) = true.
Proof. vm_compute. reflexivity. Qed.

Lemma single_expanded :
  forallb (fun imm8 => EncodeImmSingle (ExpandImmSingle imm8) =? imm8) (Zrange 0 (Z.to_nat 256))
  = true.
Proof. vm_compute. reflexivity. Qed.

Lemma ExpandImmSingle_range_checked :
  forallb (fun imm8 => (0 <=? ExpandImmSingle imm8) && (ExpandImmSingle imm8 <? 2 ^ 32))
          (Zrange 0 (Z.to_nat 256)) = true.
Proof. vm_compute. reflexivity. Qed.

Lemma double_checked :
  forallb (fun hi =>
    forallb (fun lo =>
      (EncodeImmDouble ((hi * 256 + lo) * 2 ^ 48) =? -1)
      || ((0 <=? EncodeImmDouble ((hi * 256 + lo) * 2 ^ 48))
          && (EncodeImmDouble ((hi * 256 + lo) * 2 ^ 48) <? 256)
          && (ExpandImmDouble (EncodeImmDouble ((hi * 256 + lo) * 2 ^ 48))
              =? (hi * 256 + lo) * 2 ^ 48)))
      (Zrange 0 (Z.to_nat 256)))
    (Zrange 0 (Z.to_nat 256)) = true.
Proof. vm_compute. reflexivity. Qed.

Lemma double_expanded :
  forallb (fun imm8 =>
             (0 <=? ExpandImmDouble imm8) && (ExpandImmDouble imm8 <? 2 ^ 64)
             && (EncodeImmDouble (ExpandImmDouble imm8) =? imm8))
          (Zrange 0 (Z.to_nat 256)) = true.
Proof. vm_compute. reflexivity. Qed.

Lemma logical_checked is_wide :
  forallb (fun hi =>
    forallb (fun lo =>
      match DecodeLogicalImmediate is_wide (hi * 256 + lo) with
      | None => true
      | Some v =>
        match EncodeLogicalImmediate is_wide v with
        | Some e' =>
          (0 <=? e') && (e' <? 2 ^ 13)
          && match DecodeLogicalImmediate is_wide e' with
             | Some v' => v' =? v
             | None => false
             end
        | None => false
        end
      end)
      (Zrange 0 (Z.to_nat 256)))
    (Zrange 0 (Z.to_nat 32)) = true.
Proof. destruct is_wide; vm_compute; reflexivity. Qed.

Lemma shift_checked :
  forallb (fun t =>
    forallb (fun a =>
      let e := Z.lor (Z.shiftl t 7) a in
      (Z.land (Z.shiftl 1 6) e =? 0)
      && (Z.land (Z.shiftr e 7) 0x3 =? t) && (Z.land e 0x1f =? a))
      (Zrange 0 (Z.to_nat 32)))
    (Zrange 0 (Z.to_nat 4)) = true.
Proof. vm_compute. reflexivity. Qed.

Lemma extend_checked :
  forallb (fun t =>
    forallb (fun a =>
      let e := Z.lor (Z.lor (Z.shiftl 1 6) (Z.shiftl t 3)) a in
      negb (Z.land (Z.shiftl 1 6) e =? 0)
      && (Z.land (Z.shiftr e 3) 0x7 =? t) && (Z.land e 0x7 =? a))
      (Zrange 0 (Z.to_nat 8)))
    (Zrange 0 (Z.to_nat 8)) = true.
Proof. vm_compute. reflexivity. Qed.

End Arm64Checked.

Module Arm64More.
Import Arm64 Arm64Facts CodegenFacts Arm64Checked.

(** ** The floating-point immediates *)

Lemma EncodeImmSingle_cases bits :
  0 <= bits < 2 ^ 32 ->
  EncodeImmSingle bits = -1
  \/ (0 <= EncodeImmSingle bits < 256
      /\ ExpandImmSingle (EncodeImmSingle bits) = bits).
Proof.
  intros Hb. destruct (Z.land bits 0x0007ffff =? 0) eqn:E.
  - apply Z.eqb_eq in E. change 0x0007ffff with (Z.ones 19) in E.
    rewrite Z.land_ones in E by lia.
    assert (Hhi : 0 <= bits / 2 ^ 19 / 256 < 0 + Z.of_nat (Z.to_nat 32)).
    { split; [apply Z.div_pos; [apply Z.div_pos|]; lia|].
      apply Z.div_lt_upper_bound; [lia|]. apply Z.div_lt_upper_bound; lia. }
    assert (Hlo : 0 <= (bits / 2 ^ 19) mod 256 < 0 + Z.of_nat (Z.to_nat 256)).
    { pose proof (Z.mod_pos_bound (bits / 2 ^ 19) 256). lia. }
    pose proof (forallb_Zrange _ _ _ single_checked _ Hhi) as H0.
    cbv beta in H0.
    pose proof (forallb_Zrange _ _ _ H0 _ Hlo) as H. clear H0.
    cbv beta in H.
    replace ((bits / 2 ^ 19 / 256 * 256 + (bits / 2 ^ 19) mod 256) * 2 ^ 19)
      with bits in H
      by (pose proof (Z.div_mod bits (2 ^ 19));
          pose proof (Z.div_mod (bits / 2 ^ 19) 256); lia).
    apply orb_prop in H as [H|H].
    + left. apply Z.eqb_eq in H. exact H.
    + right. apply andb_prop in H as [H H3]. apply andb_prop in H as [H1 H2].
      apply Z.eqb_eq in H3. lia.
  - left. unfold EncodeImmSingle. rewrite E. reflexivity.
Qed.

(** X1: [EncodeImmSingle] and the expansion of an 8-bit immediate are
    inverse of each other: a non-negative result is below 256 and expands
    to the bits encoded; a negative result is -1, and then no immediate
    expands to the bits; and the expansion of every immediate is encoded
    as that immediate. *)
Theorem EncodeImmSingle_inverts_expansion :
  (forall bits, 0 <= bits < 2 ^ 32 -> 0 <= EncodeImmSingle bits ->
     EncodeImmSingle bits < 256
     /\ ExpandImmSingle (EncodeImmSingle bits) = bits) /\
  (forall bits, 0 <= bits < 2 ^ 32 -> EncodeImmSingle bits < 0 ->
     EncodeImmSingle bits = -1
     /\ forall imm8, 0 <= imm8 < 256 -> ExpandImmSingle imm8 <> bits) /\
  (forall imm8, 0 <= imm8 < 256 ->
     0 <= ExpandImmSingle imm8 < 2 ^ 32
     /\ EncodeImmSingle (ExpandImmSingle imm8) = imm8).
Proof.
  assert (Hexp : forall imm8, 0 <= imm8 < 256 ->
            0 <= ExpandImmSingle imm8 < 2 ^ 32
            /\ EncodeImmSingle (ExpandImmSingle imm8) = imm8).
  { intros imm8 Hi.
    assert (Hr : 0 <= imm8 < 0 + Z.of_nat (Z.to_nat 256)) by lia.
    pose proof (forallb_Zrange _ _ _ single_expanded _ Hr) as H1.
    pose proof (forallb_Zrange _ _ _ ExpandImmSingle_range_checked _ Hr) as H2.
    cbv beta in H1, H2. apply Z.eqb_eq in H1. lia. }
  split; [|split].
  - intros bits Hb Hpos. destruct (EncodeImmSingle_cases bits Hb) as [H|H]; lia.
  - intros bits Hb Hneg. destruct (EncodeImmSingle_cases bits Hb) as [H|H]; [|lia].
    split; [exact H|]. intros imm8 Hi <-.
    destruct (Hexp imm8 Hi) as [_ He]. lia.
  - exact Hexp.
Qed.

Lemma EncodeImmSingle_inverts_expansion_witness :
  EncodeImmSingle 0x3f800000 < 256
  /\ ExpandImmSingle (EncodeImmSingle 0x3f800000) = 0x3f800000.
Proof.
  apply (proj1 EncodeImmSingle_inverts_expansion 0x3f800000);
    [lia|vm_compute; discriminate].
Defined.

Lemma EncodeImmDouble_cases bits :
  0 <= bits < 2 ^ 64 ->
  EncodeImmDouble bits = -1
  \/ (0 <= EncodeImmDouble bits < 256
      /\ ExpandImmDouble (EncodeImmDouble bits) = bits).
Proof.
  intros Hb. destruct (Z.land bits 0xffffffffffff =? 0) eqn:E.
  - apply Z.eqb_eq in E. change 0xffffffffffff with (Z.ones 48) in E.
    rewrite Z.land_ones in E by lia.
    assert (Ht : 0 <= bits / 2 ^ 48 < 65536).
    { split; [apply Z.div_pos; lia|]. apply Z.div_lt_upper_bound; lia. }
    assert (Hhi : 0 <= bits / 2 ^ 48 / 256 < 0 + Z.of_nat (Z.to_nat 256)).
    { split; [apply Z.div_pos; lia|]. apply Z.div_lt_upper_bound; lia. }
    assert (Hlo : 0 <= (bits / 2 ^ 48) mod 256 < 0 + Z.of_nat (Z.to_nat 256)).
    { pose proof (Z.mod_pos_bound (bits / 2 ^ 48) 256). lia. }
    pose proof (forallb_Zrange _ _ _ double_checked _ Hhi) as H.
    cbv beta in H.
    pose proof (forallb_Zrange _ _ _ H _ Hlo) as H'. clear H.
    cbv beta in H'.
    replace ((bits / 2 ^ 48 / 256 * 256 + (bits / 2 ^ 48) mod 256) * 2 ^ 48)
      with bits in H'
      by (pose proof (Z.div_mod bits (2 ^ 48));
          pose proof (Z.div_mod (bits / 2 ^ 48) 256); lia).
    apply orb_prop in H' as [H|H].
    + left. apply Z.eqb_eq in H. exact H.
    + right. apply andb_prop in H as [H H3]. apply andb_prop in H as [H1 H2].
      apply Z.eqb_eq in H3. lia.
  - left. unfold EncodeImmDouble. rewrite E. reflexivity.
Qed.

(** X2: [EncodeImmDouble] and the expansion of an 8-bit immediate to a
    double are inverse of each other, in the same three ways. *)
Theorem EncodeImmDouble_inverts_expansion :
  (forall bits, 0 <= bits < 2 ^ 64 -> 0 <= EncodeImmDouble bits ->
     EncodeImmDouble bits < 256
     /\ ExpandImmDouble (EncodeImmDouble bits) = bits) /\
  (forall bits, 0 <= bits < 2 ^ 64 -> EncodeImmDouble bits < 0 ->
     EncodeImmDouble bits = -1
     /\ forall imm8, 0 <= imm8 < 256 -> ExpandImmDouble imm8 <> bits) /\
  (forall imm8, 0 <= imm8 < 256 ->
     0 <= ExpandImmDouble imm8 < 2 ^ 64
     /\ EncodeImmDouble (ExpandImmDouble imm8) = imm8).
Proof.
  assert (Hexp : forall imm8, 0 <= imm8 < 256 ->
            0 <= ExpandImmDouble imm8 < 2 ^ 64
            /\ EncodeImmDouble (ExpandImmDouble imm8) = imm8).
  { intros imm8 Hi.
    assert (Hr : 0 <= imm8 < 0 + Z.of_nat (Z.to_nat 256)) by lia.
    pose proof (forallb_Zrange _ _ _ double_expanded _ Hr) as H1.
    cbv beta in H1. apply andb_prop in H1 as [H1 H3]. apply andb_prop in H1 as [H1 H2].
    apply Z.eqb_eq in H3. lia. }
  split; [|split].
  - intros bits Hb Hpos. destruct (EncodeImmDouble_cases bits Hb) as [H|H]; lia.
  - intros bits Hb Hneg. destruct (EncodeImmDouble_cases bits Hb) as [H|H]; [|lia].
    split; [exact H|]. intros imm8 Hi <-.
    destruct (Hexp imm8 Hi) as [_ He]. lia.
  - exact Hexp.
Qed.

Lemma EncodeImmDouble_inverts_expansion_witness :
  EncodeImmDouble 0x3ff0000000000000 < 256
  /\ ExpandImmDouble (EncodeImmDouble 0x3ff0000000000000) = 0x3ff0000000000000.
Proof.
  apply (proj1 EncodeImmDouble_inverts_expansion 0x3ff0000000000000);
    [lia|vm_compute; discriminate].
Defined.

(** ** The logical immediates, from the table to the encoder *)

(** X3: the encoder accepts every value of the table: a value the
    decoder gives for a 13-bit immediate is encoded, by an immediate of 13
    bits that decodes to the same value. *)
Theorem EncodeLogicalImmediate_accepts_table is_wide encoded value :
  0 <= encoded < 2 ^ 13 ->
  DecodeLogicalImmediate is_wide encoded = Some value ->
  exists encoded',
    EncodeLogicalImmediate is_wide value = Some encoded'
    /\ 0 <= encoded' < 2 ^ 13
    /\ DecodeLogicalImmediate is_wide encoded' = Some value.
Proof.
  intros He Hdec.
  assert (Hhi : 0 <= encoded / 256 < 0 + Z.of_nat (Z.to_nat 32)).
  { split; [apply Z.div_pos; lia|]. apply Z.div_lt_upper_bound; lia. }
  assert (Hlo : 0 <= encoded mod 256 < 0 + Z.of_nat (Z.to_nat 256)).
  { pose proof (Z.mod_pos_bound encoded 256). lia. }
  pose proof (forallb_Zrange _ _ _ (logical_checked is_wide) _ Hhi) as H0.
  cbv beta in H0.
  pose proof (forallb_Zrange _ _ _ H0 _ Hlo) as H. clear H0.
  cbv beta in H.
  replace (encoded / 256 * 256 + encoded mod 256) with encoded in H
    by (pose proof (Z.div_mod encoded 256); lia).
  rewrite Hdec in H. cbv beta iota in H.
  destruct (EncodeLogicalImmediate is_wide value) as [e'|]; [|discriminate].
  apply andb_prop in H as [H H3]. apply andb_prop in H as [H1 H2].
  destruct (DecodeLogicalImmediate is_wide e') as [v'|] eqn:Hd'; [|discriminate].
  apply Z.eqb_eq in H3. subst v'.
  exists e'. split; [reflexivity|]. split; [lia|exact Hd'].
Qed.

Lemma EncodeLogicalImmediate_accepts_table_witness :
  exists encoded',
    EncodeLogicalImmediate true 0xFF00 = Some encoded'
    /\ 0 <= encoded' < 2 ^ 13
    /\ DecodeLogicalImmediate true encoded' = Some 0xFF00.
Proof.
  apply (EncodeLogicalImmediate_accepts_table true 7687 0xFF00);
    [lia|vm_compute; reflexivity].
Defined.

(** The immediate a value that is 0 at the selected width is encoded by,
    where it is not negative, encodes no value that is not 0 there. *)
Lemma zero_encoding_alone is_wide value1 value2 encoded :
  0 <= value1 < 2 ^ 64 -> 0 <= value2 < 2 ^ 64 ->
  reg_value is_wide value1 = 0 -> reg_value is_wide value2 <> 0 ->
  EncodeLogicalImmediate is_wide value1 = Some encoded ->
  EncodeLogicalImmediate is_wide value2 = Some encoded ->
  0 <= encoded -> False.
Proof.
  intros H1 H2 Z1 N2 E1 E2 Hpos.
  pose proof (EncodeLogicalImmediate_sound is_wide value2 encoded H2 N2 E2 Hpos) as D2.
  destruct is_wide; simpl in Z1.
  - subst value1. vm_compute in E1. injection E1 as <-. lia.
  - destruct (Z.eq_dec value1 0) as [->|N1].
    + vm_compute in E1. injection E1 as <-. lia.
    + rewrite (EncodeLogicalImmediate_low_word_0 value1 H1 N1 Z1) in E1.
      injection E1 as <-.
      change (DecodeLogicalImmediate false 63) with (@None Z) in D2. discriminate D2.
Qed.

(** X4: two 64-bit patterns that [EncodeLogicalImmediate] encodes by the
    same immediate are the same register value at the selected width. *)
Theorem EncodeLogicalImmediate_injective is_wide value1 value2 encoded :
  0 <= value1 < 2 ^ 64 -> 0 <= value2 < 2 ^ 64 ->
  EncodeLogicalImmediate is_wide value1 = Some encoded ->
  EncodeLogicalImmediate is_wide value2 = Some encoded ->
  0 <= encoded ->
  reg_value is_wide value1 = reg_value is_wide value2.
Proof.
  intros H1 H2 E1 E2 Hpos.
  destruct (Z.eq_dec (reg_value is_wide value1) 0) as [Z1|N1];
    destruct (Z.eq_dec (reg_value is_wide value2) 0) as [Z2|N2].
  - congruence.
  - exfalso.
    exact (zero_encoding_alone is_wide value1 value2 encoded H1 H2 Z1 N2 E1 E2 Hpos).
  - exfalso.
    exact (zero_encoding_alone is_wide value2 value1 encoded H2 H1 Z2 N1 E2 E1 Hpos).
  - pose proof (EncodeLogicalImmediate_sound is_wide value1 encoded H1 N1 E1 Hpos) as D1.
    pose proof (EncodeLogicalImmediate_sound is_wide value2 encoded H2 N2 E2 Hpos) as D2.
    rewrite D1 in D2. injection D2 as D2. exact D2.
Qed.

Lemma EncodeLogicalImmediate_injective_witness :
  reg_value false 0x100FF00FF = reg_value false 0x00FF00FF.
Proof.
  apply (EncodeLogicalImmediate_injective false 0x100FF00FF 0x00FF00FF
           (match EncodeLogicalImmediate false 0x00FF00FF with Some e => e | None => 0 end));
    [lia|lia|vm_compute; reflexivity|vm_compute; reflexivity|vm_compute; discriminate].
Defined.

(** ** Shift and extend operands *)

Lemma land_low_range x k :
  0 <= k -> 0 <= Z.land x (Z.ones k) < 2 ^ k.
Proof.
  intros Hk. rewrite Z.land_ones by lia. apply Z.mod_pos_bound. lia.
Qed.

(** X5: an operand built by [EncodeShift] is never taken for an extend
    and one built by [EncodeExtend] always is, whatever the arguments;
    the kind and the amount read back from either are the arguments cut
    to their fields. *)
Theorem shift_and_extend_operands kind amount :
  (IsExtendEncoding (EncodeShift kind amount) = false
   /\ Z.land (Z.shiftr (EncodeShift kind amount) 7) 0x3 = Z.land kind 0x3
   /\ Z.land (EncodeShift kind amount) 0x1f = Z.land amount 0x1f) /\
  (IsExtendEncoding (EncodeExtend kind amount) = true
   /\ Z.land (Z.shiftr (EncodeExtend kind amount) 3) 0x7 = Z.land kind 0x7
   /\ Z.land (EncodeExtend kind amount) 0x7 = Z.land amount 0x7).
Proof.
  unfold IsExtendEncoding, EncodeShift, EncodeExtend. split.
  - pose proof (land_low_range kind 2 ltac:(lia)) as Hk.
    pose proof (land_low_range amount 5 ltac:(lia)) as Ha.
    change (Z.ones 2) with 0x3 in Hk. change (Z.ones 5) with 0x1f in Ha.
    assert (Hk' : 0 <= Z.land kind 0x3 < 0 + Z.of_nat (Z.to_nat 4)) by lia.
    assert (Ha' : 0 <= Z.land amount 0x1f < 0 + Z.of_nat (Z.to_nat 32)) by lia.
    pose proof (forallb_Zrange _ _ _ shift_checked _ Hk') as H. cbv beta in H.
    pose proof (forallb_Zrange _ _ _ H _ Ha') as H'. cbv beta zeta in H'.
    apply andb_prop in H' as [H1 H3]. apply andb_prop in H1 as [H1 H2].
    apply Z.eqb_eq in H2, H3. rewrite H1. auto.
  - pose proof (land_low_range kind 3 ltac:(lia)) as Hk.
    pose proof (land_low_range amount 3 ltac:(lia)) as Ha.
    change (Z.ones 3) with 0x7 in Hk, Ha.
    assert (Hk' : 0 <= Z.land kind 0x7 < 0 + Z.of_nat (Z.to_nat 8)) by lia.
    assert (Ha' : 0 <= Z.land amount 0x7 < 0 + Z.of_nat (Z.to_nat 8)) by lia.
    pose proof (forallb_Zrange _ _ _ extend_checked _ Hk') as H. cbv beta in H.
    pose proof (forallb_Zrange _ _ _ H _ Ha') as H'. cbv beta zeta in H'.
    apply andb_prop in H' as [H1 H3]. apply andb_prop in H1 as [H1 H2].
    apply Z.eqb_eq in H2, H3. rewrite H1. auto.
Qed.

(** ** What the emitted moves load *)

Lemma halves_of_value value :
  u32 value = High16Bits value * 65536 + Low16Bits value.
Proof.
  unfold u32, High16Bits, Low16Bits, u16. rewrite Z.shiftr_div_pow2 by lia.
  change (2 ^ 32) with 4294967296. change (2 ^ 16) with 65536.
  Z.div_mod_to_equations. lia.
Qed.

Lemma lor_halves low high :
  0 <= low < 2 ^ 16 -> 0 <= high ->
  Z.lor low (Z.shiftl high 16) = low + high * 65536.
Proof.
  intros Hl Hh. rewrite Z.shiftl_mul_pow2 by lia. change (2 ^ 16) with 65536.
  rewrite <- Z.lxor_lor.
  - symmetry. apply Z.add_nocarry_lxor.
    apply Z.bits_inj'. intros n Hn. rewrite Z.land_spec, Z.bits_0.
    destruct (Z.lt_ge_cases n 16).
    + replace (high * 65536) with (Z.shiftl high 16)
        by (rewrite Z.shiftl_mul_pow2 by lia; reflexivity).
      rewrite Z.shiftl_spec_low by lia. apply andb_false_r.
    + rewrite <- (Z.mod_small low (2 ^ 16)) by lia.
      rewrite Z.mod_pow2_bits_high by lia. reflexivity.
  - apply Z.bits_inj'. intros n Hn. rewrite Z.land_spec, Z.bits_0.
    destruct (Z.lt_ge_cases n 16).
    + replace (high * 65536) with (Z.shiftl high 16)
        by (rewrite Z.shiftl_mul_pow2 by lia; reflexivity).
      rewrite Z.shiftl_spec_low by lia. apply andb_false_r.
    + rewrite <- (Z.mod_small low (2 ^ 16)) by lia.
      rewrite Z.mod_pow2_bits_high by lia. reflexivity.
Qed.

Lemma uniform_half_cases bits :
  uniform_half bits = true -> bits = 0 \/ bits = 0xffff.
Proof. unfold uniform_half. lia. Qed.

Lemma movz_value imm shift :
  0 <= imm < 65536 -> (shift = 0 \/ shift = 1) ->
  u32 (Z.shiftl (u16 imm) (16 * shift)) = imm * 65536 ^ shift.
Proof.
  intros Hi [-> | ->]; unfold u32, u16; cbn [Z.mul];
    rewrite ?Z.shiftl_0_r, ?Z.shiftl_mul_pow2 by lia;
    change (2 ^ 16) with 65536; change (2 ^ 32) with 4294967296;
    change (65536 ^ 0) with 1; change (65536 ^ 1) with 65536;
    Z.div_mod_to_equations; lia.
Qed.

Lemma movn_value imm shift :
  0 <= imm < 65536 -> (shift = 0 \/ shift = 1) ->
  u32 (Z.lnot (Z.shiftl (u16 (Z.lnot imm)) (16 * shift)))
  = 4294967295 - (65535 - imm) * 65536 ^ shift.
Proof.
  intros Hi [-> | ->]; unfold u32, u16, Z.lnot; cbn [Z.mul];
    rewrite ?Z.shiftl_0_r, ?Z.shiftl_mul_pow2 by lia;
    change (2 ^ 16) with 65536; change (2 ^ 32) with 4294967296;
    change (65536 ^ 0) with 1; change (65536 ^ 1) with 65536;
    Z.div_mod_to_equations; lia.
Qed.

Section Codegen.

#[local] Set Default Proof Using "Type".

Variables rwzr rwsp : Z.
Variable GetReg : Z -> Z.
Variables IsFloat IsDouble IsSingle : Z -> bool.
Variables RegStorage_IsFloat RegStorage_IsDouble RegStorage_IsSingle : Z -> bool.
Variables literal_pool literal : Type.
Variable ScanLiteralPool : literal_pool -> Z -> Z -> option literal.
Variable AddWordData : literal_pool -> Z -> literal * literal_pool.
Variable ScanLiteralPoolWide : literal_pool -> Z -> Z -> option literal.
Variable AddWideData : literal_pool -> Z -> Z -> literal * literal_pool.

Local Abbreviation Codegen := (Codegen literal_pool literal).
Local Abbreviation LIR := (LIR literal).
Local Abbreviation LoadFPConstantValue :=
  (LoadFPConstantValue rwzr RegStorage_IsSingle literal_pool literal
     ScanLiteralPool AddWordData).
Local Abbreviation LoadFPConstantValueWide :=
  (LoadFPConstantValueWide rwzr RegStorage_IsFloat RegStorage_IsDouble
     literal_pool literal ScanLiteralPoolWide AddWideData).
Local Abbreviation LoadConstantNoClobber :=
  (LoadConstantNoClobber rwzr rwsp GetReg IsFloat RegStorage_IsSingle
     literal_pool literal ScanLiteralPool AddWordData).
Local Abbreviation LoadBaseIndexed :=
  (LoadBaseIndexed GetReg IsFloat IsDouble IsSingle literal_pool literal).
Local Abbreviation StoreBaseIndexed :=
  (StoreBaseIndexed GetReg IsFloat IsDouble IsSingle literal_pool literal).
Local Abbreviation NewLIR := (NewLIR literal_pool literal).

Implicit Types (cg : Codegen) (lir : LIR).

(** X6: the instructions [LoadConstantNoClobber] emits for a core
    register all write that register and, run one after the other from
    any value of it, leave it holding the 32 bits of the constant. *)
Theorem LoadConstantNoClobber_loads_value r_dest value cg old :
  - 2 ^ 31 <= value < 2 ^ 31 ->
  IsFloat r_dest = false -> GetReg r_dest <> rwsp -> GetReg r_dest <> rwzr ->
  exists res emitted,
    LoadConstantNoClobber r_dest value cg
    = Some (res, with_lirs cg (lir_list cg ++ emitted)) /\
    Forall (fun lir => destination lir = GetReg r_dest) emitted /\
    moves_effect rwzr emitted old = Some (u32 value).
Proof.
  intros Hv Hfloat Hsp Hzr.
  pose proof (halves_of_value value) as Hval.
  unfold Arm64.LoadConstantNoClobber, Arm64.NewLIR2, Arm64.NewLIR3. rewrite Hfloat.
  unfold bindM at 1. unfold DCHECK at 1.
  destruct (Z.eqb_spec (GetReg r_dest) rwsp) as [|_]; [contradiction|]. cbn [negb ret].
  unfold bindM at 1. unfold DCHECK at 1.
  destruct (Z.eqb_spec (GetReg r_dest) rwzr) as [|_]; [contradiction|]. cbn [negb ret].
  assert (Hlow : 0 <= Low16Bits value < 2 ^ 16) by apply u16_range.
  assert (Hhigh : 0 <= High16Bits value < 2 ^ 16) by apply u16_range.
  remember (High16Bits value) as high eqn:Ehigh. remember (Low16Bits value) as low eqn:Elow.
  rewrite <- ?Ehigh, <- ?Elow in Hval.
  rewrite (fast_bits low Hlow), (fast_bits high Hhigh).
  fold (uniform_half low) (uniform_half high).
  destruct (uniform_half low || uniform_half high) eqn:Efast.
  - destruct (Z.eqb_spec low high) as [Heq|Hne].
    + destruct (Z.eqb_spec low 0) as [H0|H0].
      * eexists _, _. split; [apply NewLIR_eq|]. split; [repeat constructor|].
        cbn. rewrite Z.eqb_refl. f_equal. lia.
      * assert (low = 0xffff).
        { rewrite <- Heq, orb_diag in Efast.
          destruct (uniform_half_cases _ Efast); [contradiction|assumption]. }
        eexists _, _. split; [apply NewLIR_eq|]. split; [repeat constructor|].
        cbn. rewrite Z.eqb_refl. f_equal. change (u32 (Z.lnot 0)) with 4294967295. lia.
    + destruct (uniform_half high) eqn:Eh.
      * destruct (uniform_half_cases _ Eh) as [Hh|Hh]; rewrite Hh; cbn [Z.eqb negb].
        -- eexists _, _. split; [apply NewLIR_eq|]. split; [repeat constructor|].
           cbn [moves_effect move_effect new_lir RawLIR operands opcode].
           rewrite (movz_value low 0) by lia. f_equal. lia.
        -- eexists _, _. split; [apply NewLIR_eq|]. split; [repeat constructor|].
           cbn [moves_effect move_effect new_lir RawLIR operands opcode].
           rewrite (movn_value low 0) by lia. f_equal. lia.
      * rewrite orb_false_r in Efast.
        destruct (uniform_half_cases _ Efast) as [Hl|Hl]; rewrite Hl; cbn [Z.eqb negb].
        -- eexists _, _. split; [apply NewLIR_eq|]. split; [repeat constructor|].
           cbn [moves_effect move_effect new_lir RawLIR operands opcode].
           rewrite (movz_value high 1) by lia. f_equal. lia.
        -- eexists _, _. split; [apply NewLIR_eq|]. split; [repeat constructor|].
           cbn [moves_effect move_effect new_lir RawLIR operands opcode].
           rewrite (movn_value high 1) by lia. f_equal. lia.
  - apply orb_false_elim in Efast as [El Eh].
    assert (Hnz : low <> 0).
    { unfold uniform_half in El. apply orb_false_elim in El as [El _].
      apply Z.eqb_neq in El. exact El. }
    assert (Hu : 0 <= u64 value < 2 ^ 64) by (unfold u64; apply Z.mod_pos_bound; lia).
    assert (Hnz32 : reg_value false (u64 value) <> 0)
      by (apply Low16Bits_nonzero; rewrite <- Elow; exact Hnz).
    destruct (EncodeLogicalImmediate_defined false (u64 value)) as [log_imm Henc].
    rewrite Henc. destruct (Z.leb_spec 0 log_imm) as [Hpos|Hneg].
    + eexists _, _. split; [apply NewLIR_eq|]. split; [repeat constructor|].
      cbn [moves_effect move_effect new_lir RawLIR operands opcode].
      rewrite Z.eqb_refl.
      rewrite (EncodeLogicalImmediate_sound false (u64 value) log_imm Hu Hnz32 Henc Hpos).
      f_equal. unfold reg_value, u32, u64.
      change (2 ^ 64) with (2 ^ 32 * 2 ^ 32).
      rewrite Z.rem_mul_r by lia. rewrite Z.mul_comm, Z.mod_add by lia.
      apply Z.mod_mod. lia.
    + eexists _, _. split.
      * unfold bindM. rewrite !NewLIR_eq. unfold ret, with_lirs. cbn.
        rewrite <- app_assoc. reflexivity.
      * split; [repeat constructor|].
        cbn [moves_effect move_effect new_lir RawLIR operands opcode app].
        rewrite (movz_value low 0), (movz_value high 1) by lia.
        f_equal. change (u32 (Z.lnot (Z.shiftl 65535 (16 * 1)))) with (Z.ones 16).
        rewrite Z.land_ones by lia.
        change (65536 ^ 0) with 1. change (65536 ^ 1) with 65536.
        rewrite Z.mul_1_r, Z.mod_small by lia.
        replace (high * 65536) with (Z.shiftl high 16)
          by (rewrite Z.shiftl_mul_pow2 by lia; reflexivity).
        rewrite lor_halves by lia. lia.
Qed.

(** ** Floating-point constants other than zero *)

(** X7: a non-zero single constant for which [InexpensiveConstantFloat]
    holds is loaded by one [fmov] whose immediate expands to the bits of
    the constant, the literal pool staying as it was; one for which it
    does not hold is loaded by one pc-relative load of a literal, the one
    the scan of the pool finds or else the one added to it.  The same
    holds of a double constant and [InexpensiveConstantDouble]. *)
Theorem LoadFPConstantValue_nonzero r_dest value cg :
  value <> 0 ->
  (RegStorage_IsSingle r_dest = true -> - 2 ^ 31 <= value < 2 ^ 31 ->
   if InexpensiveConstantFloat value then
     let lir := new_lir cg (Op kA64Fmov2fI) r_dest (EncodeImmSingle (u32 value)) 0 0 in
     LoadFPConstantValue r_dest value cg
     = Some (lir, with_lirs cg (lir_list cg ++ [lir]))
     /\ ExpandImmSingle (EncodeImmSingle (u32 value)) = u32 value
   else
     let '(data_target, pool) :=
       match ScanLiteralPool (literal_list_ cg) value 0 with
       | Some data_target => (data_target, literal_list_ cg)
       | None => AddWordData (literal_list_ cg) value
       end in
     let lir :=
       mkLIR (current_dalvik_offset_ cg) (Op kA64Ldr2fp) (r_dest, 0, 0, 0, 0)
             (Some data_target) true None in
     LoadFPConstantValue r_dest value cg
     = Some (lir, mkCodegen (lir_list cg ++ [lir]) pool
                    (current_dalvik_offset_ cg) (temps cg))) /\
  (RegStorage_IsDouble r_dest = true -> RegStorage_IsFloat r_dest = true ->
   - 2 ^ 63 <= value < 2 ^ 63 ->
   if InexpensiveConstantDouble value then
     let lir :=
       new_lir cg (FWIDE kA64Fmov2fI) r_dest (EncodeImmDouble (u64 value)) 0 0 in
     LoadFPConstantValueWide r_dest value cg
     = Some (lir, with_lirs cg (lir_list cg ++ [lir]))
     /\ ExpandImmDouble (EncodeImmDouble (u64 value)) = u64 value
   else
     let '(data_target, pool) :=
       match ScanLiteralPoolWide (literal_list_ cg) (Low32Bits value)
               (High32Bits value) with
       | Some data_target => (data_target, literal_list_ cg)
       | None => AddWideData (literal_list_ cg) (Low32Bits value) (High32Bits value)
       end in
     let lir :=
       mkLIR (current_dalvik_offset_ cg) (FWIDE kA64Ldr2fp) (r_dest, 0, 0, 0, 0)
             (Some data_target) true None in
     LoadFPConstantValueWide r_dest value cg
     = Some (lir, mkCodegen (lir_list cg ++ [lir]) pool
                    (current_dalvik_offset_ cg) (temps cg))).
Proof.
  intros Hnz. apply Z.eqb_neq in Hnz. split.
  - intros Hs Hv. unfold InexpensiveConstantFloat, Arm64.LoadFPConstantValue.
    unfold bindM at 1. unfold DCHECK at 1. rewrite Hs, Hnz. cbn [ret].
    destruct (Z.leb_spec 0 (EncodeImmSingle (u32 value))) as [Hpos|Hneg].
    + split; [reflexivity|].
      assert (Hu : 0 <= u32 value < 2 ^ 32) by (apply Z.mod_pos_bound; lia).
      destruct (EncodeImmSingle_cases _ Hu) as [H|[_ H]]; [lia|exact H].
    + destruct (ScanLiteralPool (literal_list_ cg) value 0) as [data_target|] eqn:Es.
      * unfold bindM, gets, ret. cbn. rewrite Es. reflexivity.
      * destruct (AddWordData (literal_list_ cg) value) as [data_target pool] eqn:Ea.
        unfold bindM, gets, ret. cbn. rewrite Es, Ea. reflexivity.
  - intros Hd Hf Hv. unfold InexpensiveConstantDouble, Arm64.LoadFPConstantValueWide.
    unfold bindM at 1. unfold DCHECK at 1. rewrite Hd, Hnz. cbn [ret].
    destruct (Z.leb_spec 0 (EncodeImmDouble (u64 value))) as [Hpos|Hneg].
    + split; [reflexivity|].
      assert (Hu : 0 <= u64 value < 2 ^ 64) by (apply Z.mod_pos_bound; lia).
      destruct (EncodeImmDouble_cases _ Hu) as [H|[_ H]]; [lia|exact H].
    + destruct (ScanLiteralPoolWide (literal_list_ cg) (Low32Bits value)
                  (High32Bits value)) as [data_target|] eqn:Es.
      * unfold bindM, gets, ret, DCHECK. cbn. rewrite Es. cbn. rewrite Hf. reflexivity.
      * destruct (AddWideData (literal_list_ cg) (Low32Bits value) (High32Bits value))
          as [data_target pool] eqn:Ea.
        unfold bindM, gets, ret, DCHECK. cbn. rewrite Es, Ea. cbn. rewrite Hf.
        reflexivity.
Qed.

(** ** The scale of an indexed access *)

(** X8: [LoadBaseIndexed] runs exactly when the scale is 0 or the one
    of the operand size, and [StoreBaseIndexed] when moreover it is given
    a core register and a size of more than one byte, for which it checks
    no scale.  Each then emits one register-offset instruction on the
    three registers, whose last operand tells whether the scale is other
    than 0. *)
Theorem indexed_access_scale r_base r_index r scale size cg :
  well_sized IsFloat IsDouble IsSingle r size = true ->
  let emitted (run : option (LIR * Codegen)) :=
    exists opcode,
      addressing_form opcode = Some RegisterOffset /\
      let lir :=
        new_lir cg opcode (GetReg r) (GetReg r_base) (GetReg r_index)
                (if scale =? 0 then 0 else 1) in
      run = Some (lir, with_lirs cg (lir_list cg ++ [lir])) in
  (if (scale =? 0) || (scale =? size_scale size)
   then emitted (LoadBaseIndexed r_base r_index r scale size cg)
   else LoadBaseIndexed r_base r_index r scale size cg = None) /\
  (if (scale =? 0) || (scale =? size_scale size)
      || (negb (IsFloat r) && negb (size_scale size =? 0))
   then emitted (StoreBaseIndexed r_base r_index r scale size cg)
   else StoreBaseIndexed r_base r_index r scale size cg = None).
Proof.
  intros Hws emitted. subst emitted. cbv beta.
  unfold well_sized, Arm64.LoadBaseIndexed, Arm64.StoreBaseIndexed in *.
  destruct (IsFloat r).
  - destruct size; try discriminate Hws; cbn [size_scale negb andb].
    all: try (apply andb_prop in Hws as [Hs Hd]; apply negb_true_iff in Hd;
              rewrite Hd, Hs).
    all: try rewrite Hws.
    all: rewrite orb_false_r.
    all: unfold bindM, DCHECK, ret, NewLIR4; cbn [OpSize_eqb orb].
    all: repeat match goal with
                | |- context [Z.eqb ?s ?b] => is_var s;
                  destruct (Z.eqb_spec s b) as [?|?]; try lia; cbn [orb negb andb]
                end.
    all: split.
    all: first [reflexivity | eexists; (split; [|cbn; reflexivity]); reflexivity].
  - destruct size; cbn [size_scale negb andb Z.eqb orb].
    all: unfold bindM, DCHECK, ret, NewLIR4, NewLIR3; cbn [Z.eqb].
    all: repeat match goal with
                | |- context [Z.eqb ?s ?b] => is_var s;
                  destruct (Z.eqb_spec s b) as [?|?]; try lia; cbn [orb negb andb]
                end.
    all: split.
    all: first [reflexivity | eexists; (split; [|cbn; reflexivity]); reflexivity].
Qed.

End Codegen.

Lemma LoadConstantNoClobber_loads_value_witness :
  let cg := example_Codegen [] in
  exists res emitted,
    LoadConstantNoClobber 31 32 (fun r => r) example_IsFloat example_IsSingle
      (list Z) nat example_ScanLiteralPool example_AddWordData 3 0x12345678 cg
    = Some (res, with_lirs cg (lir_list cg ++ emitted)) /\
    Forall (fun lir => destination lir = 3) emitted /\
    moves_effect 31 emitted 0xdeadbeef = Some (u32 0x12345678).
Proof.
  intros cg.
  apply (LoadConstantNoClobber_loads_value 31 32 (fun r => r) example_IsFloat
           example_IsSingle (list Z) nat example_ScanLiteralPool example_AddWordData
           3 0x12345678 cg 0xdeadbeef); [lia|reflexivity|discriminate|discriminate].
Defined.

Lemma LoadFPConstantValue_nonzero_witness :
  let cg := example_Codegen [] in
  let lir := new_lir cg (Op kA64Fmov2fI) 64 (EncodeImmSingle (u32 0x3f800000)) 0 0 in
  LoadFPConstantValue 31 example_IsSingle (list Z) nat
    example_ScanLiteralPool example_AddWordData 64 0x3f800000 cg
  = Some (lir, with_lirs cg (lir_list cg ++ [lir]))
  /\ ExpandImmSingle (EncodeImmSingle (u32 0x3f800000)) = u32 0x3f800000.
Proof.
  intros cg.
  apply (proj1 (LoadFPConstantValue_nonzero 31 example_IsFloat example_IsDouble
                  example_IsSingle (list Z) nat
                  example_ScanLiteralPool example_AddWordData
                  (fun _ _ _ => None)
                  (fun pool lo hi => (length pool, pool ++ [lo; hi]))
                  64 0x3f800000 cg ltac:(discriminate)));
    [reflexivity|lia].
Defined.

Lemma indexed_access_scale_witness :
  let cg := example_Codegen [] in
  LoadBaseIndexed (fun r => r) example_IsFloat example_IsDouble example_IsSingle
    (list Z) nat 1 2 3 1 k32 cg = None
  /\ exists opcode,
       addressing_form opcode = Some RegisterOffset /\
       let lir := new_lir cg opcode 3 1 2 1 in
       StoreBaseIndexed (fun r => r) example_IsFloat example_IsDouble example_IsSingle
         (list Z) nat 1 2 3 1 k32 cg
       = Some (lir, with_lirs cg (lir_list cg ++ [lir])).
Proof.
  intros cg.
  apply (indexed_access_scale (fun r => r) example_IsFloat example_IsDouble
           example_IsSingle (list Z) nat 1 2 3 1 k32 cg).
  reflexivity.
Defined.

End Arm64More.

Module LivenessMore.
Import Liveness LivenessFacts.

(** ** Two ranges *)

(** X9: [IntersectsWith] is symmetric; on two non-empty ranges it holds
    exactly when some position lies in both, it fails when one range
    [IsBefore] the other, and when it fails one range is before the
    other. *)
Theorem IntersectsWith_shares_a_position a b :
  IntersectsWith a b = IntersectsWith b a /\
  (start_ a < end_ a -> start_ b < end_ b ->
   (IntersectsWith a b = true <-> exists q, in_range q a /\ in_range q b) /\
   (IsBefore a b = true -> IntersectsWith a b = false) /\
   (IntersectsWith a b = false -> IsBefore a b = true \/ IsBefore b a = true)).
Proof.
  split.
  - unfold IntersectsWith. lia.
  - intros Ha Hb. split; [apply IntersectsWith_spec; assumption|].
    unfold IntersectsWith, IsBefore. split; lia.
Qed.

Lemma IntersectsWith_shares_a_position_witness :
  (IntersectsWith (mkLiveRange 1 5) (mkLiveRange 3 8) = true <->
   exists q, in_range q (mkLiveRange 1 5) /\ in_range q (mkLiveRange 3 8)) /\
  (IsBefore (mkLiveRange 1 5) (mkLiveRange 3 8) = true ->
   IntersectsWith (mkLiveRange 1 5) (mkLiveRange 3 8) = false) /\
  (IntersectsWith (mkLiveRange 1 5) (mkLiveRange 3 8) = false ->
   IsBefore (mkLiveRange 1 5) (mkLiveRange 3 8) = true
   \/ IsBefore (mkLiveRange 3 8) (mkLiveRange 1 5) = true).
Proof.
  apply (proj2 (IntersectsWith_shares_a_position (mkLiveRange 1 5) (mkLiveRange 3 8)));
    simpl; lia.
Defined.

(** ** The positions an interval covers *)

Lemma Covers_set_first_range q ranges this :
  Covers q (set_first_range ranges this) = covers_from q ranges.
Proof. reflexivity. Qed.

(** X10: [AddRange] runs exactly when the range is the one just before the
    first range of the interval, which it then extends, or is non-empty
    and ends before that range starts; and then the interval covers what
    it covered and the positions of the range. *)
Theorem AddRange_adds_the_range start end' this :
  ordered (first_range_ this) -> start <= end' ->
  (is_Some (AddRange start end' this) <->
   match first_range_ this with
   | [] => start < end'
   | first :: _ => start_ first = end' \/ (start < end' /\ end' < start_ first)
   end) /\
  (forall this', AddRange start end' this = Some this' ->
   forall q, Covers q this' = ((start <=? q) && (q <? end')) || Covers q this).
Proof.
  intros Hord Hle. unfold AddRange, new_LiveRange, Covers.
  destruct (first_range_ this) as [|first next] eqn:Ef.
  - split.
    + destruct (Z.ltb_spec start end'); cbn; split; intros H'; try lia; eauto.
      destruct H' as [? H']. discriminate.
    + intros this' H q. destruct (Z.ltb_spec start end'); cbn in H; [|discriminate].
      injection H as <-. cbn. destruct ((start <=? q) && (q <? end')); reflexivity.
  - pose proof (ordered_head _ _ Hord) as Hne.
    destruct (Z.eqb_spec (start_ first) end') as [He|He].
    + split; [split; cbn; eauto|].
      intros this' H q. cbn in H. injection H as <-. cbn.
      destruct (covers_from q next);
        repeat match goal with |- context [if ?c then _ else _] => destruct c eqn:? end;
        lia.
    + split.
      * destruct ((start <? end') && (end' <? start_ first)) eqn:E; cbn; split;
          intros H'; try lia; eauto.
        destruct H' as [? H']. discriminate.
      * intros this' H q.
        destruct ((start <? end') && (end' <? start_ first)) eqn:E; cbn in H;
          [|discriminate].
        injection H as <-. cbn. destruct ((start <=? q) && (q <? end')); reflexivity.
Qed.

Lemma AddRange_adds_the_range_witness :
  exists this',
    AddRange 2 6 (mkLiveInterval [mkLiveRange 6 9] [] None (-1)) = Some this' /\
    forall q, Covers q this'
              = ((2 <=? q) && (q <? 6))
                || Covers q (mkLiveInterval [mkLiveRange 6 9] [] None (-1)).
Proof.
  eexists; split; [reflexivity|].
  apply (proj2 (AddRange_adds_the_range 2 6
                  (mkLiveInterval [mkLiveRange 6 9] [] None (-1))
                  ltac:(simpl; lia) ltac:(lia))).
  reflexivity.
Defined.

Lemma covers_from_cons q c next :
  covers_from q (c :: next)
  = ((start_ c <=? q) && (q <? end_ c)) || covers_from q next.
Proof. simpl. destruct (_ && _); reflexivity. Qed.

(** A covered position of an ordered chain is at or after its start. *)
Lemma covers_from_start q first next :
  ordered (first :: next) -> covers_from q (first :: next) = true -> start_ first <= q.
Proof.
  intros Hord Hc. apply covers_from_spec in Hc as (r & Hin & Hr).
  destruct (ordered_in _ _ _ Hord Hin). unfold in_range in Hr. lia.
Qed.

(** X11: [GetStart] is the first position an interval with an ordered
    chain covers: it is covered and no covered position lies before it.
    On an interval without ranges [GetStart] dereferences a null
    pointer. *)
Theorem GetStart_is_the_first_position this :
  (first_range_ this = [] -> GetStart this = None) /\
  (forall start, ordered (first_range_ this) -> GetStart this = Some start ->
     Covers start this = true /\
     forall q, Covers q this = true -> start <= q).
Proof.
  unfold GetStart, Covers. split.
  - intros ->. reflexivity.
  - intros start Hord Hs.
    destruct (first_range_ this) as [|first next]; [discriminate|].
    injection Hs as <-. pose proof (ordered_head _ _ Hord). split.
    + rewrite covers_from_cons. lia.
    + intros q. apply covers_from_start. exact Hord.
Qed.

Lemma GetStart_is_the_first_position_witness :
  Covers 2 (mkLiveInterval [mkLiveRange 2 6; mkLiveRange 10 20] [] None (-1)) = true /\
  forall q,
    Covers q (mkLiveInterval [mkLiveRange 2 6; mkLiveRange 10 20] [] None (-1)) = true ->
    2 <= q.
Proof.
  apply (proj2 (GetStart_is_the_first_position
                  (mkLiveInterval [mkLiveRange 2 6; mkLiveRange 10 20] [] None (-1))) 2);
    [simpl; lia|reflexivity].
Defined.

(** The last range of an ordered chain ends last. *)
Lemma ordered_last ranges l :
  ordered ranges -> last ranges = Some l ->
  In l ranges /\ forall r, In r ranges -> end_ r <= end_ l.
Proof.
  induction ranges as [|r0 next IH]; intros Hord Hl; [discriminate|].
  destruct next as [|r1 next'].
  - injection Hl as <-. split; [left; reflexivity|].
    intros r [<-|[]]. lia.
  - assert (Hl' : last (r1 :: next') = Some l) by exact Hl.
    destruct (IH (ordered_tail _ _ Hord) Hl') as [Hin Hmax].
    split; [right; exact Hin|].
    intros r [<-|Hr]; [|apply Hmax; exact Hr].
    destruct (ordered_after _ _ _ Hord Hin). lia.
Qed.

(** X12: on an interval with an ordered chain [IsDeadAt] compares the
    position with the end of the last range, and holds exactly when the
    interval covers no position at or after it. *)
Theorem IsDeadAt_nothing_covered_after position this last :
  ordered (first_range_ this) -> last_range_ this = Some last ->
  IsDeadAt position this = Some (end_ last <=? position) /\
  (IsDeadAt position this = Some true <->
   forall q, position <= q -> Covers q this = false).
Proof.
  intros Hord Hlast. unfold IsDeadAt. rewrite Hlast. cbn [mbind option_bind].
  split; [reflexivity|].
  destruct (ordered_last _ _ Hord Hlast) as [Hin Hmax].
  assert (Hne : start_ last < end_ last).
  { destruct (first_range_ this) as [|f n]; [destruct Hin|].
    apply (ordered_in _ _ _ Hord Hin). }
  unfold Covers. split.
  - intros H q Hq. injection H as H. apply Z.leb_le in H.
    destruct (covers_from q (first_range_ this)) eqn:Hc; [|reflexivity].
    apply covers_from_spec in Hc as (r & Hr & Hqr). specialize (Hmax r Hr).
    unfold in_range in Hqr. lia.
  - intros H. f_equal. apply Z.leb_le.
    destruct (Z.le_gt_cases (end_ last) position) as [|Hgt]; [assumption|].
    specialize (H (Z.max position (start_ last)) ltac:(lia)).
    assert (Hc : covers_from (Z.max position (start_ last)) (first_range_ this) = true).
    { apply covers_from_spec. exists last. split; [exact Hin|]. unfold in_range. lia. }
    rewrite Hc in H. discriminate.
Qed.

Lemma IsDeadAt_nothing_covered_after_witness :
  IsDeadAt 20 (mkLiveInterval [mkLiveRange 2 6; mkLiveRange 10 20] [] None (-1))
  = Some (20 <=? 20) /\
  (IsDeadAt 20 (mkLiveInterval [mkLiveRange 2 6; mkLiveRange 10 20] [] None (-1))
   = Some true <->
   forall q, 20 <= q ->
     Covers q (mkLiveInterval [mkLiveRange 2 6; mkLiveRange 10 20] [] None (-1)) = false).
Proof.
  apply (IsDeadAt_nothing_covered_after 20
           (mkLiveInterval [mkLiveRange 2 6; mkLiveRange 10 20] [] None (-1))
           (mkLiveRange 10 20)); [simpl; lia|reflexivity].
Defined.

(** X13: [SetFrom] fails on an interval without ranges; on an ordered
    chain, given a position before the end of the first range, it makes
    that position the start, and the interval then covers what it covered
    at or after the position when the start moves forward, and what it
    covered and the positions up to the old start when it moves back. *)
Theorem SetFrom_moves_the_start from this :
  (first_range_ this = [] -> SetFrom from this = None) /\
  (forall first next,
     ordered (first_range_ this) -> first_range_ this = first :: next ->
     from < end_ first ->
     exists this',
       SetFrom from this = Some this' /\ GetStart this' = Some from /\
       forall q,
         Covers q this'
         = if start_ first <=? from then Covers q this && (from <=? q)
           else Covers q this || ((from <=? q) && (q <? start_ first))).
Proof.
  unfold SetFrom, Covers, GetStart. split.
  - intros ->. reflexivity.
  - intros first next Hord Hr Hfrom. rewrite Hr in *.
    eexists. split; [reflexivity|]. split; [reflexivity|].
    intros q. cbn [first_range_ set_first_range set_first_start].
    rewrite !covers_from_cons. cbn [start_ end_].
    pose proof (ordered_head _ _ Hord) as Hne.
    destruct (covers_from q next) eqn:Hc.
    + pose proof (covers_from_after _ _ _ Hord Hc).
      destruct (Z.leb_spec (start_ first) from); lia.
    + destruct (Z.leb_spec (start_ first) from); lia.
Qed.

Lemma SetFrom_moves_the_start_witness :
  exists this',
    SetFrom 4 (mkLiveInterval [mkLiveRange 2 6; mkLiveRange 10 20] [] None (-1))
    = Some this' /\ GetStart this' = Some 4 /\
    forall q,
      Covers q this'
      = if 2 <=? 4
        then Covers q (mkLiveInterval [mkLiveRange 2 6; mkLiveRange 10 20] [] None (-1))
             && (4 <=? q)
        else Covers q (mkLiveInterval [mkLiveRange 2 6; mkLiveRange 10 20] [] None (-1))
             || ((4 <=? q) && (q <? 2)).
Proof.
  apply (proj2 (SetFrom_moves_the_start 4
                  (mkLiveInterval [mkLiveRange 2 6; mkLiveRange 10 20] [] None (-1)))
               (mkLiveRange 2 6) [mkLiveRange 10 20]);
    [simpl; lia|reflexivity|simpl; lia].
Defined.

Lemma drop_loop_ranges_covers start end' q : forall ranges rest,
  drop_loop_ranges start end' ranges = Some rest -> end' <= q ->
  covers_from q rest = covers_from q ranges.
Proof.
  induction ranges as [|first next IH]; intros rest H Hq.
  - injection H as <-. reflexivity.
  - simpl in H. destruct (Z.ltb_spec (end_ first) end').
    + destruct (_ <=? _); [|discriminate].
      rewrite covers_from_cons, (IH rest H Hq).
      destruct (covers_from q next); lia.
    + injection H as <-. reflexivity.
Qed.

(** X14: after [AddLoopRange] on an ordered chain the interval starts at
    the start of the loop, covers every position of the loop and, after
    the loop, every position it covered; it covers nothing before the
    start of the loop. *)
Theorem AddLoopRange_covers_the_loop start end' this this' :
  start < end' -> ordered (first_range_ this) ->
  AddLoopRange start end' this = Some this' ->
  GetStart this' = Some start /\
  (forall q, start <= q < end' -> Covers q this' = true) /\
  (forall q, end' <= q -> Covers q this = true -> Covers q this' = true) /\
  (forall q, Covers q this' = true -> start <= q).
Proof.
  intros Hse Hord H.
  pose proof (AddLoopRange_ordered _ _ _ _ Hse Hord H) as Hord'.
  unfold AddLoopRange in H. unfold Covers, GetStart.
  destruct (first_range_ this) as [|f0 n0] eqn:Hr; [discriminate|].
  destruct (drop_loop_ranges _ _ _) as [rest|] eqn:Hd; [|discriminate].
  cbn [mbind option_bind] in H.
  destruct (drop_loop_ranges_spec _ _ _ _ Hd Hord) as [Hrest Hend].
  assert (Hsame : forall q, end' <= q -> covers_from q rest = covers_from q (f0 :: n0))
    by (intros q; apply drop_loop_ranges_covers with (1 := Hd)).
  destruct rest as [|first next].
  - unfold new_LiveRange in H. destruct (Z.ltb_spec start end'); [|lia].
    cbn in H. injection H as <-. cbn [first_range_ set_first_range] in *.
    split; [reflexivity|]. split; [|split].
    + intros q Hq. rewrite covers_from_cons. cbn. lia.
    + intros q Hq Hc. rewrite <- (Hsame q Hq) in Hc. discriminate.
    + intros q. apply covers_from_start. exact Hord'.
  - injection H as <-. cbn [first_range_ set_first_range set_first_start] in *.
    specialize (Hend first next eq_refl).
    split; [reflexivity|]. split; [|split].
    + intros q Hq. rewrite covers_from_cons. cbn. lia.
    + intros q Hq Hc. rewrite <- (Hsame q Hq) in Hc.
      rewrite covers_from_cons in Hc |- *. cbn [start_ end_].
      destruct (covers_from q next); lia.
    + intros q. apply covers_from_start. exact Hord'.
Qed.

Lemma AddLoopRange_covers_the_loop_witness :
  exists this',
    AddLoopRange 4 12 (mkLiveInterval [mkLiveRange 5 7; mkLiveRange 10 20] [] None (-1))
    = Some this' /\
    GetStart this' = Some 4 /\
    (forall q, 4 <= q < 12 -> Covers q this' = true) /\
    (forall q, 12 <= q ->
       Covers q (mkLiveInterval [mkLiveRange 5 7; mkLiveRange 10 20] [] None (-1)) = true ->
       Covers q this' = true) /\
    (forall q, Covers q this' = true -> 4 <= q).
Proof.
  eexists. split; [reflexivity|].
  apply (AddLoopRange_covers_the_loop 4 12
           (mkLiveInterval [mkLiveRange 5 7; mkLiveRange 10 20] [] None (-1)));
    [lia|simpl; lia|reflexivity].
Defined.

(** ** Uses *)

(** X15: [AddUse] makes the interval start at the start of the block of
    the user and cover every position from there to the user, keeps every
    position it covered, and puts the use at the head of the chain of
    uses. *)
Theorem AddUse_lives_up_to_the_use instruction this this' :
  ordered (first_range_ this) ->
  GetLifetimeStart (GetBlock instruction) <= GetLifetimeEnd (GetBlock instruction) ->
  GetLifetimePosition instruction <= GetLifetimeEnd (GetBlock instruction) ->
  AddUse instruction this = Some this' ->
  GetStart this' = Some (GetLifetimeStart (GetBlock instruction)) /\
  (forall q,
     GetLifetimeStart (GetBlock instruction) <= q < GetLifetimePosition instruction ->
     Covers q this' = true) /\
  (forall q, Covers q this = true -> Covers q this' = true) /\
  first_use_ this'
  = mkUsePosition instruction (GetLifetimePosition instruction) :: first_use_ this.
Proof.
  intros Hord Hblock Hpos H. unfold AddUse in H. unfold GetStart, Covers.
  assert (Huse : forall ranges,
            (uses ← new_UsePosition instruction (GetLifetimePosition instruction)
                      (first_use_ this);
             Some (set_first_use uses (set_first_range ranges this))) = Some this' ->
            first_range_ this' = ranges
            /\ first_use_ this'
               = mkUsePosition instruction (GetLifetimePosition instruction)
                 :: first_use_ this).
  { intros ranges Hu. unfold new_UsePosition in Hu.
    destruct (_ && _); [|discriminate]. cbn in Hu. injection Hu as <-.
    split; reflexivity. }
  destruct (first_range_ this) as [|first next] eqn:Hr.
  - unfold new_LiveRange in H at 1.
    destruct (Z.ltb_spec (GetLifetimeStart (GetBlock instruction))
                (GetLifetimePosition instruction)); [|discriminate].
    cbn [andb mbind option_bind] in H.
    destruct (Huse _ H) as [-> ->].
    split; [reflexivity|]. split; [|split; [|reflexivity]].
    + intros q Hq. rewrite covers_from_cons. cbn. lia.
    + intros q Hc. discriminate.
  - pose proof (ordered_head _ _ Hord) as Hne.
    destruct (Z.eqb_spec (start_ first) (GetLifetimeStart (GetBlock instruction)))
      as [E1|N1].
    + destruct (Z.leb_spec (GetLifetimePosition instruction) (end_ first));
        [|discriminate].
      cbn [mbind option_bind] in H. destruct (Huse _ H) as [-> ->].
      split; [f_equal; exact E1|]. split; [|split; [|reflexivity]].
      * intros q Hq. rewrite covers_from_cons. lia.
      * intros q Hc. exact Hc.
    + destruct (Z.eqb_spec (start_ first) (GetLifetimeEnd (GetBlock instruction)))
        as [E2|N2].
      * cbn [mbind option_bind] in H. destruct (Huse _ H) as [-> ->].
        cbn [set_first_start]. split; [reflexivity|].
        split; [|split; [|reflexivity]].
        -- intros q Hq. rewrite covers_from_cons. cbn. lia.
        -- intros q Hc. rewrite covers_from_cons in Hc |- *. cbn [start_ end_].
           destruct (covers_from q next); lia.
      * unfold new_LiveRange in H at 1.
        destruct (_ && _) eqn:E; [|discriminate].
        cbn [mbind option_bind] in H. destruct (Huse _ H) as [-> ->].
        split; [reflexivity|]. split; [|split; [|reflexivity]].
        -- intros q Hq. rewrite covers_from_cons. cbn. lia.
        -- intros q Hc. rewrite covers_from_cons. rewrite Hc. apply orb_true_r.
Qed.

Lemma AddUse_lives_up_to_the_use_witness :
  let user := mkHInstruction 14 (mkHBasicBlock 10 20) false false in
  exists this',
    AddUse user (mkLiveInterval [mkLiveRange 20 26] [] None (-1)) = Some this' /\
    GetStart this' = Some 10 /\
    (forall q, 10 <= q < 14 -> Covers q this' = true) /\
    (forall q, Covers q (mkLiveInterval [mkLiveRange 20 26] [] None (-1)) = true ->
               Covers q this' = true) /\
    first_use_ this' = [mkUsePosition user 14].
Proof.
  intros user. eexists. split; [reflexivity|].
  apply (AddUse_lives_up_to_the_use user
           (mkLiveInterval [mkLiveRange 20 26] [] None (-1)));
    [simpl; lia|simpl; lia|simpl; lia|reflexivity].
Defined.

Lemma sorted_uses_tail u next : sorted_uses (u :: next) -> sorted_uses next.
Proof. intros [_ H]. exact H. Qed.

Lemma sorted_uses_after u next n :
  sorted_uses (u :: next) -> In n next -> position_ u <= position_ n.
Proof.
  revert u. induction next as [|m next IH]; intros u Hs Hin; [destruct Hin|].
  destruct Hs as [Hum Hs]. destruct Hin as [<-|Hin]; [exact Hum|].
  specialize (IH m Hs Hin). lia.
Qed.

(** X16: the chain of uses stays sorted: [AddUse] and [AddPhiUse] put the
    new use at the head and fail when its position is beyond that of the
    head, and [SplitAt] gives both intervals the chain as it is. *)
Theorem uses_stay_sorted this :
  sorted_uses (first_use_ this) ->
  (forall instruction this',
     AddUse instruction this = Some this' ->
     sorted_uses (first_use_ this')
     /\ first_use_ this'
        = mkUsePosition instruction (GetLifetimePosition instruction)
          :: first_use_ this) /\
  (forall instruction block this',
     AddPhiUse instruction block this = Some this' ->
     sorted_uses (first_use_ this')
     /\ first_use_ this'
        = mkUsePosition instruction (GetLifetimeEnd block) :: first_use_ this) /\
  (forall instruction block u uses,
     first_use_ this = u :: uses ->
     (position_ u < GetLifetimePosition instruction ->
      AddUse instruction this = None) /\
     (position_ u < GetLifetimeEnd block ->
      AddPhiUse instruction block this = None)) /\
  (forall position sibling this' new_interval,
     SplitAt position sibling this = Some (this', Some new_interval) ->
     first_use_ this' = first_use_ this
     /\ first_use_ new_interval = first_use_ this).
Proof.
  intros Hs.
  assert (Hnew : forall user position uses',
            new_UsePosition user position (first_use_ this) = Some uses' ->
            uses' = mkUsePosition user position :: first_use_ this
            /\ sorted_uses uses').
  { intros user position uses' H. unfold new_UsePosition in H.
    destruct (_ && _) eqn:E; [|discriminate]. injection H as <-.
    split; [reflexivity|]. split; [|exact Hs].
    apply andb_prop in E as [_ E]. destruct (first_use_ this); [exact I|].
    apply Z.leb_le in E. exact E. }
  split; [|split; [|split]].
  - intros instruction this' H. unfold AddUse in H.
    destruct (match first_range_ this with [] => _ | _ => _ end) as [ranges|];
      [|discriminate].
    cbn [mbind option_bind] in H.
    destruct (new_UsePosition _ _ _) as [uses'|] eqn:Hu; [|discriminate].
    injection H as <-. destruct (Hnew _ _ _ Hu) as [-> Hsorted].
    split; [exact Hsorted|reflexivity].
  - intros instruction block this' H. unfold AddPhiUse in H.
    destruct (IsPhi instruction); [|discriminate].
    destruct (new_UsePosition _ _ _) as [uses'|] eqn:Hu; [|discriminate].
    injection H as <-. destruct (Hnew _ _ _ Hu) as [-> Hsorted].
    split; [exact Hsorted|reflexivity].
  - intros instruction block u uses Hu. split; intros Hlt.
    + unfold AddUse.
      destruct (match first_range_ this with [] => _ | _ => _ end); [|reflexivity].
      cbn [mbind option_bind]. unfold new_UsePosition. rewrite Hu.
      destruct (Z.leb_spec (GetLifetimePosition instruction) (position_ u)); [lia|].
      rewrite andb_false_r. reflexivity.
    + unfold AddPhiUse. destruct (IsPhi instruction); [|reflexivity].
      unfold new_UsePosition. rewrite Hu.
      destruct (Z.leb_spec (GetLifetimeEnd block) (position_ u)); [lia|].
      rewrite andb_false_r. reflexivity.
  - intros position sibling this' new_interval H. unfold SplitAt in H.
    destruct (next_sibling_ this); [discriminate|].
    destruct (GetStart this); [|discriminate]. cbn [mbind option_bind] in H.
    destruct (_ <? _); [|discriminate].
    destruct (IsDeadAt position this) as [[|]|]; cbn [mbind option_bind] in H;
      [discriminate| |discriminate].
    destruct (split_ranges _ _ _) as [[mine theirs]|]; [|discriminate].
    cbn [mbind option_bind] in H. injection H as <- <-. split; reflexivity.
Qed.

Lemma uses_stay_sorted_witness :
  let user := mkHInstruction 14 (mkHBasicBlock 10 20) false false in
  let this := mkLiveInterval [] [mkUsePosition user 14] None (-1) in
  AddUse (mkHInstruction 16 (mkHBasicBlock 10 20) false false) this = None.
Proof.
  intros user this.
  apply (proj1 (proj1 (proj2 (proj2 (uses_stay_sorted this ltac:(simpl; auto))))
                  (mkHInstruction 16 (mkHBasicBlock 10 20) false false)
                  (mkHBasicBlock 10 20) (mkUsePosition user 14) [] eq_refl)).
  simpl. lia.
Defined.

(** X17: on a sorted chain of uses [FirstRegisterUseAfter] returns the
    position of the first use, at or after the position, by an
    instruction that needs no environment, which is the least position of
    such a use; when there is no such use it returns [kNoLifetime]. *)
Theorem FirstRegisterUseAfter_is_the_least position this :
  sorted_uses (first_use_ this) ->
  (FirstRegisterUseAfter position this = kNoLifetime
   /\ forall u, In u (first_use_ this) -> ~ register_use_after position u)
  \/ (exists u,
        In u (first_use_ this) /\ register_use_after position u
        /\ FirstRegisterUseAfter position this = position_ u
        /\ forall u', In u' (first_use_ this) -> register_use_after position u' ->
                      position_ u <= position_ u').
Proof.
  unfold FirstRegisterUseAfter, register_use_after.
  induction (first_use_ this) as [|u next IH]; intros Hs.
  - left. split; [reflexivity|]. intros u [].
  - cbn [first_register_use_from].
    destruct (Z.leb_spec position (position_ u)) as [Hle|Hgt];
      destruct (NeedsEnvironment (user_ u)) eqn:Hn; cbn [negb andb].
    2: { right. exists u. split; [left; reflexivity|]. split; [auto|].
         split; [reflexivity|]. intros u' [<-|Hin] _; [lia|].
         apply (sorted_uses_after _ _ _ Hs Hin). }
    all: destruct (IH (sorted_uses_tail _ _ Hs)) as [[Hr Hnone]|(v & Hin & Hv & Hr & Hmin)].
    all: try (left; split; [exact Hr|];
              intros u' [<-|Hin'] [H1 H2]; [congruence || lia|];
              apply (Hnone u' Hin'); auto).
    all: right; exists v; split; [right; exact Hin|]; split; [exact Hv|];
         split; [exact Hr|];
         intros u' [<-|Hin'] [H1 H2]; [congruence || lia|]; apply Hmin; auto.
Qed.

Lemma FirstRegisterUseAfter_is_the_least_witness :
  let user p env := mkUsePosition (mkHInstruction p (mkHBasicBlock 0 40) false env) p in
  let this := mkLiveInterval [] [user 4 false; user 10 true; user 12 false] None (-1) in
  (FirstRegisterUseAfter 6 this = kNoLifetime
   /\ forall u, In u (first_use_ this) -> ~ register_use_after 6 u)
  \/ (exists u,
        In u (first_use_ this) /\ register_use_after 6 u
        /\ FirstRegisterUseAfter 6 this = position_ u
        /\ forall u', In u' (first_use_ this) -> register_use_after 6 u' ->
                      position_ u <= position_ u').
Proof.
  intros user this.
  apply (FirstRegisterUseAfter_is_the_least 6 this). simpl. lia.
Defined.

End LivenessMore.

Module BuilderMore.
Import Builder BuilderFacts.

(** ** What a run leaves as it was *)

Lemma keeps_ret {A X} (f : HGraphBuilder -> X) (a : A) : keeps f (ret a).
Proof. intros st a' st' [= <- <-]. reflexivity. Qed.

Lemma keeps_abort {A X} (f : HGraphBuilder -> X) : keeps f (@abort _ A).
Proof. intros st a st' H. discriminate H. Qed.

Lemma keeps_gets {A X} (f : HGraphBuilder -> X) (g : HGraphBuilder -> A) :
  keeps f (gets g).
Proof. intros st a st' [= <- <-]. reflexivity. Qed.

Lemma keeps_DCHECK {X} (f : HGraphBuilder -> X) b : keeps f (DCHECK b).
Proof. intros st a st' H. unfold DCHECK in H. destruct b; [|discriminate].
  injection H as <- <-. reflexivity. Qed.

Lemma keeps_modify {X} (f : HGraphBuilder -> X) g :
  (forall st, f (g st) = f st) -> keeps f (modify g).
Proof. intros Hg st a st' [= <- <-]. apply Hg. Qed.

Lemma keeps_bind {A C X} (f : HGraphBuilder -> X) (c : B A) (k : A -> B C) :
  keeps f c -> (forall a, keeps f (k a)) -> keeps f (bindM c k).
Proof.
  intros Hc Hk st b st' H. apply bindM_Some in H as (a & st1 & H1 & H2).
  rewrite (Hk a _ _ _ H2). apply (Hc _ _ _ H1).
Qed.

Ltac keeps_step :=
  first
    [ apply keeps_ret | apply keeps_abort | apply keeps_gets | apply keeps_DCHECK
    | apply keeps_modify; intros; reflexivity
    | apply keeps_bind; [|intros]
    | assumption
    | match goal with
      | |- keeps _ (match ?x with _ => _ end) => destruct x
      | |- keeps _ (if ?x then _ else _) => destruct x
      end ].

Ltac keeps_auto := repeat keeps_step.

Section Frame.

Context {X : Type} (f : HGraphBuilder -> X).
Hypothesis f_instructions : forall l st, f (set_arena_instructions l st) = f st.
Hypothesis f_blocks : forall l st, f (set_arena_blocks l st) = f st.
Hypothesis f_constant0 : forall c st, f (set_constant0 c st) = f st.
Hypothesis f_constant1 : forall c st, f (set_constant1 c st) = f st.

Ltac frame_step :=
  first
    [ apply keeps_ret | apply keeps_abort | apply keeps_gets | apply keeps_DCHECK
    | apply keeps_modify; intros;
      first [apply f_instructions | apply f_blocks | apply f_constant0
            | apply f_constant1]
    | apply keeps_bind; [|intros]
    | assumption
    | match goal with
      | |- keeps _ (match ?x with _ => _ end) => destruct x
      | |- keeps _ (if ?x then _ else _) => destruct x
      end ].

Lemma keeps_new_instruction i : keeps f (new_instruction i).
Proof. unfold new_instruction. repeat frame_step. Qed.

Lemma keeps_new_HBasicBlock : keeps f new_HBasicBlock.
Proof. unfold new_HBasicBlock. repeat frame_step. Qed.

Lemma keeps_update_block block g : keeps f (update_block block g).
Proof. unfold update_block. repeat frame_step. Qed.

Lemma keeps_AddInstruction block i : keeps f (AddInstruction block i).
Proof. apply keeps_update_block. Qed.

Lemma keeps_AddSuccessor block s : keeps f (AddSuccessor block s).
Proof. apply keeps_update_block. Qed.

Lemma keeps_GetLastInstruction block : keeps f (GetLastInstruction block).
Proof. unfold GetLastInstruction. repeat frame_step. Qed.

Lemma keeps_Get {A} (array : list A) index : keeps f (Get array index).
Proof. unfold Get. repeat frame_step. Qed.

Lemma keeps_FindBlockStartingAt index : keeps f (FindBlockStartingAt index).
Proof. unfold FindBlockStartingAt. repeat frame_step. apply keeps_Get. Qed.

Lemma keeps_GetLocalAt index : keeps f (GetLocalAt index).
Proof. unfold GetLocalAt. repeat frame_step. apply keeps_Get. Qed.

Lemma keeps_current_block : keeps f current_block.
Proof. unfold current_block. repeat frame_step. Qed.

Lemma keeps_UpdateLocal register_index i : keeps f (UpdateLocal register_index i).
Proof.
  unfold UpdateLocal.
  repeat first [apply keeps_GetLocalAt | apply keeps_current_block
               | apply keeps_new_instruction | apply keeps_AddInstruction
               | frame_step].
Qed.

Lemma keeps_LoadLocal register_index : keeps f (LoadLocal register_index).
Proof.
  unfold LoadLocal.
  repeat first [apply keeps_GetLocalAt | apply keeps_current_block
               | apply keeps_new_instruction | apply keeps_AddInstruction
               | apply keeps_GetLastInstruction | frame_step].
Qed.

Lemma keeps_GetConstant constant : keeps f (GetConstant constant).
Proof.
  unfold GetConstant, GetConstant0, GetConstant1.
  repeat first [apply keeps_new_instruction | apply keeps_AddInstruction | frame_step].
Qed.

Ltac frame_auto :=
  repeat first
    [ apply keeps_GetLocalAt | apply keeps_current_block
    | apply keeps_new_instruction | apply keeps_AddInstruction
    | apply keeps_AddSuccessor | apply keeps_GetLastInstruction
    | apply keeps_UpdateLocal | apply keeps_LoadLocal | apply keeps_GetConstant
    | apply keeps_FindBlockStartingAt | apply keeps_new_HBasicBlock
    | frame_step ].

Lemma keeps_Binop_32x T instruction : keeps f (Binop_32x T instruction).
Proof. unfold Binop_32x. frame_auto. Qed.

Lemma keeps_Binop_12x T instruction : keeps f (Binop_12x T instruction).
Proof. unfold Binop_12x. frame_auto. Qed.

Lemma keeps_Binop_22s T instruction reverse :
  keeps f (Binop_22s T instruction reverse).
Proof. unfold Binop_22s. frame_auto. Qed.

Lemma keeps_push_arguments invoke : forall registers i,
  keeps f (push_arguments invoke registers i).
Proof.
  induction registers as [|register registers IH]; intros i; cbn [push_arguments].
  - apply keeps_ret.
  - frame_auto. apply IH.
Qed.

Section WithVar.
Variable return_type_descriptor : Z -> Z.

Lemma keeps_analyze_invoke method_idx n dex_offset registers :
  keeps f (analyze_invoke return_type_descriptor method_idx n dex_offset registers).
Proof. unfold analyze_invoke. frame_auto. apply keeps_push_arguments. Qed.

End WithVar.

Section Current.
Variable return_type_descriptor : Z -> Z.
Hypothesis f_current : forall c st, f (set_current_block c st) = f st.

Lemma keeps_If_22t T instruction dex_offset is_not :
  keeps f (If_22t T instruction dex_offset is_not).
Proof.
  unfold If_22t. frame_auto.
  all: try (apply keeps_modify; intros; apply f_current).
Qed.

Lemma keeps_AnalyzeDexInstruction instruction dex_offset :
  keeps f (AnalyzeDexInstruction return_type_descriptor instruction dex_offset).
Proof.
  unfold AnalyzeDexInstruction, Binop_22b.
  apply keeps_bind; [apply keeps_gets|]. intros [block|]; [|apply keeps_ret].
  destruct (Opcode instruction).
  all: repeat first
         [ apply keeps_analyze_invoke | apply keeps_If_22t
         | apply keeps_Binop_32x | apply keeps_Binop_12x | apply keeps_Binop_22s
         | apply keeps_modify; intros; apply f_current
         | frame_auto ].
Qed.

End Current.

End Frame.

(** ** The current block after an instruction *)

Local Abbreviation clears c :=
  (forall st a st', c st = Some (a, st') -> current_block_ st' = None).

Lemma clears_bind_r {A C} (c : B A) (k : A -> B C) :
  (forall a, clears (k a)) -> clears (bindM c k).
Proof.
  intros Hk st b st' H. apply bindM_Some in H as (a & st1 & _ & H2).
  apply (Hk a _ _ _ H2).
Qed.

Lemma clears_bind_l {A C} (c : B A) (k : A -> B C) :
  clears c -> (forall a, keeps current_block_ (k a)) -> clears (bindM c k).
Proof.
  intros Hc Hk st b st' H. apply bindM_Some in H as (a & st1 & H1 & H2).
  rewrite (Hk a _ _ _ H2). apply (Hc _ _ _ H1).
Qed.

Lemma clears_then_ret {C} (c : C) :
  clears (bindM (modify (set_current_block None)) (fun _ => ret c)).
Proof. intros st a st' [= <- <-]. reflexivity. Qed.

Lemma clears_modify : clears (modify (set_current_block None)).
Proof. intros st a st' [= <- <-]. reflexivity. Qed.

Lemma clears_abort {A} : clears (@abort HGraphBuilder A).
Proof. intros st a st' H. discriminate H. Qed.

Ltac clears_auto :=
  repeat first
    [ apply clears_then_ret | apply clears_modify | apply clears_abort
    | apply clears_bind_r; intro
    | match goal with
      | |- forall st a st', (match ?x with _ => _ end) st = _ -> _ => destruct x
      end ].

Lemma clears_If_22t T instruction dex_offset is_not :
  clears (If_22t T instruction dex_offset is_not).
Proof. unfold If_22t. clears_auto. Qed.

Ltac frame_current :=
  repeat first
    [ apply keeps_analyze_invoke | apply keeps_Binop_32x | apply keeps_Binop_12x
    | apply keeps_Binop_22s | apply keeps_UpdateLocal | apply keeps_LoadLocal
    | apply keeps_GetConstant | apply keeps_new_instruction
    | apply keeps_AddInstruction | apply keeps_GetLastInstruction
    | keeps_step ];
  intros; reflexivity.

(** X18: [AnalyzeDexInstruction] assigns none of the members
    [locals_], [branch_targets_], [entry_block_], [exit_block_] of the
    builder and none of the members of the graph (its list of blocks, its
    entry and exit blocks, its numbers of registers): they are after the
    call what they were before.  The member [current_block_] is null after
    a return, a goto or an if, and is what it was after any other
    instruction.  This is about the members, which name blocks, not about
    what the blocks hold: the call does add instructions to the current
    block, and constants to the entry block. *)
Theorem AnalyzeDexInstruction_moves_only_the_cursor return_type_descriptor
    instruction dex_offset st ok st' :
  AnalyzeDexInstruction return_type_descriptor instruction dex_offset st
  = Some (ok, st') ->
  locals_ st' = locals_ st /\ branch_targets_ st' = branch_targets_ st /\
  entry_block_ st' = entry_block_ st /\ exit_block_ st' = exit_block_ st /\
  graph_ st' = graph_ st /\
  current_block_ st'
  = if ends_block (Opcode instruction) then None else current_block_ st.
Proof.
  intros H.
  repeat match goal with
         | |- ?field st' = ?field st /\ _ =>
           split;
           [apply (keeps_AnalyzeDexInstruction field
                     ltac:(reflexivity) ltac:(reflexivity) ltac:(reflexivity)
                     ltac:(reflexivity) return_type_descriptor ltac:(reflexivity)
                     instruction dex_offset st ok st' H)|]
         end.
  unfold AnalyzeDexInstruction, Binop_22b in H.
  apply bindM_Some in H as (current & st0 & [= <- <-] & H).
  destruct (current_block_ st) as [block|] eqn:Hcur.
  2: { injection H as <- <-. rewrite Hcur. destruct (ends_block _); reflexivity. }
  rewrite <- Hcur. clear Hcur.
  destruct (Opcode instruction); cbn [ends_block].
  all: revert H; revert st'; revert ok; revert st.
  all: first
         [ solve [ clears_auto ]
         | solve [ apply clears_bind_l;
                   [apply clears_If_22t|intro; apply keeps_ret] ]
         | solve [ frame_current ] ].
Qed.

Lemma AnalyzeDexInstruction_moves_only_the_cursor_witness :
  let st :=
    mkHGraphBuilder [] [mkHBasicBlock [] [] 0] (mkHGraph [0%nat] None None 0 0 0)
      0 0 (Some 0%nat) [] [] None None in
  exists ok st',
    AnalyzeDexInstruction (fun _ => 86)
      (mkInstruction RETURN_VOID 1 false 0 0 0 0 []) 0 st = Some (ok, st') /\
    locals_ st' = locals_ st /\ branch_targets_ st' = branch_targets_ st /\
    entry_block_ st' = entry_block_ st /\ exit_block_ st' = exit_block_ st /\
    graph_ st' = graph_ st /\ current_block_ st' = None.
Proof.
  intros st. eexists _, _. split; [reflexivity|].
  eapply (AnalyzeDexInstruction_moves_only_the_cursor (fun _ => 86)
            (mkInstruction RETURN_VOID 1 false 0 0 0 0 []) 0 st).
  reflexivity.
Defined.

(** ** Constants *)

Lemma AddInstruction_run st block i b :
  arena_blocks st !! block = Some b ->
  AddInstruction block i st
  = Some (tt, set_arena_blocks
                (<[block := mkHBasicBlock (instructions_ b ++ [i]) (successors_ b)
                              (block_id_ b)]> (arena_blocks st)) st).
Proof.
  intros H. unfold AddInstruction, update_block, bindM, gets. rewrite H. reflexivity.
Qed.

Lemma AddInstruction_None st block i :
  arena_blocks st !! block = None -> AddInstruction block i st = None.
Proof.
  intros H. unfold AddInstruction, update_block, bindM, gets. rewrite H. reflexivity.
Qed.

Lemma GetConstant0_run st :
  GetConstant0 st
  = match constant0_ st with
    | Some k => Some (k, st)
    | None =>
      match arena_blocks st !! entry_block_ st with
      | Some b =>
        Some (length (arena_instructions st),
              set_arena_blocks
                (<[entry_block_ st :=
                     mkHBasicBlock (instructions_ b ++ [length (arena_instructions st)])
                                   (successors_ b) (block_id_ b)]> (arena_blocks st))
                (set_constant0 (Some (length (arena_instructions st)))
                   (set_arena_instructions
                      (arena_instructions st ++ [HIntConstant 0]) st)))
      | None => None
      end
    end.
Proof.
  unfold GetConstant0, bindM, gets, new_instruction, modify, ret, AddInstruction,
    update_block. cbn.
  destruct (constant0_ st); [reflexivity|].
  destruct (arena_blocks st !! entry_block_ st); reflexivity.
Qed.

Lemma GetConstant1_run st :
  GetConstant1 st
  = match constant1_ st with
    | Some k => Some (k, st)
    | None =>
      match arena_blocks st !! entry_block_ st with
      | Some b =>
        Some (length (arena_instructions st),
              set_arena_blocks
                (<[entry_block_ st :=
                     mkHBasicBlock (instructions_ b ++ [length (arena_instructions st)])
                                   (successors_ b) (block_id_ b)]> (arena_blocks st))
                (set_constant1 (Some (length (arena_instructions st)))
                   (set_arena_instructions
                      (arena_instructions st ++ [HIntConstant 1]) st)))
      | None => None
      end
    end.
Proof.
  unfold GetConstant1, bindM, gets, new_instruction, modify, ret, AddInstruction,
    update_block. cbn.
  destruct (constant1_ st); [reflexivity|].
  destruct (arena_blocks st !! entry_block_ st); reflexivity.
Qed.

Lemma GetConstant_other_run constant st :
  constant <> 0 -> constant <> 1 ->
  GetConstant constant st
  = match arena_blocks st !! entry_block_ st with
    | Some b =>
      Some (length (arena_instructions st),
            set_arena_blocks
              (<[entry_block_ st :=
                   mkHBasicBlock (instructions_ b ++ [length (arena_instructions st)])
                                 (successors_ b) (block_id_ b)]> (arena_blocks st))
              (set_arena_instructions
                 (arena_instructions st ++ [HIntConstant constant]) st))
    | None => None
    end.
Proof.
  intros N0 N1. unfold GetConstant.
  destruct (Z.eqb_spec constant 0); [contradiction|].
  destruct (Z.eqb_spec constant 1); [contradiction|].
  unfold bindM, gets, new_instruction, modify, ret, AddInstruction, update_block. cbn.
  destruct (arena_blocks st !! entry_block_ st); reflexivity.
Qed.

(** X19: [GetConstant] shares the nodes of 0 and of 1: a second call
    returns the node of the first and changes nothing.  For any other
    constant every call makes a new node, at the end of the arena and of
    the entry block.  A call that has a node to make runs exactly when the
    entry block is a block of the arena. *)
Theorem GetConstant_shares_0_and_1 constant st :
  (forall c st1, GetConstant constant st = Some (c, st1) ->
     if (constant =? 0) || (constant =? 1)
     then GetConstant constant st1 = Some (c, st1)
     else c = length (arena_instructions st)
          /\ arena_instructions st1 = arena_instructions st ++ [HIntConstant constant]
          /\ exists st2,
               GetConstant constant st1 = Some (S c, st2)
               /\ node st2 c = Some (HIntConstant constant)
               /\ node st2 (S c) = Some (HIntConstant constant)) /\
  (entry_in_arena st -> is_Some (GetConstant constant st)) /\
  ((if constant =? 0 then constant0_ st
    else if constant =? 1 then constant1_ st else None) = None ->
   ~ entry_in_arena st -> GetConstant constant st = None).
Proof.
  unfold entry_in_arena, node.
  destruct (Z.eqb_spec constant 0) as [E0|N0]; [|destruct (Z.eqb_spec constant 1) as [E1|N1]];
    cbn [orb].
  - subst constant. change (GetConstant 0) with GetConstant0.
    split; [|split].
    + intros c st1 H. rewrite GetConstant0_run in H |- *.
      destruct (constant0_ st) as [k|] eqn:Hk.
      * injection H as <- <-. rewrite Hk. reflexivity.
      * destruct (arena_blocks st !! entry_block_ st); [|discriminate].
        injection H as <- <-. reflexivity.
    + intros [b Hb]. rewrite GetConstant0_run, Hb. destruct (constant0_ st); eauto.
    + intros Hc Hn. rewrite GetConstant0_run, Hc.
      destruct (arena_blocks st !! entry_block_ st) eqn:Hb; [|reflexivity].
      exfalso. apply Hn. eauto.
  - subst constant. change (GetConstant 1) with GetConstant1.
    split; [|split].
    + intros c st1 H. rewrite GetConstant1_run in H |- *.
      destruct (constant1_ st) as [k|] eqn:Hk.
      * injection H as <- <-. rewrite Hk. reflexivity.
      * destruct (arena_blocks st !! entry_block_ st); [|discriminate].
        injection H as <- <-. reflexivity.
    + intros [b Hb]. rewrite GetConstant1_run, Hb. destruct (constant1_ st); eauto.
    + intros Hc Hn. rewrite GetConstant1_run, Hc.
      destruct (arena_blocks st !! entry_block_ st) eqn:Hb; [|reflexivity].
      exfalso. apply Hn. eauto.
  - split; [|split].
    + intros c st1 H. rewrite (GetConstant_other_run _ st N0 N1) in H.
      destruct (arena_blocks st !! entry_block_ st) as [b|] eqn:Hb; [|discriminate].
      injection H as <- <-. rewrite (GetConstant_other_run _ _ N0 N1). cbn.
      split; [reflexivity|]. split; [reflexivity|].
      rewrite list_lookup_insert_eq by (apply lookup_lt_Some in Hb; exact Hb).
      eexists. split; [rewrite length_app, Nat.add_1_r; reflexivity|]. cbn.
      split.
      * rewrite lookup_app_l by (rewrite length_app; simpl; lia).
        rewrite lookup_app_r by lia. rewrite Nat.sub_diag. reflexivity.
      * rewrite lookup_app_r by (rewrite length_app; simpl; lia).
        rewrite length_app, Nat.add_1_r, Nat.sub_diag. reflexivity.
    + intros [b Hb]. rewrite (GetConstant_other_run _ _ N0 N1), Hb. eauto.
    + intros _ Hn. rewrite (GetConstant_other_run _ _ N0 N1).
      destruct (arena_blocks st !! entry_block_ st) eqn:Hb; [|reflexivity].
      exfalso. apply Hn. eauto.
Qed.


Lemma GetConstant_shares_0_and_1_witness :
  is_Some (GetConstant 7
             (mkHGraphBuilder [] [mkHBasicBlock [] [] 0] (mkHGraph [0%nat] None None 0 0 0)
                0 0 (Some 0%nat) [] [] None None)).
Proof.
  apply (proj1 (proj2 (GetConstant_shares_0_and_1 7
                         (mkHGraphBuilder [] [mkHBasicBlock [] [] 0]
                            (mkHGraph [0%nat] None None 0 0 0)
                            0 0 (Some 0%nat) [] [] None None)))).
  exists (mkHBasicBlock [] [] 0). reflexivity.
Defined.

(** ** Locals *)

(** One turn of the loop of [InitializeLocals]. *)
Lemma initialize_local_step i remaining st b :
  arena_blocks st !! entry_block_ st = Some b ->
  0 <= i < Z.of_nat (length (locals_ st)) ->
  initialize_locals_from i (S remaining) st
  = initialize_locals_from (i + 1) remaining
      (set_locals (<[Z.to_nat i := Some (length (arena_instructions st))]> (locals_ st))
         (set_arena_blocks
            (<[entry_block_ st :=
                 mkHBasicBlock (instructions_ b ++ [length (arena_instructions st)])
                               (successors_ b) (block_id_ b)]> (arena_blocks st))
            (set_arena_instructions (arena_instructions st ++ [HLocal i]) st))).
Proof.
  intros Hb Hi. cbn [initialize_locals_from].
  unfold bindM, gets, new_instruction, modify, ret, AddInstruction, update_block, Put.
  cbn. rewrite Hb. cbn.
  destruct (Z.leb_spec 0 i); [|lia].
  destruct (Z.ltb_spec i (Z.of_nat (length (locals_ st)))); [|lia].
  reflexivity.
Qed.

Lemma initialize_locals_from_spec : forall remaining i st,
  0 <= i -> Z.of_nat (length (locals_ st)) = i + Z.of_nat remaining ->
  entry_in_arena st ->
  exists st',
    initialize_locals_from i remaining st = Some (tt, st') /\
    length (locals_ st') = length (locals_ st) /\
    graph_ st' = graph_ st /\
    (exists added, arena_instructions st' = arena_instructions st ++ added) /\
    (forall j, 0 <= j < i -> locals_ st' !! Z.to_nat j = locals_ st !! Z.to_nat j) /\
    (forall j, i <= j < i + Z.of_nat remaining ->
       exists l, locals_ st' !! Z.to_nat j = Some (Some l)
                 /\ arena_instructions st' !! l = Some (HLocal j)).
Proof.
  induction remaining as [|remaining IH]; intros i st Hi Hlen [b Hb].
  - exists st. split; [reflexivity|]. split; [reflexivity|]. split; [reflexivity|].
    split; [exists []; rewrite app_nil_r; reflexivity|].
    split; [reflexivity|]. intros j Hj. lia.
  - rewrite (initialize_local_step i remaining st b Hb) by lia.
    match goal with |- context [initialize_locals_from _ _ ?s] => set (st1 := s) end.
    assert (Hlen1 : length (locals_ st1) = length (locals_ st))
      by (subst st1; cbn; apply length_insert).
    destruct (IH (i + 1) st1) as (st' & Hrun & Hl & Hg & [added Ha] & Hbelow & Hset).
    { lia. }
    { rewrite Hlen1. lia. }
    { subst st1. unfold entry_in_arena. cbn.
      rewrite list_lookup_insert_eq by (apply lookup_lt_Some in Hb; exact Hb). eauto. }
    exists st'. split; [exact Hrun|]. split; [congruence|].
    split; [rewrite Hg; reflexivity|].
    split; [exists ([HLocal i] ++ added); rewrite Ha; subst st1; cbn;
            rewrite <- app_assoc; reflexivity|].
    split.
    + intros j Hj. rewrite Hbelow by lia. subst st1. cbn.
      apply list_lookup_insert_ne. lia.
    + intros j Hj. destruct (Z.eq_dec j i) as [->|Hne].
      * exists (length (arena_instructions st)). split.
        -- rewrite Hbelow by lia. subst st1. cbn.
           apply list_lookup_insert_eq. lia.
        -- rewrite Ha. subst st1. cbn. rewrite <- app_assoc.
           rewrite lookup_app_r by lia. rewrite Nat.sub_diag. reflexivity.
      * apply Hset. lia.
Qed.

(** X20: [InitializeLocals] gives the method as many locals as it has
    registers: the graph records the count, and afterwards [GetLocalAt]
    finds for every register below the count an [HLocal] node of that
    number, and fails for any other index. *)
Theorem InitializeLocals_makes_the_locals count st :
  0 <= count -> entry_in_arena st ->
  exists st',
    InitializeLocals count st = Some (tt, st') /\
    Z.of_nat (length (locals_ st')) = count /\
    number_of_vregs_ (graph_ st') = count /\
    (forall i, 0 <= i < count ->
       exists l, GetLocalAt i st' = Some (l, st') /\ node st' l = Some (HLocal i)) /\
    (forall i, i < 0 \/ count <= i -> GetLocalAt i st' = None).
Proof.
  intros Hc Hentry. unfold InitializeLocals, update_graph.
  unfold bindM at 1. unfold bindM at 1. unfold gets at 1. unfold modify at 1.
  unfold bindM at 1. unfold modify at 1.
  match goal with |- context [initialize_locals_from 0 _ ?s] => set (st0 := s) end.
  assert (Hlen0 : Z.of_nat (length (locals_ st0)) = count)
    by (subst st0; cbn; rewrite length_replicate; lia).
  destruct (initialize_locals_from_spec (Z.to_nat count) 0 st0)
    as (st' & Hrun & Hl & Hg & _ & _ & Hset).
  { lia. }
  { lia. }
  { exact Hentry. }
  exists st'. split; [exact Hrun|]. split; [lia|].
  split; [rewrite Hg; reflexivity|]. split.
  - intros i Hi. destruct (Hset i) as (l & Hlocal & Hnode); [lia|].
    exists l. split; [|exact Hnode].
    unfold GetLocalAt, Get, bindM, gets, ret.
    destruct (Z.ltb_spec i 0); [lia|]. rewrite Hlocal. reflexivity.
  - intros i Hi. unfold GetLocalAt, Get, bindM, gets, ret.
    destruct (Z.ltb_spec i 0); [reflexivity|].
    rewrite lookup_ge_None_2 by lia. reflexivity.
Qed.

Lemma InitializeLocals_makes_the_locals_witness :
  let st :=
    mkHGraphBuilder [] [mkHBasicBlock [] [] 0] (mkHGraph [0%nat] None None 0 0 0)
      0 0 None [] [] None None in
  exists st',
    InitializeLocals 3 st = Some (tt, st') /\
    Z.of_nat (length (locals_ st')) = 3 /\
    number_of_vregs_ (graph_ st') = 3 /\
    (forall i, 0 <= i < 3 ->
       exists l, GetLocalAt i st' = Some (l, st') /\ node st' l = Some (HLocal i)) /\
    (forall i, i < 0 \/ 3 <= i -> GetLocalAt i st' = None).
Proof.
  intros st.
  apply (InitializeLocals_makes_the_locals 3 st); [lia|].
  exists (mkHBasicBlock [] [] 0). reflexivity.
Defined.

(** ** The shape of the graph [BuildGraph] returns *)

Section Pipeline.

Context {X : Type} (f : HGraphBuilder -> X).
Hypothesis f_instructions : forall l st, f (set_arena_instructions l st) = f st.
Hypothesis f_blocks : forall l st, f (set_arena_blocks l st) = f st.
Hypothesis f_constant0 : forall c st, f (set_constant0 c st) = f st.
Hypothesis f_constant1 : forall c st, f (set_constant1 c st) = f st.
Hypothesis f_current : forall c st, f (set_current_block c st) = f st.
Hypothesis f_locals : forall l st, f (set_locals l st) = f st.
Hypothesis f_targets : forall t st, f (set_branch_targets t st) = f st.
Hypothesis f_graph : forall g st,
  graph_entry_block_ g = graph_entry_block_ (graph_ st) ->
  graph_exit_block_ g = graph_exit_block_ (graph_ st) ->
  number_of_vregs_ g = number_of_vregs_ (graph_ st) ->
  f (set_graph g st) = f st.

Variable dex_compilation_unit_ : option DexCompilationUnit.
Variable return_type_descriptor : Z -> Z.

Lemma keeps_AddBlock block : keeps f (AddBlock block).
Proof.
  intros st a st' H. unfold AddBlock, update_block, bindM, gets, modify in H.
  cbn in H. destruct (arena_blocks st !! block); [|discriminate].
  cbn in H. injection H as _ <-.
  rewrite f_graph by reflexivity. apply f_blocks.
Qed.

Lemma keeps_update_graph h :
  (forall g, graph_entry_block_ (h g) = graph_entry_block_ g
             /\ graph_exit_block_ (h g) = graph_exit_block_ g
             /\ number_of_vregs_ (h g) = number_of_vregs_ g) ->
  keeps f (update_graph h).
Proof.
  intros Hh st a st' H. unfold update_graph, bindM, gets, modify in H.
  injection H as _ <-. destruct (Hh (graph_ st)) as (H1 & H2 & H3).
  apply f_graph; assumption.
Qed.

Ltac pipe_step :=
  first
    [ apply keeps_AddBlock
    | apply keeps_update_graph; intros; cbn; auto
    | apply keeps_AnalyzeDexInstruction; assumption
    | apply keeps_GetLocalAt; assumption
    | apply keeps_new_instruction; assumption
    | apply keeps_AddInstruction; assumption
    | apply keeps_AddSuccessor; assumption
    | apply keeps_FindBlockStartingAt; assumption
    | apply keeps_new_HBasicBlock; assumption
    | apply keeps_Get; assumption
    | apply keeps_ret | apply keeps_abort | apply keeps_gets | apply keeps_DCHECK
    | apply keeps_modify; intros;
      first [apply f_instructions | apply f_blocks | apply f_constant0
            | apply f_constant1 | apply f_current | apply f_locals | apply f_targets]
    | apply keeps_bind; [|intros]
    | assumption
    | match goal with
      | |- keeps _ (match ?x with _ => _ end) => destruct x
      | |- keeps _ (if ?x then _ else _) => destruct x
      end ].

Ltac pipe := repeat pipe_step.

Lemma keeps_Put {A} (array : list A) index a : keeps f (Put array index a).
Proof. unfold Put. pipe. Qed.

Lemma keeps_initialize_locals_from : forall remaining i,
  keeps f (initialize_locals_from i remaining).
Proof using f_instructions f_blocks f_constant0 f_constant1 f_current f_locals f_targets f_graph.
  induction remaining as [|remaining IH]; intros i; cbn [initialize_locals_from].
  - apply keeps_ret.
  - repeat first [apply keeps_Put | apply IH | pipe_step].
Qed.

Lemma keeps_put_branch_target index block : keeps f (put_branch_target index block).
Proof. unfold put_branch_target. repeat first [apply keeps_Put | pipe_step]. Qed.

Lemma keeps_compute_branch_targets_from size : forall insns dex_offset,
  keeps f (compute_branch_targets_from size insns dex_offset).
Proof.
  induction insns as [|instruction insns IH]; intros dex_offset;
    cbn [compute_branch_targets_from].
  - pipe.
  - repeat first [apply keeps_put_branch_target | apply IH | pipe_step].
Qed.

Lemma keeps_ComputeBranchTargets code_item : keeps f (ComputeBranchTargets code_item).
Proof using f_instructions f_blocks f_constant0 f_constant1 f_current f_locals f_targets f_graph.
  unfold ComputeBranchTargets.
  repeat first [apply keeps_put_branch_target | apply keeps_compute_branch_targets_from
               | pipe_step].
Qed.

Lemma keeps_add_parameter parameter_index locals_index :
  keeps f (add_parameter parameter_index locals_index).
Proof. unfold add_parameter. pipe. Qed.

Lemma keeps_shorty_at shorty pos : keeps f (shorty_at shorty pos).
Proof. unfold shorty_at. pipe. Qed.

Lemma keeps_initialize_parameters_from shorty : forall remaining pos li pi,
  keeps f (initialize_parameters_from shorty remaining pos li pi).
Proof.
  induction remaining as [|remaining IH]; intros pos li pi;
    cbn [initialize_parameters_from].
  - apply keeps_ret.
  - repeat first [apply keeps_shorty_at | apply keeps_add_parameter | apply IH
                 | pipe_step].
Qed.

Lemma keeps_InitializeLocals count :
  (forall g st,
     graph_entry_block_ g = graph_entry_block_ (graph_ st) ->
     graph_exit_block_ g = graph_exit_block_ (graph_ st) ->
     f (set_graph g st) = f st) ->
  keeps f (InitializeLocals count).
Proof using f_instructions f_blocks f_constant0 f_constant1 f_current f_locals f_targets f_graph.
  intros Hg. unfold InitializeLocals.
  apply keeps_bind.
  - intros st a st' H. unfold update_graph, bindM, gets, modify in H.
    injection H as _ <-. apply Hg; reflexivity.
  - intros _. repeat first [apply keeps_initialize_locals_from | pipe_step].
Qed.

Lemma keeps_InitializeParameters n :
  keeps f (InitializeParameters dex_compilation_unit_ n).
Proof using f_instructions f_blocks f_constant0 f_constant1 f_current f_locals f_targets f_graph.
  unfold InitializeParameters.
  repeat first [apply keeps_add_parameter | apply keeps_initialize_parameters_from
               | pipe_step].
Qed.

Lemma keeps_MaybeUpdateCurrentBlock index : keeps f (MaybeUpdateCurrentBlock index).
Proof using f_instructions f_blocks f_constant0 f_constant1 f_current f_locals f_targets f_graph. unfold MaybeUpdateCurrentBlock. pipe. Qed.

Lemma keeps_analyze_from size : forall insns dex_offset,
  keeps f (analyze_from return_type_descriptor size insns dex_offset).
Proof using f_instructions f_blocks f_constant0 f_constant1 f_current f_locals f_targets f_graph.
  induction insns as [|instruction insns IH]; intros dex_offset; cbn [analyze_from].
  - pipe.
  - repeat first [apply keeps_MaybeUpdateCurrentBlock | apply IH | pipe_step].
Qed.

End Pipeline.

(** What the statements of [BuildGraph] after its loop make of the
    builder. *)
Lemma BuildGraph_finish_shape st r st' :
  BuildGraph_finish st = Some (r, st') ->
  entry_block_ st <> exit_block_ st ->
  r = Some (graph_ st') /\
  graph_entry_block_ (graph_ st') = graph_entry_block_ (graph_ st) /\
  graph_exit_block_ (graph_ st') = graph_exit_block_ (graph_ st) /\
  number_of_vregs_ (graph_ st') = number_of_vregs_ (graph_ st) /\
  last (blocks_ (graph_ st')) = Some (exit_block_ st) /\
  last_node st' (exit_block_ st) = Some HExit /\
  last_node st' (entry_block_ st) = Some HGoto.
Proof.
  unfold BuildGraph_finish, AddBlock, AddInstruction, new_instruction, update_block,
    bindM, gets, modify, ret.
  intros H Hne. cbn in H.
  destruct (arena_blocks st !! exit_block_ st) as [bx|] eqn:Hx; [|discriminate].
  cbn in H. rewrite list_lookup_insert_eq in H by (eapply lookup_lt_Some; eassumption).
  cbn in H. rewrite list_insert_insert_eq in H.
  rewrite list_lookup_insert_ne in H by congruence.
  destruct (arena_blocks st !! entry_block_ st) as [be|] eqn:He; [|discriminate].
  cbn in H. injection H as <- <-.
  pose proof (lookup_lt_Some _ _ _ Hx) as Hltx.
  pose proof (lookup_lt_Some _ _ _ He) as Hlte.
  unfold last_node, node. cbn.
  repeat split.
  - apply last_snoc.
  - rewrite list_lookup_insert_ne by congruence.
    rewrite list_lookup_insert_eq by assumption. cbn.
    rewrite last_snoc. cbn.
    rewrite lookup_app_l by (rewrite length_app; cbn; lia).
    rewrite lookup_app_r by lia. rewrite Nat.sub_diag. reflexivity.
  - rewrite list_lookup_insert_eq by (rewrite length_insert; assumption). cbn.
    rewrite last_snoc. cbn.
    rewrite lookup_app_r by lia. rewrite Nat.sub_diag. reflexivity.
Qed.

(** ** ComputeBranchTargets *)

Lemma FindBlockStartingAt_run index st r st' :
  FindBlockStartingAt index st = Some (r, st') ->
  st' = st /\ 0 <= index /\ branch_targets_ st !! Z.to_nat index = Some r.
Proof.
  unfold FindBlockStartingAt, DCHECK, Get, bindM, gets, ret, abort.
  destruct (Z.leb_spec 0 index); [|discriminate]. cbn.
  destruct (Z.ltb_spec index 0); [lia|].
  destruct (branch_targets_ st !! Z.to_nat index); [|discriminate].
  intros [= <- <-]. auto.
Qed.

Lemma starts_block_slot st index :
  starts_block st index <->
  0 <= index /\ exists block, branch_targets_ st !! Z.to_nat index = Some (Some block).
Proof.
  unfold starts_block. split.
  - intros [block H]. apply FindBlockStartingAt_run in H as (_ & H0 & H). eauto.
  - intros [H0 [block H]]. exists block.
    unfold FindBlockStartingAt, DCHECK, Get, bindM, gets, ret, abort.
    destruct (Z.leb_spec 0 index); [|lia]. cbn.
    destruct (Z.ltb_spec index 0); [lia|]. rewrite H. reflexivity.
Qed.

(** One block request of [ComputeBranchTargets]: a block is made for
    [target] unless one starts there. *)
Local Abbreviation ensure_block target :=
  (let* found := FindBlockStartingAt target in
   match found with
   | None => let* block := new_HBasicBlock in put_branch_target target block
   | Some _ => ret tt
   end)%M.

Lemma ensure_block_run target st u st' :
  ensure_block target st = Some (u, st') ->
  length (branch_targets_ st') = length (branch_targets_ st)
  /\ (forall i block, branch_targets_ st !! i = Some (Some block) ->
                      branch_targets_ st' !! i = Some (Some block))
  /\ starts_block st' target.
Proof.
  intros H. apply bindM_Some in H as (found & s1 & Hfind & H).
  apply FindBlockStartingAt_run in Hfind as (-> & H0 & Hslot).
  destruct found as [block|].
  - injection H as _ <-. split; [reflexivity|]. split; [auto|].
    apply starts_block_slot. eauto.
  - unfold new_HBasicBlock, put_branch_target, Put, bindM, gets, modify, ret, abort in H.
    cbn in H.
    destruct ((0 <=? target) && (target <? Z.of_nat (length (branch_targets_ st))))
      eqn:Hin; [|discriminate].
    cbn in H. injection H as _ <-. cbn.
    assert (Z.to_nat target < length (branch_targets_ st))%nat by lia.
    split; [apply length_insert|]. split.
    + intros i block Hi.
      destruct (decide (i = Z.to_nat target)) as [->|Hne]; [congruence|].
      rewrite list_lookup_insert_ne by congruence. exact Hi.
    + apply starts_block_slot. split; [assumption|]. cbn.
      eexists. apply list_lookup_insert_eq. assumption.
Qed.

Lemma starts_block_mono st st' index :
  (forall i block, branch_targets_ st !! i = Some (Some block) ->
                   branch_targets_ st' !! i = Some (Some block)) ->
  starts_block st index -> starts_block st' index.
Proof.
  intros Hmono H. apply starts_block_slot in H as [H0 [block H]].
  apply starts_block_slot. eauto.
Qed.

Lemma compute_branch_targets_from_run size : forall insns dex_offset st u st',
  compute_branch_targets_from size insns dex_offset st = Some (u, st') ->
  length (branch_targets_ st') = length (branch_targets_ st)
  /\ (forall i block, branch_targets_ st !! i = Some (Some block) ->
                      branch_targets_ st' !! i = Some (Some block))
  /\ (forall offset instruction,
        In (offset, instruction) (visited size insns dex_offset) ->
        IsBranch instruction = true ->
        starts_block st' (GetTargetOffset instruction + offset)
        /\ (offset + SizeInCodeUnits instruction < size ->
            starts_block st' (offset + SizeInCodeUnits instruction))).
Proof.
  induction insns as [|instruction insns IH]; intros dex_offset st u st' H;
    cbn [compute_branch_targets_from visited] in *.
  - destruct (dex_offset <? size); [discriminate|].
    injection H as _ <-. split; [reflexivity|]. split; [auto|]. intros ? ? [].
  - destruct (Z.ltb_spec dex_offset size) as [Hlt|Hge];
      [|injection H as _ <-; split; [reflexivity|]; split; [auto|]; intros ? ? []].
    destruct (IsBranch instruction) eqn:Hbranch.
    + cbv zeta in H. rewrite <- bindM_assoc in H.
      apply bindM_Some in H as ([] & s1 & Htarget & H).
      apply ensure_block_run in Htarget as (L1 & M1 & B1).
      apply bindM_Some in H as ([] & s2 & Hnext & H).
      apply IH in H as (L3 & M3 & B3).
      assert (L2 : length (branch_targets_ s2) = length (branch_targets_ s1)
                   /\ (forall i block, branch_targets_ s1 !! i = Some (Some block) ->
                                       branch_targets_ s2 !! i = Some (Some block))
                   /\ (dex_offset + SizeInCodeUnits instruction < size ->
                       starts_block s2 (dex_offset + SizeInCodeUnits instruction))).
      { destruct (Z.ltb_spec (dex_offset + SizeInCodeUnits instruction) size).
        - apply ensure_block_run in Hnext as (? & ? & ?). auto.
        - injection Hnext as <-. split; [reflexivity|]. split; [auto|]. lia. }
      destruct L2 as (L2 & M2 & B2).
      split; [congruence|]. split; [auto|].
      intros offset i [[= <- <-]|Hin] Hi.
      * split.
        -- eapply starts_block_mono; [exact M3|].
           eapply starts_block_mono; [exact M2|]. exact B1.
        -- intros Hfall. eapply starts_block_mono; [exact M3|]. auto.
      * apply B3; assumption.
    + apply IH in H as (L3 & M3 & B3).
      split; [assumption|]. split; [assumption|].
      intros offset i [[= <- <-]|Hin] Hi; [congruence|]. apply B3; assumption.
Qed.

(** X21: when [ComputeBranchTargets] returns, the table has one slot for each
    code unit, a block starts at offset 0, and a block starts at the target of
    every branch the loop has visited and, unless the code ends there, at the
    offset that follows the branch. *)
Theorem ComputeBranchTargets_makes_the_targets code_item st u st' :
  ComputeBranchTargets code_item st = Some (u, st') ->
  length (branch_targets_ st') = Z.to_nat (insns_size_in_code_units_ code_item)
  /\ starts_block st' 0
  /\ (forall offset instruction,
        In (offset, instruction)
           (visited (insns_size_in_code_units_ code_item) (insns_ code_item) 0) ->
        IsBranch instruction = true ->
        starts_block st' (GetTargetOffset instruction + offset)
        /\ (offset + SizeInCodeUnits instruction < insns_size_in_code_units_ code_item ->
            starts_block st' (offset + SizeInCodeUnits instruction))).
Proof.
  unfold ComputeBranchTargets. intros H.
  apply bindM_Some in H as ([] & s1 & [= <-] & H).
  apply bindM_Some in H as (block & s2 & [= <- <-] & H).
  apply bindM_Some in H as ([] & s3 & Hput & H).
  apply bindM_Some in H as (entry & s4 & [= <- <-] & H).
  apply bindM_Some in H as ([] & s5 & Hsucc & H).
  apply compute_branch_targets_from_run in H as (L & M & B).
  pose proof (keeps_AddSuccessor branch_targets_ ltac:(reflexivity) _ _ _ _ _ Hsucc) as K.
  unfold put_branch_target, Put, bindM, gets, modify, ret, abort in Hput. cbn in Hput.
  rewrite length_replicate in Hput.
  destruct (Z.ltb_spec 0 (Z.of_nat (Z.to_nat (insns_size_in_code_units_ code_item))))
    as [Hsize|]; [|discriminate].
  cbn in Hput. injection Hput as <-. cbn in K.
  split; [rewrite L, K, length_insert, length_replicate; reflexivity|].
  split; [|exact B].
  apply starts_block_slot. split; [lia|]. exists (length (arena_blocks st)).
  apply M. rewrite K. apply list_lookup_insert_eq. rewrite length_replicate. lia.
Qed.

Section Shape.

Variable dex_compilation_unit_ : option DexCompilationUnit.
Variable return_type_descriptor : Z -> Z.

Local Abbreviation BuildGraph := (BuildGraph dex_compilation_unit_ return_type_descriptor).
Local Abbreviation BuildGraph_setup := (BuildGraph_setup dex_compilation_unit_).

(** The builder once [BuildGraph] has made the graph and the entry and
    exit blocks. *)
Lemma BuildGraph_setup_blocks code_item st ok st1 :
  BuildGraph_setup code_item st = Some (ok, st1) ->
  entry_block_ st1 = length (arena_blocks st) /\
  exit_block_ st1 = S (length (arena_blocks st)) /\
  graph_entry_block_ (graph_ st1) = Some (length (arena_blocks st)) /\
  graph_exit_block_ (graph_ st1) = Some (S (length (arena_blocks st))) /\
  number_of_vregs_ (graph_ st1) = registers_size_ code_item.
Proof.
  unfold Builder.BuildGraph_setup. intros H.
  apply bindM_Some in H as ([] & sa & [= <-] & H).
  apply bindM_Some in H as (entry & sb & [= <- <-] & H).
  apply bindM_Some in H as ([] & sc & [= <-] & H).
  apply bindM_Some in H as ([] & sd & Hadd & H).
  unfold AddBlock, update_block, bindM, gets, modify in Hadd. cbn in Hadd.
  rewrite lookup_app_r in Hadd by lia. rewrite Nat.sub_diag in Hadd. cbn in Hadd.
  injection Hadd as <-.
  apply bindM_Some in H as (exit & se & [= <- <-] & H).
  apply bindM_Some in H as ([] & sf & [= <-] & H).
  apply bindM_Some in H as ([] & sg & [= <-] & H).
  apply bindM_Some in H as ([] & sh & Hlocals & H).
  apply bindM_Some in H as ([] & si & Hout & H).
  apply bindM_Some in H as ([] & sj & Htargets & H).
  unfold update_graph, bindM, gets, modify in Hout. injection Hout as <-.
  match type of Hlocals with InitializeLocals _ ?s = _ => set (s0 := s) in * end.
  assert (Hvregs : number_of_vregs_ (graph_ sh) = registers_size_ code_item).
  { unfold InitializeLocals in Hlocals.
    apply bindM_Some in Hlocals as ([] & s1 & Hu & Hlocals).
    unfold update_graph, bindM, gets, modify in Hu. injection Hu as <-.
    apply bindM_Some in Hlocals as ([] & s2 & [= <-] & Hlocals).
    rewrite (keeps_initialize_locals_from (fun s => number_of_vregs_ (graph_ s))
               ltac:(reflexivity) ltac:(reflexivity) ltac:(reflexivity)
               ltac:(reflexivity) ltac:(reflexivity) ltac:(reflexivity)
               ltac:(reflexivity) ltac:(intros; assumption) _ _ _ _ _ Hlocals).
    reflexivity. }
  assert (Hkeep : forall X (f : HGraphBuilder -> X),
            (forall l s, f (set_arena_instructions l s) = f s) ->
            (forall l s, f (set_arena_blocks l s) = f s) ->
            (forall c s, f (set_constant0 c s) = f s) ->
            (forall c s, f (set_constant1 c s) = f s) ->
            (forall c s, f (set_current_block c s) = f s) ->
            (forall l s, f (set_locals l s) = f s) ->
            (forall t s, f (set_branch_targets t s) = f s) ->
            (forall g s,
               graph_entry_block_ g = graph_entry_block_ (graph_ s) ->
               graph_exit_block_ g = graph_exit_block_ (graph_ s) ->
               f (set_graph g s) = f s) ->
            f st1 = f s0).
  { intros X f F1 F2 F3 F4 F5 F6 F7 F8.
    assert (F8' : forall g s,
              graph_entry_block_ g = graph_entry_block_ (graph_ s) ->
              graph_exit_block_ g = graph_exit_block_ (graph_ s) ->
              number_of_vregs_ g = number_of_vregs_ (graph_ s) ->
              f (set_graph g s) = f s) by (intros; apply F8; assumption).
    rewrite (keeps_InitializeParameters f F1 F2 F3 F4 F5 F6 F7 F8' _ _ _ _ _ H).
    rewrite (keeps_ComputeBranchTargets f F1 F2 F3 F4 F5 F6 F7 F8' _ _ _ _ Htargets).
    rewrite F8 by reflexivity.
    apply (keeps_InitializeLocals f F1 F2 F3 F4 F5 F6 F7 F8' _ F8 _ _ _ Hlocals). }
  assert (Hlen : forall b, length (arena_blocks st ++ [b]) = S (length (arena_blocks st)))
    by (intros; rewrite length_app; cbn; lia).
  split; [rewrite (Hkeep _ entry_block_) by reflexivity; reflexivity|].
  split; [rewrite (Hkeep _ exit_block_) by reflexivity; subst s0; cbn; rewrite length_insert; apply Hlen|].
  split; [rewrite (Hkeep _ (fun s => graph_entry_block_ (graph_ s)))
            by (intros; try reflexivity; assumption); reflexivity|].
  split; [rewrite (Hkeep _ (fun s => graph_exit_block_ (graph_ s)))
            by (intros; try reflexivity; assumption); subst s0; cbn; rewrite length_insert; f_equal; apply Hlen|].
  assert (F8v : forall g s,
            graph_entry_block_ g = graph_entry_block_ (graph_ s) ->
            graph_exit_block_ g = graph_exit_block_ (graph_ s) ->
            number_of_vregs_ g = number_of_vregs_ (graph_ s) ->
            number_of_vregs_ (graph_ (set_graph g s)) = number_of_vregs_ (graph_ s))
    by (intros; assumption).
  rewrite (keeps_InitializeParameters (fun s => number_of_vregs_ (graph_ s))
             ltac:(reflexivity) ltac:(reflexivity) ltac:(reflexivity)
             ltac:(reflexivity) ltac:(reflexivity) ltac:(reflexivity)
             ltac:(reflexivity) F8v _ _ _ _ _ H).
  rewrite (keeps_ComputeBranchTargets (fun s => number_of_vregs_ (graph_ s))
             ltac:(reflexivity) ltac:(reflexivity) ltac:(reflexivity)
             ltac:(reflexivity) ltac:(reflexivity) ltac:(reflexivity)
             ltac:(reflexivity) F8v _ _ _ _ Htargets).
  exact Hvregs.
Qed.

(** X22: a graph that [BuildGraph] returns is the builder's graph; its entry
    and exit blocks are the two blocks made first, the exit block is the
    last block added to the graph, the graph has the registers of the method,
    the exit block ends in the exit instruction and the entry block in a
    goto. *)
Theorem BuildGraph_returns_a_closed_graph code_item st g st' :
  BuildGraph code_item st = Some (Some g, st') ->
  g = graph_ st' /\
  graph_entry_block_ g = Some (length (arena_blocks st)) /\
  graph_exit_block_ g = Some (S (length (arena_blocks st))) /\
  number_of_vregs_ g = registers_size_ code_item /\
  last (blocks_ g) = Some (S (length (arena_blocks st))) /\
  last_node st' (S (length (arena_blocks st))) = Some HExit /\
  last_node st' (length (arena_blocks st)) = Some HGoto.
Proof.
  rewrite BuildGraph_unfold. intros H.
  destruct (negb (CanHandleCodeItem code_item)); [discriminate|].
  destruct (BuildGraph_setup code_item st) as [[ok st1]|] eqn:Hsetup; [|discriminate].
  destruct ok; cbn [negb] in H; [|discriminate].
  destruct (analyze_from _ _ _ _ st1) as [[ok st2]|] eqn:Hloop; [|discriminate].
  destruct ok; cbn [negb] in H; [|discriminate].
  destruct (BuildGraph_setup_blocks _ _ _ _ Hsetup) as (He & Hx & Hge & Hgx & Hv).
  assert (Hkeep : forall X (f : HGraphBuilder -> X),
            (forall l s, f (set_arena_instructions l s) = f s) ->
            (forall l s, f (set_arena_blocks l s) = f s) ->
            (forall c s, f (set_constant0 c s) = f s) ->
            (forall c s, f (set_constant1 c s) = f s) ->
            (forall c s, f (set_current_block c s) = f s) ->
            (forall l s, f (set_locals l s) = f s) ->
            (forall t s, f (set_branch_targets t s) = f s) ->
            (forall g s,
               graph_entry_block_ g = graph_entry_block_ (graph_ s) ->
               graph_exit_block_ g = graph_exit_block_ (graph_ s) ->
               number_of_vregs_ g = number_of_vregs_ (graph_ s) ->
               f (set_graph g s) = f s) ->
            f st2 = f st1).
  { intros X f F1 F2 F3 F4 F5 F6 F7 F8.
    exact (keeps_analyze_from f F1 F2 F3 F4 F5 F6 F7 F8 _ _ _ _ _ _ _ Hloop). }
  pose proof (Hkeep _ entry_block_ ltac:(reflexivity) ltac:(reflexivity)
                ltac:(reflexivity) ltac:(reflexivity) ltac:(reflexivity)
                ltac:(reflexivity) ltac:(reflexivity) ltac:(reflexivity)) as Ke.
  pose proof (Hkeep _ exit_block_ ltac:(reflexivity) ltac:(reflexivity)
                ltac:(reflexivity) ltac:(reflexivity) ltac:(reflexivity)
                ltac:(reflexivity) ltac:(reflexivity) ltac:(reflexivity)) as Kx.
  pose proof (Hkeep _ (fun s => graph_entry_block_ (graph_ s)) ltac:(reflexivity)
                ltac:(reflexivity) ltac:(reflexivity) ltac:(reflexivity)
                ltac:(reflexivity) ltac:(reflexivity) ltac:(reflexivity)
                ltac:(intros; assumption)) as Kge.
  pose proof (Hkeep _ (fun s => graph_exit_block_ (graph_ s)) ltac:(reflexivity)
                ltac:(reflexivity) ltac:(reflexivity) ltac:(reflexivity)
                ltac:(reflexivity) ltac:(reflexivity) ltac:(reflexivity)
                ltac:(intros; assumption)) as Kgx.
  pose proof (Hkeep _ (fun s => number_of_vregs_ (graph_ s)) ltac:(reflexivity)
                ltac:(reflexivity) ltac:(reflexivity) ltac:(reflexivity)
                ltac:(reflexivity) ltac:(reflexivity) ltac:(reflexivity)
                ltac:(intros; assumption)) as Kv.
  cbn beta in Kge, Kgx, Kv.
  destruct (BuildGraph_finish_shape _ _ _ H) as (Hg & H1 & H2 & H3 & H4 & H5 & H6).
  { rewrite Ke, Kx, He, Hx. lia. }
  injection Hg as ->.
  rewrite Ke, He in H6. rewrite Kx, Hx in H4, H5.
  repeat split; try assumption; congruence.
Qed.

End Shape.

Lemma BuildGraph_returns_a_closed_graph_witness :
  exists g st',
    BuildGraph None (fun _ => 86)
      (mkCodeItem 1 0 0 0 1 [mkInstruction RETURN_VOID 1 false 0 0 0 0 []])
      new_HGraphBuilder = Some (Some g, st')
    /\ graph_entry_block_ g = Some 0%nat
    /\ last_node st' 1%nat = Some HExit.
Proof.
  eexists; eexists; split; [vm_compute; reflexivity|].
  split;
    eapply (BuildGraph_returns_a_closed_graph None (fun _ => 86)
              (mkCodeItem 1 0 0 0 1 [mkInstruction RETURN_VOID 1 false 0 0 0 0 []])
              new_HGraphBuilder);
    vm_compute; reflexivity.
Defined.

Lemma ComputeBranchTargets_makes_the_targets_witness :
  exists st',
    ComputeBranchTargets
      (mkCodeItem 1 0 0 0 2 [mkInstruction GOTO 1 true 1 0 0 0 [];
                             mkInstruction RETURN_VOID 1 false 0 0 0 0 []])
      (set_arena_blocks [mkHBasicBlock [] [] 0] new_HGraphBuilder) = Some (tt, st')
    /\ length (branch_targets_ st') = 2%nat
    /\ starts_block st' 1.
Proof.
  eexists; split; [vm_compute; reflexivity|].
  destruct (ComputeBranchTargets_makes_the_targets
              (mkCodeItem 1 0 0 0 2 [mkInstruction GOTO 1 true 1 0 0 0 [];
                                     mkInstruction RETURN_VOID 1 false 0 0 0 0 []])
              (set_arena_blocks [mkHBasicBlock [] [] 0] new_HGraphBuilder) tt _
              ltac:(vm_compute; reflexivity)) as (Hlength & _ & Htargets).
  split; [exact Hlength|].
  destruct (Htargets 0 (mkInstruction GOTO 1 true 1 0 0 0 [])) as [Htarget _];
    [left; reflexivity | reflexivity | exact Htarget].
Defined.

End BuilderMore.
